(** * Orchestration core of the desktop vision assistant (src/main.py)

    A shallow embedding of the control plane of [main.py]: the text
    segmentation helpers, the detail cursor, the speech fallback chain,
    the microphone transcription watchdog, the chunked dictation recorder
    and the hot-key handlers with the single-flight task gate.

    Conventions.
    - A Python [str] is a [string]; an [ascii] stands for a code point
      below 256.
    - A [threading.Event] is a [bool] field (set = [true]).
    - [threading.Lock] is a [bool] field (held = [true]).
    - Wall-clock readings ([time.time()]) are integers in milliseconds.
    - Results of external processes and of other threads are supplied by
      explicit environment records, one per blocking call. *)

From Stdlib Require Import ZArith List Bool String Ascii Lia.
From Stdlib Require Import Numbers.DecimalString.
Import ListNotations.
Open Scope Z_scope.

(** Exceptions that can leave a modelled function. *)
Inductive exn : Type :=
| IndexError
| OSError
| RuntimeError.

Inductive result (A : Type) : Type :=
| Ok (a : A)
| Raise (e : exn).
Arguments Ok {A} a.
Arguments Raise {A} e.

(* ------------------------------------------------------------------ *)
(** ** Python string helpers used by [_normalize_for_speech] and friends *)

Module PyStr.
Local Open Scope string_scope.
Local Open Scope Z_scope.

(** [str.isspace] / regex [\s] on code points below 256. *)
Definition isspace (c : ascii) : bool :=
  let n := N_of_ascii c in
  (((9 <=? n) && (n <=? 13)) || ((28 <=? n) && (n <=? 32))
   || (n =? 133) || (n =? 160))%N.

(** Character class [[*_`#]]. *)
Definition is_markup (c : ascii) : bool :=
  let n := N_of_ascii c in
  ((n =? 42) || (n =? 95) || (n =? 96) || (n =? 35))%N.

(** Character class [[.!?]]. *)
Definition is_sentence_end (c : ascii) : bool :=
  let n := N_of_ascii c in
  ((n =? 46) || (n =? 33) || (n =? 63))%N.

Definition newline : ascii := ascii_of_N 10.

(** Truth value of a [str]: non-empty. *)
Definition truthy (s : string) : bool :=
  match s with
  | EmptyString => false
  | String _ _ => true
  end.

(** [a or b] on strings. *)
Definition str_or (a b : string) : string := if truthy a then a else b.

Fixpoint lstrip (s : string) : string :=
  match s with
  | EmptyString => EmptyString
  | String c s' => if isspace c then lstrip s' else s
  end.

Fixpoint rstrip (s : string) : string :=
  match s with
  | EmptyString => EmptyString
  | String c s' =>
      match rstrip s' with
      | EmptyString => if isspace c then EmptyString else String c EmptyString
      | r => String c r
      end
  end.

(** [s.strip()] *)
Definition strip (s : string) : string := rstrip (lstrip s).

(** [s.replace("\n", " ")] *)
Fixpoint replace_newlines (s : string) : string :=
  match s with
  | EmptyString => EmptyString
  | String c s' =>
      String (if Ascii.eqb c newline then " "%char else c) (replace_newlines s')
  end.

(** [re.sub(cls+, " ", s)]: every maximal run of characters of the class
    [p] becomes one space.  [inrun] tells that the previous character
    belonged to a run that has already been replaced. *)
Fixpoint sub_runs (p : ascii -> bool) (inrun : bool) (s : string) : string :=
  match s with
  | EmptyString => EmptyString
  | String c s' =>
      if p c then
        if inrun then sub_runs p true s'
        else String " "%char (sub_runs p true s')
      else String c (sub_runs p false s')
  end.

(** [re.split(r'(?<=[.!?])\s+', s)].  A separator starts at a whitespace
    character whose predecessor is one of [.!?] and extends over the whole
    whitespace run.  [after_punct]: the previous character is in [[.!?]];
    [in_sep]: the previous character belongs to a separator.  The head of
    the result is the piece under construction. *)
Fixpoint re_split_sentences (after_punct in_sep : bool) (s : string)
  : list string :=
  match s with
  | EmptyString => [EmptyString]
  | String c s' =>
      if isspace c && (in_sep || after_punct) then
        if in_sep then re_split_sentences false true s'
        else EmptyString :: re_split_sentences false true s'
      else
        match re_split_sentences (is_sentence_end c) false s' with
        | p :: ps => String c p :: ps
        | [] => [String c EmptyString]
        end
  end.

(** [" ".join(l)] *)
Definition join_spaces (l : list string) : string := String.concat " " l.

(** [str(n)] for an integer. *)
Definition str_of_int (n : Z) : string := NilZero.string_of_int (Z.to_int n).

(** [l[i]] on a Python list: negative indices count from the end, an
    index out of range raises [IndexError]. *)
Definition getitem {A} (l : list A) (i : Z) : result A :=
  let n := Z.of_nat (List.length l) in
  let j := if i <? 0 then n + i else i in
  if (0 <=? j) && (j <? n) then
    match nth_error l (Z.to_nat j) with
    | Some x => Ok x
    | None => Raise IndexError
    end
  else Raise IndexError.
End PyStr.

(* ------------------------------------------------------------------ *)
(** ** Text segmentation: [_normalize_for_speech], [_build_summary] *)

Module Text.
Import PyStr.
Local Open Scope string_scope.
Local Open Scope Z_scope.

Definition normalize_for_speech (text : string) : string :=
  let cleaned := replace_newlines text in
  let cleaned := sub_runs is_markup false cleaned in
  strip (sub_runs isspace false cleaned).

(** [[p.strip() for p in re.split(...) if p.strip()]] *)
Definition sentence_parts (normalized : string) : list string :=
  map strip
    (filter (fun p => truthy (strip p))
       (re_split_sentences false false normalized)).

Definition build_summary (description : string) : string :=
  let normalized := normalize_for_speech description in
  let parts := sentence_parts normalized in
  match parts with
  | [] => str_or normalized "No description returned."
  | _ => join_spaces (firstn 2 parts)
  end.
End Text.

(* ------------------------------------------------------------------ *)
(** ** Detail cursor: [_store_description_details], [_navigate_detail] *)

Module Cursor.
Import PyStr.
Local Open Scope string_scope.
Local Open Scope Z_scope.

Record cursor : Type := mkCursor {
  description_sections : list string;
  current_detail_index : Z
}.

(** State installed by [VisionAssistant.__init__]. *)
Definition init : cursor := mkCursor [] (-1).

Definition len (c : cursor) : Z := Z.of_nat (List.length (description_sections c)).

Definition store_description_details (description : string) (c : cursor)
  : cursor :=
  let normalized := Text.normalize_for_speech description in
  let parts := Text.sentence_parts normalized in
  let parts :=
    match parts with
    | [] => [str_or normalized "No details available."]
    | _ => parts
    end in
  mkCursor parts (-1).

(** The index computed by the stepping policy (the [else] branch). *)
Definition next_index (step : Z) (n index : Z) : Z :=
  if index =? -1 then (if 0 <? step then 0 else n - 1)
  else if (0 <? step) && (index <? n - 1) then index + 1
  else if (step <? 0) && (0 <? index) then index - 1
  else index.

(** Body of the [with self._state_lock] block of [_navigate_detail]:
    the new cursor and the message, or the exception raised while the
    message is formatted (the index has been stored by then). *)
Definition navigate_detail (step : Z) (c : cursor) : cursor * result string :=
  let details := description_sections c in
  let index := current_detail_index c in
  match details with
  | [] => (c, Ok "No details available yet. Press control plus M first.")
  | _ =>
      let index := next_index step (len c) index in
      let c' := mkCursor details index in
      match getitem details index with
      | Ok d =>
          (c', Ok ("Detail " ++ str_of_int (index + 1) ++ " of "
                     ++ str_of_int (len c) ++ ". " ++ d))
      | Raise e => (c', Raise e)
      end
  end.

(** The cursor after a sequence of navigation steps. *)
Fixpoint navigate_many (steps : list Z) (c : cursor) : cursor :=
  match steps with
  | [] => c
  | s :: rest => navigate_many rest (fst (navigate_detail s c))
  end.

(** Data-model invariant of the detail collection. *)
Definition wf (c : cursor) : Prop :=
  -1 <= current_detail_index c <= len c - 1.
End Cursor.

(* ------------------------------------------------------------------ *)
(** ** Speech pipeline: [speak], [stop_current_speech],
       [clear_speech_stop_request] *)

Module Speech.
Local Open Scope string_scope.
Local Open Scope Z_scope.

Inductive backend : Type :=
| WaveFile      (* _speak_via_wave_file *)
| Cscript       (* _speak_via_cscript *)
| PowerShell    (* _speak_via_powershell *)
| Pyttsx3.      (* _speak_via_pyttsx3 *)

Inductive info : Type :=
| Suppressed                  (* "Speech suppressed due to active user stop request." *)
| Interrupted (b : backend)   (* "Speech interrupted during ... playback." *)
| BackendUsed (b : backend).  (* "Speech backend: ..." *)

(** Observable actions of the pipeline, in the order they happen. *)
Inductive event : Type :=
| Called (b : backend)                    (* the backend function was entered *)
| Launched (b : backend) (text : string)  (* its process / engine call was started *)
| Spoke (b : backend) (text : string)     (* the utterance was rendered *)
| LogInfo (m : info)
| LogError (b : backend)
| Terminated (b : backend)                (* speak._active_proc.terminate() *)
| Purged                                  (* PlaySound(None, SND_PURGE) *)
| EngineStopped.                          (* engine.stop() *)

Record state : Type := mkState {
  stop_event : bool;              (* speak._stop_event *)
  active_proc : option backend;   (* speak._active_proc: whose process is live *)
  log : list event
}.

Definition init : state := mkState false None [].

Definition emit (e : event) (st : state) : state :=
  mkState (stop_event st) (active_proc st) (log st ++ [e]).
Definition set_stop (b : bool) (st : state) : state :=
  mkState b (active_proc st) (log st).
Definition set_active (p : option backend) (st : state) : state :=
  mkState (stop_event st) p (log st).

Definition clear_speech_stop_request (st : state) : state := set_stop false st.

Definition stop_current_speech (with_engine : bool) (st : state) : state :=
  let st := set_stop true st in
  let st := match active_proc st with
            | Some p => emit (Terminated p) st
            | None => st
            end in
  let st := emit Purged st in
  if with_engine then emit EngineStopped st else st.

(** A stop request issued by another thread while a call blocks. *)
Definition interfere (stop_requested : bool) (st : state) : state :=
  if stop_requested then stop_current_speech true st else st.

(** Environment of one external process: the return code it exits with,
    or the exception raised when it is launched, and whether a stop
    request lands while the caller waits for it. *)
Record proc_env : Type := mkProc {
  proc_result : result Z;
  stop_during_proc : bool
}.

(** Environment of the wave-file backend: the synthesis process, whether
    opening the audio device raises, and whether a stop request lands
    during playback. *)
Record wave_env : Type := mkWave {
  synth : proc_env;
  play_raises : bool;
  stop_during_play : bool
}.

(** Environment of one repeat iteration. *)
Record iter_env : Type := mkIter {
  wave : wave_env;
  cscript : proc_env;
  powershell : proc_env;
  engine_raises : bool      (* engine.say / engine.runAndWait raises *)
}.

Definition speak_via_pyttsx3 (raises : bool) (utterance : string) (st : state)
  : state * result unit :=
  let st := emit (Called Pyttsx3) st in
  if stop_event st then (st, Ok tt)
  else
    let st := emit (LogInfo (BackendUsed Pyttsx3)) st in
    let st := emit (Launched Pyttsx3 utterance) st in
    if raises then (st, Raise RuntimeError)
    else (emit (Spoke Pyttsx3 utterance) st, Ok tt).

Definition speak_via_cscript (e : proc_env) (utterance : string) (st : state)
  : state * result bool :=
  let st := emit (Called Cscript) st in
  if stop_event st then (st, Ok true)
  else
    match proc_result e with
    | Raise x => (st, Raise x)
    | Ok rc =>
        let st := set_active (Some Cscript) (emit (Launched Cscript utterance) st) in
        let st := interfere (stop_during_proc e) st in
        let st := set_active None st in
        if stop_event st then (emit (LogInfo (Interrupted Cscript)) st, Ok true)
        else if negb (rc =? 0) then (emit (LogError Cscript) st, Ok false)
        else
          (emit (LogInfo (BackendUsed Cscript)) (emit (Spoke Cscript utterance) st),
           Ok true)
    end.

Definition speak_via_powershell (e : proc_env) (raises : bool)
           (utterance : string) (st : state) : state * result unit :=
  let st := emit (Called PowerShell) st in
  if stop_event st then (st, Ok tt)
  else
    match proc_result e with
    | Raise x => (st, Raise x)
    | Ok rc =>
        let st := set_active (Some PowerShell) (emit (Launched PowerShell utterance) st) in
        let st := interfere (stop_during_proc e) st in
        let st := set_active None st in
        if stop_event st then (emit (LogInfo (Interrupted PowerShell)) st, Ok tt)
        else if negb (rc =? 0) then
          speak_via_pyttsx3 raises utterance (emit (LogError PowerShell) st)
        else
          (emit (LogInfo (BackendUsed PowerShell)) (emit (Spoke PowerShell utterance) st),
           Ok tt)
    end.

(** The [try/except Exception] of the wave backend turns every exception
    of its body into [False]. *)
Definition speak_via_wave_file (e : wave_env) (utterance : string) (st : state)
  : state * bool :=
  let st := emit (Called WaveFile) st in
  if stop_event st then (st, true)
  else
    match proc_result (synth e) with
    | Raise _ => (emit (LogError WaveFile) st, false)
    | Ok rc =>
        let st := emit (Launched WaveFile utterance) st in
        let st := interfere (stop_during_proc (synth e)) st in
        if negb (rc =? 0) then (emit (LogError WaveFile) st, false)
        else if stop_event st then (st, true)
        else if play_raises e then (emit (LogError WaveFile) st, false)
        else
          let st := interfere (stop_during_play e) st in
          if stop_event st then
            (emit (LogInfo (Interrupted WaveFile)) (emit Purged st), true)
          else
            (emit (LogInfo (BackendUsed WaveFile)) (emit (Spoke WaveFile utterance) st),
             true)
    end.

(** The [for _ in range(max(1, repeat))] loop; [i] is the number of the
    iteration and selects its environment. *)
Fixpoint speak_loop (n i : nat) (env : nat -> iter_env) (text : string)
         (st : state) : state * result unit :=
  match n with
  | O => (st, Ok tt)
  | S n' =>
      if stop_event st then (st, Ok tt)
      else
        let '(st, done) := speak_via_wave_file (wave (env i)) text st in
        if done then speak_loop n' (S i) env text st
        else if stop_event st then (st, Ok tt)
        else
          match speak_via_cscript (cscript (env i)) text st with
          | (st, Raise x) => (st, Raise x)
          | (st, Ok true) => speak_loop n' (S i) env text st
          | (st, Ok false) =>
              if stop_event st then (st, Ok tt)
              else
                match speak_via_powershell (powershell (env i))
                        (engine_raises (env i)) text st with
                | (st, Raise x) => (st, Raise x)
                | (st, Ok _) => speak_loop n' (S i) env text st
                end
          end
  end.

Definition speak (env : nat -> iter_env) (text : string) (interrupt : bool)
           (repeat : Z) (st : state) : state * result unit :=
  if stop_event st then (emit (LogInfo Suppressed) st, Ok tt)
  else
    let st := match active_proc st with
              | Some p => if interrupt then emit (Terminated p) st else st
              | None => st
              end in
    speak_loop (Z.to_nat (Z.max 1 repeat)) 0 env text st.

(** Events of a log that mark a backend being entered. *)
Definition calls (l : list event) : list backend :=
  flat_map (fun e => match e with Called b => [b] | _ => [] end) l.

(** Utterances that were rendered audibly. *)
Definition spoken (l : list event) : list string :=
  flat_map (fun e => match e with Spoke _ t => [t] | _ => [] end) l.

(** Environments used in the statements. *)
Definition proc_ok : proc_env := mkProc (Ok 0) false.
Definition proc_rc (rc : Z) : proc_env := mkProc (Ok rc) false.
Definition proc_raises : proc_env := mkProc (Raise OSError) false.
Definition wave_rc (rc : Z) : wave_env := mkWave (proc_rc rc) false false.
Definition all_ok : iter_env := mkIter (wave_rc 0) proc_ok proc_ok false.

(** The process ran to its end with a non-zero return code while nobody
    asked for silence. *)
Definition exits_nonzero (p : proc_env) : bool :=
  match proc_result p with
  | Ok rc => negb (rc =? 0) && negb (stop_during_proc p)
  | Raise _ => false
  end.

(** An iteration in which the three process backends fail by their
    return codes and the in-process engine works. *)
Definition fails_by_exit_codes (e : iter_env) : bool :=
  exits_nonzero (synth (wave e)) && exits_nonzero (cscript e)
  && exits_nonzero (powershell e) && negb (engine_raises e).

Definition priority_order : list backend := [WaveFile; Cscript; PowerShell; Pyttsx3].
End Speech.

(* ------------------------------------------------------------------ *)
(** ** Microphone transcription attempt: [transcribe_from_microphone] *)

Module Transcribe.
Local Open Scope string_scope.
Local Open Scope Z_scope.

(** Environment of one attempt.  Times are milliseconds after the
    deadline was computed (right after the process was launched). *)
Record env : Type := mkEnv {
  launch_raises : bool;     (* subprocess.Popen raises *)
  exit_at : option Z;       (* when the process exits; None: it hangs *)
  returncode : Z;
  stdout_text : string;
  cancel_at : option Z;     (* from when cancel_event reads set *)
  submit_at : option Z;     (* from when stop_event reads set *)
  sleep_ms : nat -> Z       (* real duration of the k-th time.sleep(0.05) *)
}.

Definition reached (t : option Z) (now : Z) : bool :=
  match t with
  | Some x => x <=? now
  | None => false
  end.

Inductive note : Type :=
| Canceled       (* "Microphone transcription canceled by user." *)
| Submitted      (* "Microphone transcription stopped by user submit." *)
| TimedOut       (* "Microphone transcription timed out." *)
| Failed         (* "Microphone transcription failed (rc=...)" *)
| LaunchError.   (* "Microphone transcription error: ..." *)

Record report : Type := mkReport {
  result : option string;   (* the returned value *)
  terminated : bool;        (* proc.terminate() was called *)
  ended_at : Z;             (* clock reading when the attempt returned *)
  polls : nat;              (* completed sleeps *)
  logged : option note
}.

Inductive run : Type :=
| Finished (r : report)
| OutOfFuel.

(** [max(timeout_seconds + 5, 12)] *)
Definition deadline_seconds (timeout_seconds : Z) : Z :=
  Z.max (timeout_seconds + 5) 12.

(** Code after the polling loop: [communicate] and the checks on it. *)
Definition after_exit (e : env) (now : Z) (k : nat) : report :=
  if reached (submit_at e) now then mkReport None false now k None
  else if negb (returncode e =? 0) then mkReport None false now k (Some Failed)
  else
    let transcript := PyStr.strip (stdout_text e) in
    mkReport (if PyStr.truthy transcript then Some transcript else None)
             false now k None.

(** [while proc.poll() is None: ...]; [k] sleeps have been completed and
    the clock reads [now]. *)
Fixpoint poll_loop (fuel k : nat) (e : env) (deadline now : Z) : run :=
  match fuel with
  | O => OutOfFuel
  | S fuel' =>
      if reached (exit_at e) now then Finished (after_exit e now k)
      else if reached (cancel_at e) now then
        Finished (mkReport None true now k (Some Canceled))
      else if reached (submit_at e) now then
        Finished (mkReport None true now k (Some Submitted))
      else if deadline <? now then
        Finished (mkReport None true now k (Some TimedOut))
      else poll_loop fuel' (S k) e deadline (now + sleep_ms e k)
  end.

Definition transcribe_from_microphone (fuel : nat) (timeout_seconds : Z)
           (e : env) : run :=
  if launch_raises e then Finished (mkReport None false 0 0 (Some LaunchError))
  else poll_loop fuel 0 e (deadline_seconds timeout_seconds * 1000) 0.

(** Clock reading at the poll made after [k] completed sleeps. *)
Fixpoint clock (e : env) (k : nat) : Z :=
  match k with
  | O => 0
  | S k' => clock e k' + sleep_ms e k'
  end.

(** A poll at clock reading [now] ends the loop: the process has exited,
    or one of the three [return None] branches is taken. *)
Definition stops (e : env) (deadline now : Z) : bool :=
  reached (exit_at e) now || reached (cancel_at e) now
  || reached (submit_at e) now || (deadline <? now).

(** Number of loop iterations that always suffices when every sleep
    lasts at least its nominal 50 ms. *)
Definition enough_polls (timeout_seconds : Z) : nat :=
  Z.to_nat (deadline_seconds timeout_seconds * 1000 / 50) + 2.

(** A process that never exits, with nobody pressing a key. *)
Definition hanging : env :=
  mkEnv false None 0 "" None None (fun _ => 50).

(** A process that exits 20 ms after the 12 s deadline of an attempt with
    a 3 s timeout, between two polls. *)
Definition exits_after_deadline : env :=
  mkEnv false (Some 12020) 0 "what time is it" None None (fun _ => 50).
End Transcribe.

(* ------------------------------------------------------------------ *)
(** ** Chunked dictation: [_record_follow_up_question] *)

Module Recorder.
Local Open Scope string_scope.
Local Open Scope Z_scope.

(** What one call of [transcribe_from_microphone] looks like from the
    recording loop: the value it returned, how long it took, and which
    signals other threads set while it was in flight. *)
Record attempt : Type := mkAttempt {
  heard : option string;
  took_ms : Z;
  cancel_during : bool;
  submit_during : bool
}.

Record state : Type := mkState {
  task_cancel_event : bool;
  follow_up_submit_event : bool;
  elapsed_ms : Z;          (* time.time() - started_at *)
  timeouts : list Z        (* timeout_seconds of the attempts made so far *)
}.

Inductive outcome : Type :=
| Returned (r : option string)
| ScriptExhausted.

(** Code after the loop. *)
Definition finalize (chunks : list string) : option string :=
  match chunks with
  | [] => None
  | _ => Some (PyStr.join_spaces chunks)
  end.

(** [if chunk: text = chunk.strip(); if text: chunks.append(text)] *)
Definition accumulate (chunks : list string) (chunk : option string)
  : list string :=
  match chunk with
  | Some c =>
      if PyStr.truthy c then
        let text := PyStr.strip c in
        if PyStr.truthy text then chunks ++ [text] else chunks
      else chunks
  | None => chunks
  end.

Definition run_attempt (timeout : Z) (a : attempt) (st : state) : state :=
  mkState (task_cancel_event st || cancel_during a)
          (follow_up_submit_event st || submit_during a)
          (elapsed_ms st + took_ms a)
          (timeouts st ++ [timeout]).

(** The [while] loop, one script entry per call of
    [transcribe_from_microphone]. *)
Fixpoint record_loop (script : list attempt)
         (max_record_seconds chunk_seconds : Z)
         (chunks : list string) (st : state) : state * outcome :=
  if elapsed_ms st <? max_record_seconds * 1000 then
    if task_cancel_event st then (st, Returned None)
    else if follow_up_submit_event st then (st, Returned (finalize chunks))
    else
      match script with
      | [] => (st, ScriptExhausted)
      | a :: script' =>
          let remaining := max_record_seconds - Z.quot (elapsed_ms st) 1000 in
          let timeout := Z.max 1 (Z.min chunk_seconds remaining) in
          let st := run_attempt timeout a st in
          if task_cancel_event st then (st, Returned None)
          else
            let chunks := accumulate chunks (heard a) in
            if follow_up_submit_event st then (st, Returned (finalize chunks))
            else record_loop script' max_record_seconds chunk_seconds chunks st
      end
  else (st, Returned (finalize chunks)).

Definition record_follow_up_question (script : list attempt)
           (max_record_seconds chunk_seconds : Z) (st : state)
  : state * outcome :=
  record_loop script max_record_seconds chunk_seconds []
    (mkState (task_cancel_event st) (follow_up_submit_event st) 0 (timeouts st)).

(** An attempt that heard nothing while no signal was set; clock
    readings do not go backwards. *)
Definition silent (a : attempt) : bool :=
  match heard a with
  | None => negb (cancel_during a) && negb (submit_during a) && (0 <=? took_ms a)
  | Some _ => false
  end.

Definition total_ms (script : list attempt) : Z :=
  fold_right (fun a acc => took_ms a + acc) 0 script.

(** What [_handle_follow_up_query] makes of a recording: after the call
    it reads the cancellation token, here as the call left it, and
    prints "Follow-up canceled."; only then does it look at the returned
    value ("I could not understand the question. ..."). *)
Inductive verdict : Type :=
| SaysCanceled
| SaysNotUnderstood
| Asks (transcript : string).

Definition caller_verdict (r : state * outcome) : option verdict :=
  match snd r with
  | ScriptExhausted => None
  | Returned transcript =>
      Some (if task_cancel_event (fst r) then SaysCanceled
            else match transcript with
                 | Some t => if PyStr.truthy t then Asks t else SaysNotUnderstood
                 | None => SaysNotUnderstood
                 end)
  end.

Definition start : state := mkState false false 0 [].
Definition silence (ms : Z) : attempt := mkAttempt None ms false false.
Definition says (s : string) (ms : Z) : attempt := mkAttempt (Some s) ms false false.
End Recorder.

(* ------------------------------------------------------------------ *)
(** ** Orchestrator: [VisionAssistant] *)

Module App.
Local Open Scope string_scope.
Local Open Scope Z_scope.

(** Background threads started by the hot-key handlers.  The first
    three are the task sessions that run under [_capture_lock]. *)
Inductive thread : Type :=
| CaptureTask                (* target=self._capture_and_describe *)
| FollowUpTask               (* target=self._handle_follow_up_query *)
| NavigateTask (step : Z)    (* target=self._navigate_detail, args=(step,) *)
| SetApiKeyThread.           (* target=self._set_api_key_from_hotkey *)

Definition is_session (t : thread) : bool :=
  match t with
  | SetApiKeyThread => false
  | _ => true
  end.

Inductive output : Type :=
| Print (s : string)
| Beep (pattern : list (Z * Z))     (* play_beep_pattern *)
| AudioCue (alias : string)         (* play_audio_cue *)
| CancelTranscription               (* cancel_active_transcription() *)
| CancelQuery.                      (* cancel_active_query() *)

Record app : Type := mkApp {
  capture_lock : bool;                  (* self._capture_lock is held *)
  task_cancel_event : bool;
  active_task_name : option string;
  follow_up_listening_event : bool;
  follow_up_submit_event : bool;
  speech : Speech.state;
  cursor : Cursor.cursor;               (* guarded by self._state_lock *)
  api_key : option string;
  threads : list thread;                (* started and not yet finished *)
  console : list output
}.

(** State built by [__init__]. *)
Definition init (key : option string) : app :=
  mkApp false false None false false Speech.init Cursor.init key [] [].

Definition set_lock (b : bool) (s : app) : app :=
  mkApp b (task_cancel_event s) (active_task_name s)
        (follow_up_listening_event s) (follow_up_submit_event s)
        (speech s) (cursor s) (api_key s) (threads s) (console s).
Definition set_cancel (b : bool) (s : app) : app :=
  mkApp (capture_lock s) b (active_task_name s)
        (follow_up_listening_event s) (follow_up_submit_event s)
        (speech s) (cursor s) (api_key s) (threads s) (console s).
Definition set_active_task (n : option string) (s : app) : app :=
  mkApp (capture_lock s) (task_cancel_event s) n
        (follow_up_listening_event s) (follow_up_submit_event s)
        (speech s) (cursor s) (api_key s) (threads s) (console s).
Definition set_listening (b : bool) (s : app) : app :=
  mkApp (capture_lock s) (task_cancel_event s) (active_task_name s)
        b (follow_up_submit_event s)
        (speech s) (cursor s) (api_key s) (threads s) (console s).
Definition set_submit (b : bool) (s : app) : app :=
  mkApp (capture_lock s) (task_cancel_event s) (active_task_name s)
        (follow_up_listening_event s) b
        (speech s) (cursor s) (api_key s) (threads s) (console s).
Definition set_speech (sp : Speech.state) (s : app) : app :=
  mkApp (capture_lock s) (task_cancel_event s) (active_task_name s)
        (follow_up_listening_event s) (follow_up_submit_event s)
        sp (cursor s) (api_key s) (threads s) (console s).
Definition set_cursor (c : Cursor.cursor) (s : app) : app :=
  mkApp (capture_lock s) (task_cancel_event s) (active_task_name s)
        (follow_up_listening_event s) (follow_up_submit_event s)
        (speech s) c (api_key s) (threads s) (console s).
Definition set_api_key (k : option string) (s : app) : app :=
  mkApp (capture_lock s) (task_cancel_event s) (active_task_name s)
        (follow_up_listening_event s) (follow_up_submit_event s)
        (speech s) (cursor s) k (threads s) (console s).
Definition set_threads (l : list thread) (s : app) : app :=
  mkApp (capture_lock s) (task_cancel_event s) (active_task_name s)
        (follow_up_listening_event s) (follow_up_submit_event s)
        (speech s) (cursor s) (api_key s) l (console s).
Definition out (o : output) (s : app) : app :=
  mkApp (capture_lock s) (task_cancel_event s) (active_task_name s)
        (follow_up_listening_event s) (follow_up_submit_event s)
        (speech s) (cursor s) (api_key s) (threads s) (console s ++ [o]).

Definition start_thread (t : thread) (s : app) : app :=
  set_threads (threads s ++ [t]) s.

(** The task sessions that are running. *)
Definition sessions (s : app) : list thread := filter is_session (threads s).

Definition stop_current_speech (s : app) : app :=
  set_speech (Speech.stop_current_speech true (speech s)) s.
Definition clear_speech_stop_request (s : app) : app :=
  set_speech (Speech.clear_speech_stop_request (speech s)) s.

(** The cue played when admission is denied. *)
Definition rejection_cue : output := Beep [(420, 90); (380, 90)].

(** [release()] of a [threading.Lock]: an error when it is not held. *)
Definition release (s : app) : app * result unit :=
  if capture_lock s then (set_lock false s, Ok tt)
  else (s, Raise RuntimeError).

(** [finally] blocks of the three task bodies. *)
Definition task_finally (t : thread) (s : app) : app * result unit :=
  match t with
  | CaptureTask => release (set_active_task None s)
  | FollowUpTask =>
      release (set_active_task None (set_submit false (set_listening false s)))
  | NavigateTask _ => release s
  | SetApiKeyThread => (s, Ok tt)
  end.

Fixpoint remove_first (p : thread -> bool) (l : list thread) : list thread :=
  match l with
  | [] => []
  | t :: l' => if p t then l' else t :: remove_first p l'
  end.

(** Moves of the background threads that touch the control plane. *)
Inductive move : Type :=
| BeginListening    (* follow-up task: submit.clear(); listening.set() *)
| EndListening      (* follow-up task: listening.clear() after recording *)
| Say (env : nat -> Speech.iter_env) (text : string) (interrupt : bool)
      (repeat : Z)  (* a thread calls speak *)
| Exit              (* the session thread runs its finally block and ends *)
| HelperExit.       (* a set-api-key thread ends *)

Definition session_thread (s : app) : option thread := find is_session (threads s).

Definition do_move (m : move) (s : app) : app :=
  match m with
  | BeginListening =>
      match session_thread s with
      | Some FollowUpTask => set_listening true (set_submit false s)
      | _ => s
      end
  | EndListening =>
      match session_thread s with
      | Some FollowUpTask => set_listening false s
      | _ => s
      end
  | Say env text interrupt repeat =>
      set_speech (fst (Speech.speak env text interrupt repeat (speech s))) s
  | Exit =>
      match session_thread s with
      | Some t => set_threads (remove_first is_session (threads s))
                              (fst (task_finally t s))
      | None => s
      end
  | HelperExit =>
      set_threads (remove_first (fun t => negb (is_session t)) (threads s)) s
  end.

Definition do_moves (ms : list move) (s : app) : app :=
  fold_left (fun s m => do_move m s) ms s.

(** [self._capture_lock.acquire(timeout=0.8)]: the moves the other
    threads make while the handler waits are [wait]; the call succeeds
    when the lock is free at the end of them. *)
Definition acquire (wait : list move) (s : app) : app * bool :=
  let s := do_moves wait s in
  if capture_lock s then (s, false) else (set_lock true s, true).

Definition on_capture_hotkey (wait : list move) (s : app) : app :=
  let s := stop_current_speech s in
  let '(s, got) := acquire wait s in
  if negb got then
    out rejection_cue
      (out (Print "Capture already in progress. Press Ctrl+Shift+X to cancel it.") s)
  else
    let s := clear_speech_stop_request s in
    let s := set_cancel false s in
    let s := set_active_task (Some "capture") s in
    let s := out (Beep [(740, 60); (900, 70)]) s in
    let s := out (Print "Hotkey detected: capturing screen...") s in
    start_thread CaptureTask s.

Definition on_follow_up_hotkey (wait : list move) (s : app) : app :=
  if follow_up_listening_event s then
    let s := set_submit true s in
    let s := out CancelTranscription s in
    let s := out (Print "Stopping recording and sending your follow-up question...") s in
    out (AudioCue "SystemAsterisk") s
  else
    let s := stop_current_speech s in
    let '(s, got) := acquire wait s in
    if negb got then
      out rejection_cue
        (out (Print "Capture already in progress. Press Ctrl+Shift+X to cancel it.") s)
    else
      let s := clear_speech_stop_request s in
      let s := set_cancel false s in
      let s := set_active_task (Some "follow-up") s in
      let s := set_submit false s in
      let s := out (Beep [(760, 60); (1040, 80)]) s in
      let s := out (Print "Follow-up hotkey detected: preparing voice recording...") s in
      start_thread FollowUpTask s.

Definition on_stop_speaking_hotkey (s : app) : app :=
  let s := stop_current_speech s in
  let s := out (Print "Speech stopped. You can trigger the next action now.") s in
  out (Beep [(500, 70); (420, 90)]) s.

(** [str.capitalize] on the two task names. *)
Definition capitalize (n : string) : string :=
  if String.eqb n "capture" then "Capture"
  else if String.eqb n "follow-up" then "Follow-up" else n.

Definition on_cancel_task_hotkey (s : app) : app :=
  let active_task := active_task_name s in
  let s := set_cancel true s in
  let s := set_submit true s in
  let s := set_listening false s in
  let s := out CancelTranscription s in
  let s := out CancelQuery s in
  let s := stop_current_speech s in
  let s :=
    match active_task with
    | Some n => out (Print (capitalize n ++ " task canceled. Ready for next command.")) s
    | None => out (Print "No capture task was running. Speech was stopped.") s
    end in
  out (Beep [(460, 70); (390, 90); (320, 110)]) s.

Definition on_set_api_key_hotkey (s : app) : app :=
  let s := stop_current_speech s in
  let s := clear_speech_stop_request s in
  start_thread SetApiKeyThread s.

Definition on_detail_hotkey (step : Z) (wait : list move) (s : app) : app :=
  let s := stop_current_speech s in
  let '(s, got) := acquire wait s in
  if negb got then
    out rejection_cue (out (Print "Action still in progress. Please try again.") s)
  else
    let s := clear_speech_stop_request s in
    start_thread (NavigateTask step) s.

Definition on_next_detail_hotkey := on_detail_hotkey 1.
Definition on_previous_detail_hotkey := on_detail_hotkey (-1).

(** Hot-keys registered by [__init__], shutdown excepted: it ends the
    process. *)
Inductive hotkey : Type :=
| KCapture          (* ctrl+m *)
| KFollowUp         (* ctrl+n *)
| KStopSpeaking     (* ctrl+shift+s *)
| KCancelTask       (* ctrl+shift+x *)
| KSetApiKey        (* ctrl+alt+k *)
| KNextDetail       (* ctrl+right, ctrl+down *)
| KPreviousDetail.  (* ctrl+left, ctrl+up *)

(** Does the handler try to open a task session? *)
Definition requests_session (k : hotkey) : bool :=
  match k with
  | KCapture | KFollowUp | KNextDetail | KPreviousDetail => true
  | _ => false
  end.

Definition handle (k : hotkey) (wait : list move) (s : app) : app :=
  match k with
  | KCapture => on_capture_hotkey wait s
  | KFollowUp => on_follow_up_hotkey wait s
  | KStopSpeaking => on_stop_speaking_hotkey s
  | KCancelTask => on_cancel_task_hotkey s
  | KSetApiKey => on_set_api_key_hotkey s
  | KNextDetail => on_next_detail_hotkey wait s
  | KPreviousDetail => on_previous_detail_hotkey wait s
  end.

(** One step of the process: the keyboard thread runs a handler to its
    end (with [wait] happening while it waits for the gate), or a
    background thread makes a move. *)
Inductive event : Type :=
| Key (k : hotkey) (wait : list move)
| Move (m : move).

Definition step (e : event) (s : app) : app :=
  match e with
  | Key k wait => handle k wait s
  | Move m => do_move m s
  end.

Definition run (es : list event) (s : app) : app :=
  fold_left (fun s e => step e s) es s.

(** An event during which the running session does not end. *)
Definition is_exit (m : move) : bool :=
  match m with
  | Exit => true
  | _ => false
  end.

Definition within_session (e : event) : bool :=
  match e with
  | Key _ wait => negb (existsb is_exit wait)
  | Move m => negb (is_exit m)
  end.

(** A press of the cancel hot-key, the one event of the process that
    sets the cancellation token. *)
Definition is_cancel_press (e : event) : bool :=
  match e with
  | Key KCancelTask _ => true
  | _ => false
  end.

(** The handler of [k] tries to acquire the gate in state [s]. *)
Definition attempts_admission (k : hotkey) (s : app) : bool :=
  match k with
  | KFollowUp => negb (follow_up_listening_event s)
  | _ => requests_session k
  end.

(** The state in which the acquire of a handler is decided. *)
Definition after_wait (wait : list move) (s : app) : app :=
  do_moves wait (stop_current_speech s).

Definition submit_message : string :=
  "Stopping recording and sending your follow-up question...".

(** The gate and the running sessions agree: the lock is held exactly
    when one session thread exists, and there is never more than one. *)
Definition single_flight (s : app) : Prop :=
  (capture_lock s = true /\ exists t, sessions s = [t])
  \/ (capture_lock s = false /\ sessions s = []).
End App.

(* ------------------------------------------------------------------ *)
(** ** Task bodies: [_capture_and_describe], [_handle_follow_up_query],
       [_navigate_detail] *)

Module Tasks.
Import App.
Local Open Scope string_scope.
Local Open Scope Z_scope.

(** How a block of statements ends: it falls through with a value, it
    executes [return], or it raises. *)
Inductive completion (A : Type) : Type :=
| Next (a : A)
| Returned
| Raised (e : exn).
Arguments Next {A} a.
Arguments Returned {A}.
Arguments Raised {A} e.

Definition M (A : Type) : Type := app -> app * completion A.

Definition ret {A} (a : A) : M A := fun s => (s, Next a).
Definition bind {A B} (m : M A) (f : A -> M B) : M B :=
  fun s =>
    match m s with
    | (s', Next a) => f a s'
    | (s', Returned) => (s', Returned)
    | (s', Raised e) => (s', Raised e)
    end.
Definition return_ {A} : M A := fun s => (s, Returned).
Definition raise {A} (e : exn) : M A := fun s => (s, Raised e).
Definition get {A} (f : app -> A) : M A := fun s => (s, Next (f s)).
Definition modify (f : app -> app) : M unit := fun s => (f s, Next tt).

Notation "x <- m ;; k" := (bind m (fun x => k))
  (at level 61, m at next level, right associativity).
Notation "m ;; k" := (bind m (fun _ => k))
  (at level 61, right associativity).

(** [try: body finally: fin].  The [finally] block runs however the
    body ended; an exception of the [finally] block replaces the
    completion of the body. *)
Definition try_finally (body : M unit) (fin : app -> app * result unit)
  : M unit :=
  fun s =>
    let '(s1, c) := body s in
    match fin s1 with
    | (s2, Ok _) => (s2, c)
    | (s2, Raise e) => (s2, Raised e)
    end.

(** Environment of one run of a task body. *)
Record env : Type := mkEnv {
  ensure_key : result (option string);
    (* _ensure_api_key_configured: the key it stores, or its exception *)
  screenshot_error : option string;
    (* text of the exception of pyautogui.screenshot(), if it raises *)
  model_reply : string;            (* text returned by the model *)
  recorded : option string;        (* value of _record_follow_up_question *)
  keys : nat -> list hotkey;
    (* hot-keys handled while the k-th blocking call is in flight *)
  voices : nat -> nat -> Speech.iter_env
    (* speech environment of the k-th blocking call *)
}.

Definition press (s : app) (k : hotkey) : app := handle k [] s.

(** The task blocks in its [k]-th external call; the keyboard thread
    handles the hot-keys pressed meanwhile. *)
Definition blocking (e : env) (k : nat) : M unit :=
  modify (fun s => fold_left press (keys e k) s).

Definition cancelled : M bool := get task_cancel_event.
Definition print (t : string) : M unit := modify (out (Print t)).
Definition beep (p : list (Z * Z)) : M unit := modify (out (Beep p)).
Definition cue (a : string) : M unit := modify (out (AudioCue a)).

Definition say (e : env) (k : nat) (text : string) (interrupt : bool) : M unit :=
  blocking e k ;;
  fun s =>
    match Speech.speak (voices e k) text interrupt 1 (speech s) with
    | (sp, Ok _) => (set_speech sp s, Next tt)
    | (sp, Raise x) => (set_speech sp s, Raised x)
    end.

(** Truth value of an optional string ([None] and [""] are false). *)
Definition has_key (k : option string) : bool :=
  match k with
  | Some t => PyStr.truthy t
  | None => false
  end.

Definition ensure_api_key_configured (e : env) (k : nat) : M unit :=
  blocking e k ;;
  match ensure_key e with
  | Ok (Some key) => modify (set_api_key (Some key))
  | Ok None => ret tt
  | Raise x => raise x
  end.

Definition key_missing_message : string :=
  "API key is still missing. Please provide it when prompted, or update config.json and try again.".

(** [if not self.api_key: ...] at the head of both long tasks; uses the
    blocking calls [k] and [k+1]. *)
Definition require_api_key (e : env) (k : nat) : M unit :=
  key <- get api_key ;;
  if has_key key then ret tt
  else
    ensure_api_key_configured e k ;;
    key <- get api_key ;;
    if has_key key then ret tt
    else
      say e (S k) key_missing_message false ;;
      print key_missing_message ;;
      beep [(420, 90); (380, 90); (340, 90)] ;;
      return_.

(** [_capture_screenshot_bytes]: [true] when bytes were captured. *)
Definition capture_screenshot_bytes (e : env) (k : nat) : M bool :=
  blocking e k ;;
  match screenshot_error e with
  | None => ret true
  | Some exc =>
      say e (S k) ("Failed to take screenshot: " ++ exc) false ;;
      print ("Failed to take screenshot: " ++ exc) ;;
      beep [(420, 90); (380, 90); (340, 90)] ;;
      ret false
  end.

(** [query_screenshot] / [describe_screenshot]: the reply, or the
    sentinel when cancellation was requested meanwhile. *)
Definition query_screenshot (e : env) (k : nat) : M string :=
  blocking e k ;;
  c <- cancelled ;;
  ret (if c then "Request canceled."
       else PyStr.str_or (PyStr.strip (model_reply e)) "No description returned.").

(** [if self._task_cancel_event.is_set(): print(msg); return] *)
Definition stop_if_cancelled (msg : option string) : M unit :=
  c <- cancelled ;;
  if c then
    match msg with
    | Some t => print t ;; return_
    | None => return_
    end
  else ret tt.

Definition capture_try (e : env) : M unit :=
  stop_if_cancelled None ;;
  require_api_key e 0 ;;
  stop_if_cancelled (Some "Capture canceled.") ;;
  img <- capture_screenshot_bytes e 2 ;;
  if negb img then return_
  else
    stop_if_cancelled (Some "Capture canceled.") ;;
    beep [(1100, 70)] ;;
    print "Analyzing screenshot. Please wait..." ;;
    description <- query_screenshot e 4 ;;
    stop_if_cancelled (Some "Capture canceled.") ;;
    print ("Gemini description: " ++ description) ;;
    modify (fun s => set_cursor (Cursor.store_description_details description (cursor s)) s) ;;
    print "Speaking summary now..." ;;
    beep [(1250, 90); (1500, 120)] ;;
    say e 5 "Summary is ready." true ;;
    say e 6 ("Summary. " ++ Text.build_summary description) false ;;
    say e 7 ("Press control plus right arrow for next detail. "
               ++ "Press control plus left arrow for previous detail.") false.

Definition not_understood : string :=
  "I could not understand the question. Please press control plus N and try again.".

Definition follow_up_prompt (transcript : string) : string :=
  "You are assisting a blind user. "
    ++ "Answer the user's question using only this screenshot. "
    ++ "Be clear, concise, and practical. "
    ++ "User question: " ++ transcript.

Definition follow_up_try (e : env) : M unit :=
  stop_if_cancelled None ;;
  require_api_key e 0 ;;
  say e 2 ("Recording mode. Ask your follow-up question after the beep. "
             ++ "Press control plus N again to send immediately.") false ;;
  stop_if_cancelled (Some "Follow-up canceled.") ;;
  print "Follow-up recording started. Speak now, then press Ctrl+N to send." ;;
  modify (set_submit false) ;;
  modify (set_listening true) ;;
  cue "SystemExclamation" ;;
  blocking e 3 ;;
  modify (set_listening false) ;;
  cue "SystemAsterisk" ;;
  stop_if_cancelled (Some "Follow-up canceled.") ;;
  if negb (has_key (recorded e)) then
    print not_understood ;;
    say e 4 not_understood false ;;
    beep [(420, 90); (380, 90)] ;;
    return_
  else
    let transcript := match recorded e with Some t => t | None => "" end in
    print ("Follow-up question: " ++ transcript) ;;
    stop_if_cancelled (Some "Follow-up canceled.") ;;
    img <- capture_screenshot_bytes e 5 ;;
    if negb img then return_
    else
      stop_if_cancelled (Some "Follow-up canceled.") ;;
      beep [(1100, 70)] ;;
      print "Analyzing follow-up question. Please wait..." ;;
      answer <- query_screenshot e 7 ;;
      stop_if_cancelled (Some "Follow-up canceled.") ;;
      print ("Follow-up answer: " ++ answer) ;;
      beep [(1250, 90); (1500, 120)] ;;
      say e 8 answer true.

Definition navigate_try (step : Z) (e : env) : M unit :=
  message <- (fun s =>
                let '(c, r) := Cursor.navigate_detail step (cursor s) in
                match r with
                | Ok m => (set_cursor c s, Next m)
                | Raise x => (set_cursor c s, Raised x)
                end) ;;
  print message ;;
  say e 0 message false.

Definition body (t : thread) (e : env) : M unit :=
  match t with
  | CaptureTask => capture_try e
  | FollowUpTask => follow_up_try e
  | NavigateTask step => navigate_try step e
  | SetApiKeyThread => ret tt
  end.

(** A session thread from its first statement to its end. *)
Definition run_thread (t : thread) (e : env) (s : app) : app * completion unit :=
  let '(s', c) := try_finally (body t e) (task_finally t) s in
  (set_threads (remove_first is_session (threads s')) s', c).

(** A quiet environment: nothing fails and no key is pressed. *)
Definition quiet (reply : string) : env :=
  mkEnv (Ok None) None reply None (fun _ => []) (fun _ _ => Speech.all_ok).

(** Capture hot-key followed by the whole capture task. *)
Definition capture_session (e : env) (s : app) : app :=
  fst (run_thread CaptureTask e (on_capture_hotkey [] s)).

(** Next-detail hot-key followed by the whole navigation task. *)
Definition next_detail_session (s : app) : app :=
  fst (run_thread (NavigateTask 1) (quiet "") (on_next_detail_hotkey [] s)).

(** What the speech pipeline rendered so far. *)
Definition narrated (s : app) : list string :=
  Speech.spoken (Speech.log (speech s)).

(** The model response of the end-to-end scenario. *)
Definition three_sentences : string := "First part. Second part. Third part.".

Definition navigation_hint : string :=
  "Press control plus right arrow for next detail. "
    ++ "Press control plus left arrow for previous detail.".

(** The stop-speech hot-key is pressed while the model is queried. *)
Definition stop_pressed_during_query (reply : string) : env :=
  mkEnv (Ok None) None reply None
        (fun k => if Nat.eqb k 4 then [KStopSpeaking] else [])
        (fun _ _ => Speech.all_ok).

(** The running session owns the gate. *)
Definition held (s : app) : Prop := single_flight s /\ capture_lock s = true.

(** A block of statements keeps the gate with the running session,
    however it ends. *)
Definition keeps_gate {A} (m : M A) : Prop := forall s, held s -> held (fst (m s)).
End Tasks.

(* ------------------------------------------------------------------ *)
(** ** Shapes of strings *)

Module Shape.
Local Open Scope string_scope.

(** Every character of the string satisfies [p]. *)
Fixpoint all_chars (p : ascii -> bool) (s : string) : bool :=
  match s with
  | EmptyString => true
  | String c s' => p c && all_chars p s'
  end.

(** A character that text-to-speech input may hold after normalization:
    no markup character, and no whitespace other than the blank. *)
Definition speakable (c : ascii) : bool :=
  negb (PyStr.is_markup c) && (negb (PyStr.isspace c) || Ascii.eqb c " "%char).

Definition starts_with_blank (s : string) : bool :=
  match s with
  | String c _ => Ascii.eqb c " "%char
  | EmptyString => false
  end.

(** No two adjacent blanks. *)
Fixpoint single_spaced (s : string) : bool :=
  match s with
  | EmptyString => true
  | String c s' =>
      negb (Ascii.eqb c " "%char && starts_with_blank s') && single_spaced s'
  end.
End Shape.

(* ------------------------------------------------------------------ *)
(** ** Agreement of the control-plane fields *)

Module Invariants.
Import App Tasks.
Local Open Scope string_scope.

(** The name [_set_active_task] is given when a thread is started. *)
Definition name_of (t : thread) : option string :=
  match t with
  | CaptureTask => Some "capture"
  | FollowUpTask => Some "follow-up"
  | NavigateTask _ => None
  | SetApiKeyThread => None
  end.

(** The task name tracked for cancellation feedback is the name of the
    running session. *)
Definition names_session (s : app) : Prop :=
  active_task_name s
  = match sessions s with
    | t :: _ => name_of t
    | [] => None
    end.

(** The listening flag is set only while the follow-up session runs. *)
Definition listening_in_follow_up (s : app) : Prop :=
  follow_up_listening_event s = true -> sessions s = [FollowUpTask].

Definition coherent (s : app) : Prop :=
  single_flight s /\ names_session s /\ listening_in_follow_up s.

(** The line the cancel hot-key prints, by the running sessions. *)
Definition cancel_notice (running : list thread) : string :=
  match running with
  | CaptureTask :: _ => "Capture task canceled. Ready for next command."
  | FollowUpTask :: _ => "Follow-up task canceled. Ready for next command."
  | _ => "No capture task was running. Speech was stopped."
  end.

(** A block of statements that leaves the detail cursor alone and keeps
    the gate with the running session. *)
Definition quiet_on_cursor {A} (m : M A) : Prop :=
  forall s, held s -> held (fst (m s)) /\ cursor (fst (m s)) = cursor s.
End Invariants.

(* ------------------------------------------------------------------ *)
(** ** Stored credential: [encrypt_api_key], [decrypt_api_key],
       [get_api_key], [set_api_key], [save_config] *)

Module Config.
Local Open Scope string_scope.

(** The configuration dict; the values of the three fields the code
    reads are strings. *)
Definition conf : Type := list (string * string).

(** [conf.get(k)] *)
Fixpoint get (c : conf) (k : string) : option string :=
  match c with
  | [] => None
  | (k', v) :: c' => if String.eqb k k' then Some v else get c' k
  end.

(** [conf[k] = v] *)
Fixpoint set (k v : string) (c : conf) : conf :=
  match c with
  | [] => [(k, v)]
  | (k', v') :: c' =>
      if String.eqb k k' then (k, v) :: c' else (k', v') :: set k v c'
  end.

(** Truth value of [conf.get(k)]: present and not empty. *)
Definition present (v : option string) : bool :=
  match v with
  | Some t => PyStr.truthy t
  | None => false
  end.

Definition value (v : option string) : string :=
  match v with
  | Some t => t
  | None => ""
  end.

(** What the configuration file holds: the JSON text of a dict, or the
    beginning of that text, left by a write that failed after the file
    had been opened ([open(CONFIG_PATH, 'w')] truncates the file). *)
Inductive file : Type :=
| Whole (c : conf)
| Torn (c : conf).

(** How one write goes: to its end, or [open] raises, or [json.dump] (or
    closing the file) raises. *)
Inductive write : Type :=
| Written
| OpenFails
| DumpFails.

(** [save_config]: [with open(CONFIG_PATH, 'w') as f: json.dump(conf, f)].
    When [open] raises the file is as it was; when the write raises after
    that, the file holds the beginning of the new text. *)
Definition save_config (w : write) (c : conf) (disk : option file)
  : option file * result unit :=
  match w with
  | Written => (Some (Whole c), Ok tt)
  | OpenFails => (disk, Raise OSError)
  | DumpFails => (Some (Torn c), Raise OSError)
  end.

Section Fernet.
(** [Fernet(key).encrypt(text)] and [Fernet(key).decrypt(token)], both on
    text; decryption raises on a malformed key or a token that does not
    verify. *)
Variable encrypt : string -> string -> string.
Variable decrypt : string -> string -> result string.

(** [fresh_key] is the value of [Fernet.generate_key()]. *)
Definition encrypt_api_key (fresh_key api_key : string) : string * string :=
  (encrypt fresh_key api_key, fresh_key).

Definition decrypt_api_key (encrypted_key fernet_key : string) : result string :=
  decrypt fernet_key encrypted_key.

Definition get_api_key (fresh_key : string) (w : write)
           (c : conf) (disk : option file)
  : conf * option file * result (option string) :=
  let encrypted := get c "encrypted_key" in
  let enc_key := get c "encryption_key" in
  let plain := get c "api_key" in
  if present encrypted && present enc_key then
    match decrypt_api_key (value encrypted) (value enc_key) with
    | Ok p => (c, disk, Ok (Some p))
    | Raise _ => (c, disk, Ok None)
    end
  else if present plain then
    let '(encrypted_key, key) := encrypt_api_key fresh_key (value plain) in
    let c := set "encrypted_key" encrypted_key c in
    let c := set "encryption_key" key c in
    let c := set "api_key" "" c in
    match save_config w c disk with
    | (disk, Raise x) => (c, disk, Raise x)
    | (disk, Ok _) =>
        match decrypt_api_key encrypted_key key with
        | Ok p => (c, disk, Ok (Some p))
        | Raise x => (c, disk, Raise x)
        end
    end
  else (c, disk, Ok None).

Definition set_api_key (fresh_key : string) (w : write)
           (api_key : string) (c : conf) (disk : option file)
  : conf * option file * option string :=
  let cleaned_key := PyStr.strip api_key in
  if negb (PyStr.truthy cleaned_key) then (c, disk, None)
  else
    let '(encrypted_key, key) := encrypt_api_key fresh_key cleaned_key in
    let c := set "api_key" "" c in
    let c := set "encrypted_key" encrypted_key c in
    let c := set "encryption_key" key c in
    match save_config w c disk with
    | (disk, Ok _) => (c, disk, Some cleaned_key)
    | (disk, Raise _) => (c, disk, None)
    end.
End Fernet.

(** A stand-in cipher for examples: the token is the text behind a tag. *)
Definition toy_encrypt (key text : string) : string := "tok:" ++ text.
Definition toy_decrypt (key token : string) : result string :=
  if String.prefix "tok:" token
  then Ok (String.substring 4 (String.length token - 4) token)
  else Raise RuntimeError.
End Config.

(* ------------------------------------------------------------------ *)
(** ** Model query: [query_screenshot] *)

Module Query.
Local Open Scope string_scope.

(** Environment of one call: whether creating the client raises and
    whether cancellation was requested meanwhile, the streamed chunks
    ([chunk.text], and whether cancellation was requested while the call
    waited for the chunk), the text of the exception that ends the stream
    if one does, whether cancellation was requested while the call waited
    for the end of the stream, and whether it was requested after the
    last time the call read the token, before it returned. *)
Record env : Type := mkEnv {
  client_raises : bool;
  cancel_at_client : bool;
  chunks : list (option string * bool);
  stream_error : option string;
  cancel_at_end : bool;
  cancel_at_return : bool
}.

Record outcome : Type := mkOutcome {
  answer : string;
  cancel_after : bool;      (* cancel_event when the call returns *)
  client_created : bool;
  client_closed : bool;     (* client.close() in the finally block *)
  slot_cleared : bool       (* _active_client is None again *)
}.

Definition canceled : string := "Request canceled.".

(** The [for chunk in ...] loop: the token afterwards, and the response
    accumulated if the loop ran to its end. *)
Fixpoint consume (cs : list (option string * bool)) (cancel : bool)
         (response_text : string) : bool * option string :=
  match cs with
  | [] => (cancel, Some response_text)
  | (text, pressed) :: cs' =>
      let cancel := cancel || pressed in
      if cancel then (cancel, None)
      else consume cs' cancel (response_text ++ Config.value text)
  end.

(** The token is read at entry, at every chunk, and once more after the
    stream (or in the exception handler); the path on which the client
    cannot be created does not read it again. *)
Definition query_screenshot (cancel : bool) (e : env) : outcome :=
  if cancel then mkOutcome canceled cancel false false true
  else
    let cancel := cancel || cancel_at_client e in
    if client_raises e then
      mkOutcome "Failed to initialise the Gemini client."
                (cancel || cancel_at_return e) false false true
    else
      match consume (chunks e) cancel "" with
      | (cancel, None) => mkOutcome canceled cancel true true true
      | (cancel, Some response_text) =>
          let cancel := cancel || cancel_at_end e in
          let text :=
            match stream_error e with
            | Some exc =>
                if cancel then canceled else "Error describing image: " ++ exc
            | None =>
                if cancel then canceled
                else PyStr.str_or (PyStr.strip response_text) "No description returned."
            end in
          mkOutcome text (cancel || cancel_at_return e) true true true
      end.

(** The texts of the chunks in the order they arrive. *)
Definition streamed (e : env) : string :=
  String.concat "" (map (fun c => Config.value (fst c)) (chunks e)).

(** Cancellation is requested in time for one of the reads the call
    makes while it streams. *)
Definition seen_in_stream (e : env) : bool :=
  cancel_at_client e || existsb snd (chunks e) || cancel_at_end e.

(** Nobody asks for cancellation during the call. *)
Definition undisturbed (e : env) : bool :=
  negb (seen_in_stream e) && negb (cancel_at_return e).
End Query.

(* ------------------------------------------------------------------ *)
(** ** Credential prompt: [prompt_for_api_key] *)

Module Prompt.
Local Open Scope string_scope.

(** Environment: whether standard input is a terminal (or asking raises),
    what [getpass.getpass] and [input] return, and what the dialog
    returns ([None] when it is dismissed). *)
Record env : Type := mkEnv {
  stdin_isatty : result bool;
  getpass : result string;
  input : result string;
  dialog : result (option string)
}.

(** [key or None] *)
Definition key_or_none (key : string) : option string :=
  if PyStr.truthy key then Some key else None.

(** The console branch: [Some r] when it returns [r], [None] when the
    function goes on to the dialog. *)
Definition from_console (e : env) : option (option string) :=
  match stdin_isatty e with
  | Ok true =>
      match getpass e with
      | Ok k => Some (key_or_none (PyStr.strip k))
      | Raise _ =>
          match input e with
          | Ok k => Some (key_or_none (PyStr.strip k))
          | Raise _ => None
          end
      end
  | _ => None
  end.

(** The returned key, and whether the dialog was opened. *)
Definition prompt_for_api_key (e : env) : option string * bool :=
  match from_console e with
  | Some r => (r, false)
  | None =>
      match dialog e with
      | Ok (Some k) =>
          if PyStr.truthy k then (key_or_none (PyStr.strip k), true) else (None, true)
      | _ => (None, true)
      end
  end.
End Prompt.

(* ------------------------------------------------------------------ *)
(** ** Shutdown: [VisionAssistant.stop] *)

Module Shutdown.
Import App.
Local Open Scope string_scope.

Record process : Type := mkProcess {
  state : app;
  running : bool;          (* self.running *)
  hotkeys_hooked : bool;   (* until keyboard.unhook_all_hotkeys() *)
  exited : bool            (* os._exit(0) was reached *)
}.

Definition start (s : app) : process := mkProcess s true true false.

Definition farewell : string := "Exiting Vision Assistance App. Goodbye.".

Definition stop (speak_farewell force_exit : bool) (voice : nat -> Speech.iter_env)
           (p : process) : process * result unit :=
  if negb (running p) then (p, Ok tt)
  else
    let s := state p in
    let s := set_cancel true s in
    let s := set_submit true s in
    let s := set_listening false s in
    let s := out CancelTranscription s in
    let s := out CancelQuery s in
    let s := set_active_task None s in
    if speak_farewell then
      let s := stop_current_speech s in
      let s := clear_speech_stop_request s in
      match Speech.speak voice farewell false 1 (speech s) with
      | (sp, Ok _) => (mkProcess (set_speech sp s) false false force_exit, Ok tt)
      | (sp, Raise x) => (mkProcess (set_speech sp s) false false false, Raise x)
      end
    else (mkProcess s false false force_exit, Ok tt).
End Shutdown.

(* ================================================================== *)
(** * Properties *)

(* ------------------------------------------------------------------ *)
(** ** Detail cursor *)

Module CursorProofs.
Import PyStr Cursor.
Local Open Scope string_scope.
Local Open Scope Z_scope.

Lemma getitem_in_range :
  forall (A : Type) (l : list A) (i : Z),
    0 <= i < Z.of_nat (List.length l) ->
    exists d, nth_error l (Z.to_nat i) = Some d /\ getitem l i = Ok d.
Proof.
  intros A l i Hi. unfold getitem.
  destruct (Z.ltb_spec i 0) as [Hneg | _]; [lia |].
  destruct (Z.leb_spec 0 i) as [_ | Hneg]; [| lia].
  destruct (Z.ltb_spec i (Z.of_nat (List.length l))) as [_ | Hbig]; [| lia].
  simpl. destruct (nth_error l (Z.to_nat i)) as [d |] eqn:Hnth.
  - exists d. split; reflexivity.
  - apply nth_error_None in Hnth. lia.
Qed.

Lemma next_index_first :
  forall n, next_index 1 n (-1) = 0 /\ next_index (-1) n (-1) = n - 1.
Proof. intros n. split; reflexivity. Qed.

Lemma next_index_forward :
  forall n i, i <> -1 -> -1 <= i <= n - 1 -> next_index 1 n i = Z.min (i + 1) (n - 1).
Proof.
  intros n i Hi Hr. unfold next_index.
  destruct (Z.eqb_spec i (-1)); [contradiction |].
  change (0 <? 1) with true. cbn [andb].
  destruct (Z.ltb_spec i (n - 1)); [lia |].
  change (1 <? 0) with false. cbn [andb]. lia.
Qed.

Lemma next_index_backward :
  forall n i, i <> -1 -> -1 <= i <= n - 1 -> next_index (-1) n i = Z.max (i - 1) 0.
Proof.
  intros n i Hi Hr. unfold next_index.
  destruct (Z.eqb_spec i (-1)); [contradiction |].
  change (0 <? -1) with false. change (-1 <? 0) with true. cbn [andb].
  destruct (Z.ltb_spec 0 i); lia.
Qed.

Lemma next_index_in_range :
  forall step n i, 0 < n -> -1 <= i <= n - 1 -> 0 <= next_index step n i <= n - 1.
Proof.
  intros step n i Hn Hr. unfold next_index.
  destruct (Z.eqb_spec i (-1)).
  - destruct (0 <? step); lia.
  - destruct (Z.ltb_spec 0 step), (Z.ltb_spec i (n - 1)), (Z.ltb_spec step 0),
      (Z.ltb_spec 0 i); cbn [andb]; lia.
Qed.

Lemma len_pos : forall c, description_sections c <> [] -> 0 < len c.
Proof.
  intros c Hne. unfold len. destruct (description_sections c); [contradiction |].
  cbn [List.length]. lia.
Qed.

(** What one navigation step does on a well-formed, loaded cursor. *)
Lemma navigate_detail_loaded :
  forall step c,
    description_sections c <> [] -> wf c ->
    let j := next_index step (len c) (current_detail_index c) in
    exists d,
      nth_error (description_sections c) (Z.to_nat j) = Some d /\
      navigate_detail step c =
        (mkCursor (description_sections c) j,
         Ok ("Detail " ++ str_of_int (j + 1) ++ " of " ++ str_of_int (len c)
               ++ ". " ++ d)).
Proof.
  intros step c Hne Hwf j.
  pose proof (len_pos c Hne) as Hpos.
  pose proof (next_index_in_range step (len c) (current_detail_index c) Hpos Hwf) as Hj.
  fold j in Hj.
  destruct (getitem_in_range string (description_sections c) j) as [d [Hnth Hget]].
  { unfold len in Hj. lia. }
  exists d. split; [exact Hnth |].
  unfold navigate_detail. fold j.
  destruct (description_sections c) as [| x xs] eqn:Hs; [contradiction |].
  rewrite Hget. reflexivity.
Qed.

Lemma navigate_detail_wf :
  forall step c,
    description_sections c <> [] -> wf c ->
    description_sections (fst (navigate_detail step c)) = description_sections c
    /\ wf (fst (navigate_detail step c)).
Proof.
  intros step c Hne Hwf.
  destruct (navigate_detail_loaded step c Hne Hwf) as [d [_ Heq]].
  rewrite Heq. cbn [fst description_sections]. split; [reflexivity |].
  unfold wf, len. cbn [description_sections current_detail_index].
  pose proof (next_index_in_range step (len c) (current_detail_index c)
                (len_pos c Hne) Hwf) as Hr.
  unfold len in Hr. lia.
Qed.

Lemma store_loaded :
  forall text c0,
    current_detail_index (store_description_details text c0) = -1
    /\ description_sections (store_description_details text c0) <> [].
Proof.
  intros text c0. unfold store_description_details.
  cbn [current_detail_index description_sections]. split; [reflexivity |].
  destruct (Text.sentence_parts (Text.normalize_for_speech text)); discriminate.
Qed.

(** Every cursor reached from a load by navigation steps is well formed
    and still holds the loaded sections. *)
Lemma navigate_many_wf :
  forall steps c,
    description_sections c <> [] -> wf c ->
    description_sections (navigate_many steps c) = description_sections c
    /\ wf (navigate_many steps c).
Proof.
  induction steps as [| st steps IH]; intros c Hne Hwf.
  - split; [reflexivity | exact Hwf].
  - cbn [navigate_many].
    destruct (navigate_detail_wf st c Hne Hwf) as [Hs Hw].
    destruct (IH (fst (navigate_detail st c))) as [Hs' Hw'].
    + rewrite Hs. exact Hne.
    + exact Hw.
    + split; [congruence | exact Hw'].
Qed.

(** C8. Detail cursor stepping policy.  On a loaded (non-empty) section
    list whose index lies in [-1, len-1]: from index -1 a forward step
    selects section 0 and a backward step the last section; from any
    other index a forward step moves to min(i+1, len-1) and a backward
    step to max(i-1, 0), so that the index is unchanged at either
    boundary; every step returns the message of the selected section
    without raising, keeps the index within [0, len-1] and keeps the
    sections; every load sets the index to -1 and stores a non-empty
    list. *)
Theorem detail_cursor_stepping :
  forall c : cursor,
    description_sections c <> [] -> wf c ->
    let n := len c in
    let i := current_detail_index c in
    (i = -1 ->
       current_detail_index (fst (navigate_detail 1 c)) = 0
       /\ current_detail_index (fst (navigate_detail (-1) c)) = n - 1)
    /\ (i <> -1 ->
        current_detail_index (fst (navigate_detail 1 c)) = Z.min (i + 1) (n - 1)
        /\ current_detail_index (fst (navigate_detail (-1) c)) = Z.max (i - 1) 0)
    /\ (i = n - 1 -> current_detail_index (fst (navigate_detail 1 c)) = i)
    /\ (i = 0 -> current_detail_index (fst (navigate_detail (-1) c)) = i)
    /\ (forall dir, dir = 1 \/ dir = -1 ->
          let r := navigate_detail dir c in
          let j := current_detail_index (fst r) in
          0 <= j <= n - 1
          /\ description_sections (fst r) = description_sections c
          /\ wf (fst r)
          /\ exists d,
              nth_error (description_sections c) (Z.to_nat j) = Some d
              /\ snd r = Ok ("Detail " ++ str_of_int (j + 1) ++ " of "
                               ++ str_of_int n ++ ". " ++ d))
    /\ (forall text c0,
          current_detail_index (store_description_details text c0) = -1
          /\ description_sections (store_description_details text c0) <> []).
Proof.
  intros c Hne Hwf n i.
  pose proof (len_pos c Hne) as Hpos. fold n in Hpos.
  assert (Hidx : forall step,
             current_detail_index (fst (navigate_detail step c))
             = next_index step n i).
  { intros step. destruct (navigate_detail_loaded step c Hne Hwf) as [d [_ Heq]].
    rewrite Heq. reflexivity. }
  split; [| split; [| split; [| split; [| split]]]].
  - intros Hi. rewrite !Hidx, Hi. apply next_index_first.
  - intros Hi. rewrite !Hidx. split.
    + apply next_index_forward; assumption.
    + apply next_index_backward; assumption.
  - intros Hi. rewrite Hidx, next_index_forward; [lia | lia | exact Hwf].
  - intros Hi. rewrite Hidx, next_index_backward; [lia | lia | exact Hwf].
  - intros dir. cbv zeta.
    destruct (navigate_detail_loaded dir c Hne Hwf) as [d [Hnth Heq]].
    split; [| split; [| split]].
    + rewrite Hidx. apply next_index_in_range; assumption.
    + apply navigate_detail_wf; assumption.
    + apply navigate_detail_wf; assumption.
    + exists d. rewrite Heq. cbn [fst snd current_detail_index].
      split; [exact Hnth | reflexivity].
  - apply store_loaded.
Qed.

Lemma detail_cursor_stepping_witness :
  let c := store_description_details "a. b. c." init in
  current_detail_index (fst (navigate_detail 1 c)) = 0
  /\ current_detail_index (fst (navigate_detail (-1) c)) = 2.
Proof.
  intros c.
  assert (Hne : description_sections c <> []) by (vm_compute; discriminate).
  assert (Hwf : wf c) by (vm_compute; split; discriminate).
  destruct (detail_cursor_stepping c Hne Hwf) as [Hfirst _].
  exact (Hfirst eq_refl).
Defined.
End CursorProofs.

(* ------------------------------------------------------------------ *)
(** ** End-to-end scenario *)

Module EndToEnd.
Import App Tasks.
Local Open Scope string_scope.
Local Open Scope Z_scope.

(** C9. End-to-end segmentation and summary.  With a model response
    "First part. Second part. Third part." the capture task stores the
    three sentences as detail sections with index -1, the summary built
    from the response is "First part. Second part." and is narrated after
    the announcement "Summary."; three next-detail sessions select and
    narrate sections 1, 2 and 3, and two further ones stay on section 3. *)
Theorem end_to_end_three_sentences :
  let s1 := capture_session (quiet three_sentences) (init (Some "key")) in
  let s2 := next_detail_session s1 in
  let s3 := next_detail_session s2 in
  let s4 := next_detail_session s3 in
  let s5 := next_detail_session s4 in
  let s6 := next_detail_session s5 in
  Cursor.description_sections (cursor s1)
  = ["First part."; "Second part."; "Third part."]
  /\ Cursor.current_detail_index (cursor s1) = -1
  /\ Text.build_summary three_sentences = "First part. Second part."
  /\ narrated s1
     = ["Summary is ready."; "Summary. First part. Second part."; navigation_hint]
  /\ narrated s4
     = (narrated s1 ++ ["Detail 1 of 3. First part."; "Detail 2 of 3. Second part.";
                        "Detail 3 of 3. Third part."])%list
  /\ map (fun s => Cursor.current_detail_index (cursor s)) [s2; s3; s4; s5; s6]
     = [0; 1; 2; 2; 2]
  /\ narrated s6
     = (narrated s4 ++ ["Detail 3 of 3. Third part."; "Detail 3 of 3. Third part."])%list
  /\ map (fun s => Cursor.description_sections (cursor s)) [s2; s3; s4; s5; s6]
     = repeat ["First part."; "Second part."; "Third part."] 5.
Proof.
  vm_compute. repeat split; reflexivity.
Qed.
End EndToEnd.

(* ------------------------------------------------------------------ *)
(** ** Speech pipeline *)

Module SpeechProofs.
Import Speech.
Local Open Scope string_scope.
Local Open Scope Z_scope.

Lemma calls_app : forall l1 l2, calls (l1 ++ l2) = (calls l1 ++ calls l2)%list.
Proof. intros l1 l2. unfold calls. apply flat_map_app. Qed.

Lemma spoken_app : forall l1 l2, spoken (l1 ++ l2) = (spoken l1 ++ spoken l2)%list.
Proof. intros l1 l2. unfold spoken. apply flat_map_app. Qed.

(** The loop stops at once when suppression is active. *)
Lemma speak_loop_suppressed :
  forall n i env text st,
    stop_event st = true -> speak_loop n i env text st = (st, Ok tt).
Proof.
  intros n i env text st Hstop. destruct n as [| n]; cbn [speak_loop].
  - reflexivity.
  - rewrite Hstop. reflexivity.
Qed.

(** One iteration that ends with suppression active ends the loop: the
    remaining iterations add nothing. *)
Lemma speak_loop_cut :
  forall n i env text st,
    stop_event (fst (speak_loop 1 i env text st)) = true ->
    speak_loop (S n) i env text st = speak_loop 1 i env text st.
Proof.
  intros n i env text st. cbn [speak_loop].
  destruct (stop_event st) eqn:Hst; [reflexivity |].
  destruct (speak_via_wave_file (wave (env i)) text st) as [st1 done1].
  destruct done1.
  { cbn [fst]. intros H. apply speak_loop_suppressed. exact H. }
  destruct (stop_event st1) eqn:Hst1; [reflexivity |].
  destruct (speak_via_cscript (cscript (env i)) text st1) as [st2 [[|] | x]].
  - cbn [fst]. intros H. apply speak_loop_suppressed. exact H.
  - destruct (stop_event st2) eqn:Hst2; [reflexivity |].
    destruct (speak_via_powershell (powershell (env i)) (engine_raises (env i)) text st2)
      as [st3 [u | x]].
    + cbn [fst]. intros H. apply speak_loop_suppressed. exact H.
    + reflexivity.
  - reflexivity.
Qed.

(** C4. Suppression no-op.  A call of speak made while the suppression
    signal is set returns normally at once: it enters no backend and
    renders nothing (only the "suppressed" line is logged); and when the
    signal is set at the start of a repeat iteration, or an iteration
    ends with it set, none of the remaining iterations does anything. *)
Theorem suppression_is_noop :
  forall env text interrupt repeat st,
    stop_event st = true ->
    speak env text interrupt repeat st = (emit (LogInfo Suppressed) st, Ok tt)
    /\ calls (log (fst (speak env text interrupt repeat st))) = calls (log st)
    /\ spoken (log (fst (speak env text interrupt repeat st))) = spoken (log st)
    /\ (forall n i, speak_loop n i env text st = (st, Ok tt))
    /\ (forall n i st0,
          stop_event (fst (speak_loop 1 i env text st0)) = true ->
          speak_loop (S n) i env text st0 = speak_loop 1 i env text st0).
Proof.
  intros env text interrupt repeat st Hstop.
  assert (Hs : speak env text interrupt repeat st = (emit (LogInfo Suppressed) st, Ok tt)).
  { unfold speak. rewrite Hstop. reflexivity. }
  rewrite Hs. cbn [fst emit log].
  split; [reflexivity |].
  split; [rewrite calls_app; cbn; apply app_nil_r |].
  split; [rewrite spoken_app; cbn; apply app_nil_r |].
  split.
  - intros n i. apply speak_loop_suppressed. exact Hstop.
  - intros n i st0. apply speak_loop_cut.
Qed.

Lemma suppression_is_noop_witness :
  calls (log (fst (speak (fun _ => all_ok) "hello" false 3
                     (stop_current_speech true init)))) = [].
Proof.
  exact (proj1 (proj2 (suppression_is_noop (fun _ => all_ok) "hello" false 3
                         (stop_current_speech true init) eq_refl))).
Defined.

(** A stop request during the first playback silences the two queued
    repeats: the wave backend is entered once and nothing else is. *)
Example stop_between_repeats :
  let env := fun i : nat =>
               mkIter (mkWave proc_ok false (Nat.eqb i 0)) proc_ok proc_ok false in
  calls (log (fst (speak env "hello" false 3 init))) = [WaveFile].
Proof. reflexivity. Qed.

Lemma exits_nonzero_inv :
  forall p, exits_nonzero p = true ->
    exists rc, proc_result p = Ok rc /\ (rc =? 0) = false /\ stop_during_proc p = false.
Proof.
  intros [[rc | x] sd]; cbn; intros H; [| discriminate].
  apply andb_prop in H. destruct H as [H1 H2].
  exists rc. repeat split.
  - destruct (rc =? 0); [discriminate | reflexivity].
  - destruct sd; [discriminate | reflexivity].
Qed.

(** One iteration in which the process backends fail by return code. *)
Lemma iteration_exit_code_failures :
  forall n i env text st,
    stop_event st = false ->
    fails_by_exit_codes (env i) = true ->
    exists st',
      speak_loop (S n) i env text st = speak_loop n (S i) env text st'
      /\ stop_event st' = false
      /\ calls (log st') = (calls (log st) ++ priority_order)%list
      /\ spoken (log st') = (spoken (log st) ++ [text])%list.
Proof.
  intros n i env text st Hst Hf.
  unfold fails_by_exit_codes in Hf.
  apply andb_prop in Hf. destruct Hf as [Hf He].
  apply andb_prop in Hf. destruct Hf as [Hf Hp].
  apply andb_prop in Hf. destruct Hf as [Hw Hc].
  apply exits_nonzero_inv in Hw. destruct Hw as [rw [Hw1 [Hw2 Hw3]]].
  apply exits_nonzero_inv in Hc. destruct Hc as [rc [Hc1 [Hc2 Hc3]]].
  apply exits_nonzero_inv in Hp. destruct Hp as [rp [Hp1 [Hp2 Hp3]]].
  apply negb_true_iff in He.
  destruct st as [stop ap lg]. cbn [stop_event] in Hst. subst stop.
  cbn [speak_loop stop_event].
  unfold speak_via_wave_file, speak_via_cscript, speak_via_powershell,
    speak_via_pyttsx3, interfere.
  cbn [emit set_active stop_event active_proc log].
  rewrite Hw1, Hw2, Hw3, Hc1, Hc2, Hc3, Hp1, Hp2, Hp3, He.
  cbn [negb emit set_active stop_event active_proc log].
  eexists. split; [reflexivity |].
  cbn [stop_event log emit set_active active_proc].
  split; [reflexivity |].
  rewrite <- ?app_assoc. rewrite calls_app, spoken_app. cbn.
  rewrite ?app_nil_r. split; reflexivity.
Qed.

(** What holds of the fallback chain when failures are reported by
    return codes: every iteration enters the four backends in priority
    order, the in-process engine once, and the call returns normally. *)
Lemma fallback_by_exit_codes :
  forall n i env text st,
    stop_event st = false ->
    (forall j, fails_by_exit_codes (env j) = true) ->
    exists st',
      speak_loop n i env text st = (st', Ok tt)
      /\ calls (log st') = (calls (log st) ++ List.concat (repeat priority_order n))%list
      /\ spoken (log st') = (spoken (log st) ++ repeat text n)%list.
Proof.
  induction n as [| n IH]; intros i env text st Hst Hall.
  - exists st. cbn. rewrite !app_nil_r. repeat split; reflexivity.
  - destruct (iteration_exit_code_failures n i env text st Hst (Hall i))
      as [st1 [Heq [Hst1 [Hc Hs]]]].
    destruct (IH (S i) env text st1 Hst1 Hall) as [st' [Hrun [Hc' Hs']]].
    exists st'. rewrite Heq, Hrun. split; [reflexivity |].
    rewrite Hc', Hs', Hc, Hs. cbn [repeat List.concat].
    rewrite <- !app_assoc. split; reflexivity.
Qed.

(** One iteration with working backends renders the text once. *)
Lemma speak_loop_one_ok :
  forall i text st,
    stop_event st = false ->
    spoken (log (fst (speak_loop 1 i (fun _ => all_ok) text st)))
    = (spoken (log st) ++ [text])%list.
Proof.
  intros i text st H. destruct st as [stop ap lg]. cbn [stop_event] in H. subst stop.
  cbn [speak_loop stop_event]. unfold speak_via_wave_file, interfere.
  cbn [all_ok wave wave_rc proc_rc synth proc_result stop_during_proc play_raises
       stop_during_play emit stop_event log active_proc Z.eqb negb fst].
  rewrite <- ?app_assoc. rewrite spoken_app. cbn. reflexivity.
Qed.

(** C3. Speech fallback exhaustion, evaluated where the code departs from
    it.  (1) Wave synthesis and cscript exit with code 1 and launching
    PowerShell raises: the error leaves speak, and the in-process engine
    is never entered.  (2) Wave synthesis exits with code 1 and launching
    cscript raises: the error leaves speak and neither PowerShell nor the
    engine is tried.  (3) The three processes exit with code 1 and the
    engine raises: the error leaves speak.  In each case nothing is
    rendered. *)
Theorem speak_surfaces_backend_errors :
  let run := fun e => speak (fun _ => e) "hello" false 1 init in
  let r1 := run (mkIter (wave_rc 1) (proc_rc 1) proc_raises false) in
  let r2 := run (mkIter (wave_rc 1) proc_raises (proc_rc 1) false) in
  let r3 := run (mkIter (wave_rc 1) (proc_rc 1) (proc_rc 1) true) in
  (snd r1 = Raise OSError
   /\ calls (log (fst r1)) = [WaveFile; Cscript; PowerShell]
   /\ spoken (log (fst r1)) = [])
  /\ (snd r2 = Raise OSError
      /\ calls (log (fst r2)) = [WaveFile; Cscript]
      /\ spoken (log (fst r2)) = [])
  /\ (snd r3 = Raise RuntimeError
      /\ calls (log (fst r3)) = priority_order
      /\ spoken (log (fst r3)) = []).
Proof.
  vm_compute. repeat split; reflexivity.
Qed.
End SpeechProofs.

(* ------------------------------------------------------------------ *)
(** ** Task gate and cancellation token *)

Module GateProofs.
Import App.
Local Open Scope string_scope.
Local Open Scope Z_scope.

Lemma session_thread_head :
  forall s, session_thread s = hd_error (sessions s).
Proof.
  intros s. unfold session_thread, sessions.
  induction (threads s) as [| t l IH]; cbn [find filter]; [reflexivity |].
  destruct (is_session t); [reflexivity | exact IH].
Qed.

Lemma sessions_remove_session :
  forall l, filter is_session (remove_first is_session l) = tl (filter is_session l).
Proof.
  induction l as [| t l IH]; cbn [remove_first filter]; [reflexivity |].
  destruct (is_session t) eqn:Ht; cbn [tl filter]; [reflexivity |].
  rewrite Ht. exact IH.
Qed.

Lemma sessions_remove_helper :
  forall l,
    filter is_session (remove_first (fun t => negb (is_session t)) l)
    = filter is_session l.
Proof.
  induction l as [| t l IH]; cbn [remove_first filter]; [reflexivity |].
  destruct (is_session t) eqn:Ht; cbn [negb filter].
  - rewrite Ht, IH. reflexivity.
  - reflexivity.
Qed.

Lemma sessions_start_thread :
  forall t s,
    sessions (start_thread t s)
    = (sessions s ++ (if is_session t then [t] else []))%list.
Proof.
  intros t s. unfold sessions, start_thread. cbn [threads set_threads].
  rewrite filter_app. cbn [filter]. destruct (is_session t); reflexivity.
Qed.

(** [single_flight] looks at the lock and the threads only. *)
Lemma single_flight_ext :
  forall s s',
    capture_lock s' = capture_lock s -> threads s' = threads s ->
    single_flight s -> single_flight s'.
Proof.
  intros s s' Hl Ht H. unfold single_flight, sessions in *. rewrite Hl, Ht. exact H.
Qed.

Lemma single_flight_held :
  forall s, single_flight s -> capture_lock s = true -> exists t, sessions s = [t].
Proof.
  intros s [[_ H] | [H _]] Hl; [exact H | congruence].
Qed.

Lemma single_flight_free :
  forall s, single_flight s -> capture_lock s = false -> sessions s = [].
Proof.
  intros s [[H _] | [_ H]] Hl; [congruence | exact H].
Qed.

Lemma do_move_single_flight :
  forall m s, single_flight s -> single_flight (do_move m s).
Proof.
  intros m s H. destruct m; cbn [do_move].
  - destruct (session_thread s) as [[| | |] |]; exact H.
  - destruct (session_thread s) as [[| | |] |]; exact H.
  - exact H.
  - destruct (session_thread s) as [t |] eqn:Hs; [| exact H].
    rewrite session_thread_head in Hs.
    destruct H as [[Hl [t' Ht']] | [Hl Hn]].
    + rewrite Ht' in Hs. cbn in Hs. injection Hs as Hs. subst t'.
      right. unfold sessions. cbn [threads set_threads].
      rewrite sessions_remove_session. fold (sessions s). rewrite Ht'.
      split; [| reflexivity].
      assert (Hsess : is_session t = true).
      { assert (Hin : In t (sessions s)) by (rewrite Ht'; left; reflexivity).
        apply filter_In in Hin. apply Hin. }
      destruct t; try (cbn in Hsess; discriminate);
        unfold task_finally, release;
        cbn [capture_lock set_active_task set_submit set_listening];
        rewrite Hl; reflexivity.
    + rewrite Hn in Hs. discriminate.
  - unfold single_flight, sessions in *. cbn [threads set_threads capture_lock].
    rewrite sessions_remove_helper. exact H.
Qed.

Lemma do_moves_single_flight :
  forall ms s, single_flight s -> single_flight (do_moves ms s).
Proof.
  unfold do_moves. induction ms as [| m ms IH]; intros s H; cbn [fold_left].
  - exact H.
  - apply IH. apply do_move_single_flight. exact H.
Qed.

Lemma stop_current_speech_single_flight :
  forall s, single_flight s -> single_flight (stop_current_speech s).
Proof.
  intros s H. eapply single_flight_ext; [| | exact H]; reflexivity.
Qed.

(** Shape of the state after a successful acquire followed by the start
    of the session thread [t]. *)
Lemma admitted_single_flight :
  forall s s' t,
    single_flight s -> capture_lock s = false -> is_session t = true ->
    capture_lock s' = true -> threads s' = (threads s ++ [t])%list ->
    single_flight s'.
Proof.
  intros s s' t H Hl Ht Hl' Hth. left. split; [exact Hl' |].
  exists t. unfold sessions. rewrite Hth, filter_app. cbn [filter]. rewrite Ht.
  fold (sessions s). rewrite (single_flight_free s H Hl). reflexivity.
Qed.

Lemma handle_single_flight :
  forall k wait s, single_flight s -> single_flight (handle k wait s).
Proof.
  intros k wait s H.
  pose proof (do_moves_single_flight wait _ (stop_current_speech_single_flight s H)) as Hw.
  destruct k; cbn [handle].
  - unfold on_capture_hotkey, acquire.
    destruct (capture_lock (do_moves wait (stop_current_speech s))) eqn:Hl; cbn [negb].
    + eapply single_flight_ext; [| | exact Hw]; reflexivity.
    + eapply (admitted_single_flight _ _ CaptureTask Hw Hl); reflexivity.
  - unfold on_follow_up_hotkey, acquire.
    destruct (follow_up_listening_event s).
    { eapply single_flight_ext; [| | exact H]; reflexivity. }
    destruct (capture_lock (do_moves wait (stop_current_speech s))) eqn:Hl; cbn [negb].
    + eapply single_flight_ext; [| | exact Hw]; reflexivity.
    + eapply (admitted_single_flight _ _ FollowUpTask Hw Hl); reflexivity.
  - eapply single_flight_ext; [| | exact H]; reflexivity.
  - unfold on_cancel_task_hotkey.
    destruct (active_task_name s); (eapply single_flight_ext; [| | exact H]; reflexivity).
  - unfold on_set_api_key_hotkey, single_flight in *.
    rewrite sessions_start_thread. cbn [is_session]. rewrite app_nil_r. exact H.
  - unfold on_next_detail_hotkey, on_detail_hotkey, acquire.
    destruct (capture_lock (do_moves wait (stop_current_speech s))) eqn:Hl; cbn [negb].
    + eapply single_flight_ext; [| | exact Hw]; reflexivity.
    + eapply (admitted_single_flight _ _ (NavigateTask 1) Hw Hl); reflexivity.
  - unfold on_previous_detail_hotkey, on_detail_hotkey, acquire.
    destruct (capture_lock (do_moves wait (stop_current_speech s))) eqn:Hl; cbn [negb].
    + eapply single_flight_ext; [| | exact Hw]; reflexivity.
    + eapply (admitted_single_flight _ _ (NavigateTask (-1)) Hw Hl); reflexivity.
Qed.

Lemma step_single_flight :
  forall e s, single_flight s -> single_flight (step e s).
Proof.
  intros [k wait | m] s H; cbn [step].
  - apply handle_single_flight. exact H.
  - apply do_move_single_flight. exact H.
Qed.

Lemma run_single_flight :
  forall es s, single_flight s -> single_flight (run es s).
Proof.
  unfold run. induction es as [| e es IH]; intros s H; cbn [fold_left].
  - exact H.
  - apply IH. apply step_single_flight. exact H.
Qed.

Lemma init_single_flight : forall key, single_flight (init key).
Proof. intros key. right. split; reflexivity. Qed.

Lemma single_flight_at_most_one :
  forall s, single_flight s -> (List.length (sessions s) <= 1)%nat.
Proof.
  intros s [[_ [t Ht]] | [_ Hn]]; [rewrite Ht | rewrite Hn]; cbn; lia.
Qed.
End GateProofs.

(* ------------------------------------------------------------------ *)
(** ** Exit paths of the task bodies *)

Module TaskProofs.
Import App Tasks GateProofs.
Local Open Scope string_scope.
Local Open Scope Z_scope.

Lemma held_ext :
  forall s s',
    capture_lock s' = capture_lock s -> threads s' = threads s ->
    held s -> held s'.
Proof.
  intros s s' Hl Ht [Hsf Hh]. split.
  - eapply single_flight_ext; eassumption.
  - congruence.
Qed.

Lemma handle_keeps_lock :
  forall k wait s,
    capture_lock (do_moves wait (stop_current_speech s)) = true ->
    capture_lock s = true ->
    capture_lock (handle k wait s) = true.
Proof.
  intros k wait s Hw Hl.
  destruct k; cbn [handle];
    unfold on_capture_hotkey, on_follow_up_hotkey, on_stop_speaking_hotkey,
      on_cancel_task_hotkey, on_set_api_key_hotkey, on_next_detail_hotkey,
      on_previous_detail_hotkey, on_detail_hotkey, acquire.
  - rewrite Hw. exact Hw.
  - destruct (follow_up_listening_event s); [exact Hl |].
    rewrite Hw. exact Hw.
  - exact Hl.
  - destruct (active_task_name s); exact Hl.
  - exact Hl.
  - rewrite Hw. exact Hw.
  - rewrite Hw. exact Hw.
Qed.

Lemma press_held : forall s k, held s -> held (press s k).
Proof.
  intros s k [Hsf Hl]. unfold press. split.
  - apply handle_single_flight. exact Hsf.
  - apply handle_keeps_lock; [exact Hl | exact Hl].
Qed.

Lemma keeps_ret : forall A (a : A), keeps_gate (ret a).
Proof. intros A a s H. exact H. Qed.

Lemma keeps_return : forall A, keeps_gate (@return_ A).
Proof. intros A s H. exact H. Qed.

Lemma keeps_raise : forall A x, keeps_gate (@raise A x).
Proof. intros A x s H. exact H. Qed.

Lemma keeps_get : forall A (f : app -> A), keeps_gate (get f).
Proof. intros A f s H. exact H. Qed.

Lemma keeps_bind :
  forall A B (m : M A) (f : A -> M B),
    keeps_gate m -> (forall a, keeps_gate (f a)) -> keeps_gate (bind m f).
Proof.
  intros A B m f Hm Hf s H. unfold bind.
  specialize (Hm s H). destruct (m s) as [s' [a | | x]]; cbn [fst] in *.
  - apply Hf. exact Hm.
  - exact Hm.
  - exact Hm.
Qed.

Lemma keeps_modify :
  forall f : app -> app,
    (forall s, capture_lock (f s) = capture_lock s) ->
    (forall s, threads (f s) = threads s) ->
    keeps_gate (modify f).
Proof.
  intros f Hl Ht s H. unfold modify. cbn [fst].
  eapply held_ext; [apply Hl | apply Ht | exact H].
Qed.

Lemma keeps_blocking : forall e k, keeps_gate (blocking e k).
Proof.
  intros e k s H. unfold blocking, modify. cbn [fst].
  revert s H. induction (keys e k) as [| key l IH]; intros s H; cbn [fold_left].
  - exact H.
  - apply IH. apply press_held. exact H.
Qed.

Lemma keeps_say : forall e k text interrupt, keeps_gate (say e k text interrupt).
Proof.
  intros e k text interrupt. unfold say. apply keeps_bind.
  - apply keeps_blocking.
  - intros _ s H.
    destruct (Speech.speak (voices e k) text interrupt 1 (speech s)) as [sp [u | x]];
      cbn [fst]; (eapply held_ext; [| | exact H]; reflexivity).
Qed.

Lemma keeps_print : forall t, keeps_gate (print t).
Proof. intros t. apply keeps_modify; reflexivity. Qed.

Lemma keeps_beep : forall p, keeps_gate (beep p).
Proof. intros p. apply keeps_modify; reflexivity. Qed.

Lemma keeps_cue : forall a, keeps_gate (cue a).
Proof. intros a. apply keeps_modify; reflexivity. Qed.

Ltac keeps_step :=
  first
    [ apply keeps_say
    | apply keeps_blocking
    | apply keeps_print
    | apply keeps_beep
    | apply keeps_cue
    | apply keeps_ret
    | apply keeps_return
    | apply keeps_raise
    | apply keeps_get
    | apply keeps_modify; reflexivity
    | apply keeps_bind; [| intros ? ]
    | match goal with
      | |- keeps_gate (if ?b then _ else _) => destruct b
      | |- keeps_gate (match ?x with _ => _ end) => destruct x
      end ].

Lemma keeps_stop_if_cancelled : forall msg, keeps_gate (stop_if_cancelled msg).
Proof. intros msg. unfold stop_if_cancelled, cancelled. repeat keeps_step. Qed.

Lemma keeps_require_api_key : forall e k, keeps_gate (require_api_key e k).
Proof.
  intros e k. unfold require_api_key, ensure_api_key_configured. repeat keeps_step.
Qed.

Lemma keeps_capture_screenshot_bytes :
  forall e k, keeps_gate (capture_screenshot_bytes e k).
Proof. intros e k. unfold capture_screenshot_bytes. repeat keeps_step. Qed.

Lemma keeps_query_screenshot : forall e k, keeps_gate (query_screenshot e k).
Proof. intros e k. unfold query_screenshot, cancelled. repeat keeps_step. Qed.

Ltac keeps_body :=
  repeat first
    [ apply keeps_stop_if_cancelled
    | apply keeps_require_api_key
    | apply keeps_capture_screenshot_bytes
    | apply keeps_query_screenshot
    | keeps_step ].

Lemma keeps_capture_try : forall e, keeps_gate (capture_try e).
Proof. intros e. unfold capture_try. keeps_body. Qed.

Lemma keeps_follow_up_try : forall e, keeps_gate (follow_up_try e).
Proof. intros e. unfold follow_up_try. keeps_body. Qed.

Lemma keeps_navigate_try : forall step e, keeps_gate (navigate_try step e).
Proof.
  intros step e. unfold navigate_try. apply keeps_bind.
  - intros s H. destruct (Cursor.navigate_detail step (cursor s)) as [c [m | x]];
      cbn [fst]; (eapply held_ext; [| | exact H]; reflexivity).
  - intros m. keeps_body.
Qed.

Lemma keeps_body_of_thread : forall t e, keeps_gate (body t e).
Proof.
  intros [| | step |] e; cbn [body].
  - apply keeps_capture_try.
  - apply keeps_follow_up_try.
  - apply keeps_navigate_try.
  - apply keeps_ret.
Qed.

(** The [finally] block of a session releases the gate when it is held,
    and does not raise. *)
Lemma task_finally_releases :
  forall t s,
    is_session t = true -> capture_lock s = true ->
    capture_lock (fst (task_finally t s)) = false
    /\ snd (task_finally t s) = Ok tt
    /\ threads (fst (task_finally t s)) = threads s
    /\ match t with
       | NavigateTask _ => True
       | _ => active_task_name (fst (task_finally t s)) = None
       end.
Proof.
  intros t s Ht Hl.
  destruct t; try (cbn in Ht; discriminate); unfold task_finally, release;
    cbn [capture_lock set_active_task set_submit set_listening];
    rewrite Hl; cbn [fst snd capture_lock set_lock threads set_active_task
                     set_submit set_listening active_task_name];
    repeat split; reflexivity.
Qed.

(** Every exit path of a session thread releases the gate. *)
Lemma run_thread_releases :
  forall t e s,
    is_session t = true -> held s ->
    capture_lock (fst (run_thread t e s)) = false
    /\ sessions (fst (run_thread t e s)) = []
    /\ snd (run_thread t e s) = snd (body t e s).
Proof.
  intros t e s Ht H.
  pose proof (keeps_body_of_thread t e s H) as [Hsf Hl].
  unfold run_thread, try_finally.
  destruct (body t e s) as [s1 c]. cbn [fst snd] in *.
  destruct (task_finally_releases t s1 Ht Hl) as [Hrel [Hok [Hth _]]].
  destruct (task_finally t s1) as [s2 r]. cbn [fst snd] in *. subst r.
  cbn [fst snd]. split; [exact Hrel |]. split; [| reflexivity].
  unfold sessions. cbn [threads set_threads].
  rewrite sessions_remove_session, Hth. fold (sessions s1).
  destruct (single_flight_held s1 Hsf Hl) as [t' Ht']. rewrite Ht'. reflexivity.
Qed.
End TaskProofs.

(* ------------------------------------------------------------------ *)
(** ** Admission, cancellation and stop-speech *)

Module Orchestration.
Import App Tasks GateProofs TaskProofs.
Local Open Scope string_scope.
Local Open Scope Z_scope.

(** A handler whose acquire ends with the gate held denies admission. *)
Lemma denied_when_held :
  forall k wait s,
    attempts_admission k s = true ->
    capture_lock (after_wait wait s) = true ->
    exists msg,
      handle k wait s = out rejection_cue (out (Print msg) (after_wait wait s)).
Proof.
  intros k wait s Hk Hl. unfold after_wait in *.
  destruct k; cbn [attempts_admission requests_session] in Hk; try discriminate;
    cbn [handle];
    unfold on_capture_hotkey, on_follow_up_hotkey, on_next_detail_hotkey,
      on_previous_detail_hotkey, on_detail_hotkey, acquire.
  - rewrite Hl. cbn [negb]. eexists. reflexivity.
  - apply negb_true_iff in Hk. rewrite Hk, Hl. cbn [negb]. eexists. reflexivity.
  - rewrite Hl. cbn [negb]. eexists. reflexivity.
  - rewrite Hl. cbn [negb]. eexists. reflexivity.
Qed.

(** A handler whose acquire ends with the gate free starts a session. *)
Lemma admitted_when_free :
  forall k wait s,
    attempts_admission k s = true ->
    capture_lock (after_wait wait s) = false ->
    capture_lock (handle k wait s) = true
    /\ exists t, is_session t = true
                 /\ threads (handle k wait s) = (threads (after_wait wait s) ++ [t])%list.
Proof.
  intros k wait s Hk Hl. unfold after_wait in *.
  destruct k; cbn [attempts_admission requests_session] in Hk; try discriminate;
    cbn [handle];
    unfold on_capture_hotkey, on_follow_up_hotkey, on_next_detail_hotkey,
      on_previous_detail_hotkey, on_detail_hotkey, acquire.
  - rewrite Hl. cbn [negb]. split; [reflexivity |]. exists CaptureTask. split; reflexivity.
  - apply negb_true_iff in Hk. rewrite Hk, Hl. cbn [negb].
    split; [reflexivity |]. exists FollowUpTask. split; reflexivity.
  - rewrite Hl. cbn [negb]. split; [reflexivity |]. exists (NavigateTask 1). split; reflexivity.
  - rewrite Hl. cbn [negb]. split; [reflexivity |]. exists (NavigateTask (-1)). split; reflexivity.
Qed.

(** The follow-up hot-key pressed in listening mode asks for an early
    submit and nothing else. *)
Lemma follow_up_toggle :
  forall wait s,
    follow_up_listening_event s = true ->
    handle KFollowUp wait s
    = out (AudioCue "SystemAsterisk")
        (out (Print submit_message) (out CancelTranscription (set_submit true s))).
Proof.
  intros wait s H. cbn [handle]. unfold on_follow_up_hotkey. rewrite H. reflexivity.
Qed.

(** C1, as the code has it.  For every sequence of hot-keys and thread
    moves the gate is held exactly while one task session runs, and never
    more than one runs.  A capture or navigation hot-key, or a follow-up
    hot-key pressed outside listening mode, whose bounded acquire ends
    with the gate still held is denied: the rejection cue follows a
    printed notice, no thread is started, the gate stays held.  When the
    gate is free at the end of the wait, a session thread is started with
    the gate held.  A follow-up hot-key pressed in listening mode is no
    admission attempt: it sets the submit signal, plays the submit cue and
    starts nothing.  Every exit path of a session body, normal, early
    return or exception, releases the gate and ends the session. *)
Theorem single_flight_admission :
  (forall key es,
      single_flight (run es (init key))
      /\ (List.length (sessions (run es (init key))) <= 1)%nat)
  /\ (forall k wait s,
        attempts_admission k s = true ->
        capture_lock (after_wait wait s) = true ->
        capture_lock (handle k wait s) = true
        /\ threads (handle k wait s) = threads (after_wait wait s)
        /\ exists msg,
            console (handle k wait s)
            = (console (after_wait wait s) ++ [Print msg; rejection_cue])%list)
  /\ (forall k wait s,
        attempts_admission k s = true ->
        capture_lock (after_wait wait s) = false ->
        capture_lock (handle k wait s) = true
        /\ exists t, is_session t = true
                     /\ threads (handle k wait s)
                        = (threads (after_wait wait s) ++ [t])%list)
  /\ (forall wait s,
        follow_up_listening_event s = true ->
        follow_up_submit_event (handle KFollowUp wait s) = true
        /\ threads (handle KFollowUp wait s) = threads s
        /\ capture_lock (handle KFollowUp wait s) = capture_lock s
        /\ console (handle KFollowUp wait s)
           = (console s ++ [CancelTranscription; Print submit_message;
                            AudioCue "SystemAsterisk"])%list)
  /\ (forall t e s,
        is_session t = true -> held s ->
        capture_lock (fst (run_thread t e s)) = false
        /\ sessions (fst (run_thread t e s)) = []
        /\ snd (run_thread t e s) = snd (body t e s)).
Proof.
  split; [| split; [| split; [| split]]].
  - intros key es.
    pose proof (run_single_flight es (init key) (init_single_flight key)) as H.
    split; [exact H | apply single_flight_at_most_one; exact H].
  - intros k wait s Hk Hl.
    destruct (denied_when_held k wait s Hk Hl) as [msg Heq]. rewrite Heq.
    cbn [capture_lock threads console out]. split; [exact Hl |].
    split; [reflexivity |]. exists msg. rewrite <- app_assoc. reflexivity.
  - apply admitted_when_free.
  - intros wait s H. rewrite (follow_up_toggle wait s H).
    cbn [follow_up_submit_event threads capture_lock console out set_submit].
    repeat split. rewrite <- !app_assoc. reflexivity.
  - apply run_thread_releases.
Qed.

Lemma single_flight_admission_witness :
  capture_lock (handle KNextDetail [] (handle KCapture [] (init (Some "key")))) = true
  /\ threads (handle KNextDetail [] (handle KCapture [] (init (Some "key"))))
     = [CaptureTask].
Proof.
  pose proof (proj1 (proj2 single_flight_admission) KNextDetail []
                (handle KCapture [] (init (Some "key"))) eq_refl eq_refl) as H.
  split; [exact (proj1 H) | exact (proj1 (proj2 H))].
Defined.

(** C1 as stated fails for the follow-up hot-key.  While the follow-up
    task holds the gate and records, a second follow-up press is not
    denied: no rejection cue is played, the submit cue is, and the submit
    signal becomes set.  And a capture press made while a task holds the
    gate is admitted when that task ends during the bounded wait. *)
Lemma follow_up_press_while_recording_is_not_denied :
  let s := do_move BeginListening (handle KFollowUp [] (init (Some "key"))) in
  let s' := handle KFollowUp [] s in
  let busy := handle KCapture [] (init (Some "key")) in
  (capture_lock s = true /\ sessions s = [FollowUpTask]
   /\ ~ In rejection_cue (console s')
   /\ console s' = (console s ++ [CancelTranscription; Print submit_message;
                                  AudioCue "SystemAsterisk"])%list
   /\ follow_up_submit_event s = false /\ follow_up_submit_event s' = true)
  /\ (capture_lock busy = true
      /\ sessions (handle KCapture [Exit] busy) = [CaptureTask]
      /\ threads (handle KCapture [Exit] busy) = [CaptureTask]
      /\ task_cancel_event (handle KCapture [Exit] busy) = false).
Proof.
  cbv zeta. split.
  - split; [reflexivity |]. split; [reflexivity |]. split.
    + vm_compute. intros H.
      repeat (destruct H as [H | H]; [discriminate H |]). exact H.
    + repeat split; reflexivity.
  - repeat split; reflexivity.
Qed.
(* Cancellation token *)

Lemma do_move_cancel :
  forall m s, task_cancel_event (do_move m s) = task_cancel_event s.
Proof.
  intros m s. destruct m; cbn [do_move]; try reflexivity.
  - destruct (session_thread s) as [[| | |] |]; reflexivity.
  - destruct (session_thread s) as [[| | |] |]; reflexivity.
  - destruct (session_thread s) as [[| | |] |]; try reflexivity;
      unfold task_finally, release;
      cbn [capture_lock set_active_task set_submit set_listening];
      destruct (capture_lock s); reflexivity.
Qed.

Lemma do_moves_cancel :
  forall ms s, task_cancel_event (do_moves ms s) = task_cancel_event s.
Proof.
  unfold do_moves. induction ms as [| m ms IH]; intros s; cbn [fold_left].
  - reflexivity.
  - rewrite IH. apply do_move_cancel.
Qed.

Lemma after_wait_cancel :
  forall wait s, task_cancel_event (after_wait wait s) = task_cancel_event s.
Proof. intros wait s. unfold after_wait. rewrite do_moves_cancel. reflexivity. Qed.

Lemma do_move_lock :
  forall m s, is_exit m = false -> capture_lock (do_move m s) = capture_lock s.
Proof.
  intros m s Hm. destruct m; cbn [do_move]; try reflexivity; try discriminate.
  - destruct (session_thread s) as [[| | |] |]; reflexivity.
  - destruct (session_thread s) as [[| | |] |]; reflexivity.
Qed.

Lemma do_moves_lock :
  forall ms s, existsb is_exit ms = false -> capture_lock (do_moves ms s) = capture_lock s.
Proof.
  unfold do_moves. induction ms as [| m ms IH]; intros s H; cbn [fold_left].
  - reflexivity.
  - cbn [existsb] in H. apply orb_false_elim in H. destruct H as [Hm Hms].
    rewrite (IH _ Hms). apply do_move_lock. exact Hm.
Qed.

(** A handler that finds the gate held leaves a set token set. *)
Lemma handle_keeps_cancel_when_held :
  forall k wait s,
    capture_lock (after_wait wait s) = true ->
    task_cancel_event s = true ->
    task_cancel_event (handle k wait s) = true.
Proof.
  intros k wait s Hl Hc.
  pose proof (after_wait_cancel wait s) as Hw. rewrite Hc in Hw.
  unfold after_wait in *.
  destruct k; cbn [handle];
    unfold on_capture_hotkey, on_follow_up_hotkey, on_stop_speaking_hotkey,
      on_cancel_task_hotkey, on_set_api_key_hotkey, on_next_detail_hotkey,
      on_previous_detail_hotkey, on_detail_hotkey, acquire.
  - rewrite Hl. exact Hw.
  - destruct (follow_up_listening_event s); [exact Hc |]. rewrite Hl. exact Hw.
  - exact Hc.
  - destruct (active_task_name s); reflexivity.
  - exact Hc.
  - rewrite Hl. exact Hw.
  - rewrite Hl. exact Hw.
Qed.

(** Only an admitted capture or follow-up clears a set token. *)
Lemma cancel_cleared_only_on_admission :
  forall k wait s,
    task_cancel_event s = true ->
    task_cancel_event (handle k wait s) = false ->
    (k = KCapture \/ k = KFollowUp)
    /\ attempts_admission k s = true
    /\ capture_lock (after_wait wait s) = false.
Proof.
  intros k wait s Hc Hclr.
  destruct (capture_lock (after_wait wait s)) eqn:Hl.
  { rewrite (handle_keeps_cancel_when_held k wait s Hl Hc) in Hclr. discriminate. }
  pose proof (after_wait_cancel wait s) as Hw. rewrite Hc in Hw.
  unfold after_wait in *.
  destruct k; cbn [handle attempts_admission requests_session] in *;
    unfold on_capture_hotkey, on_follow_up_hotkey, on_stop_speaking_hotkey,
      on_cancel_task_hotkey, on_set_api_key_hotkey, on_next_detail_hotkey,
      on_previous_detail_hotkey, on_detail_hotkey, acquire in Hclr.
  - repeat split; auto.
  - destruct (follow_up_listening_event s).
    + cbn in Hclr. congruence.
    + repeat split; auto.
  - cbn in Hclr. congruence.
  - destruct (active_task_name s); cbn in Hclr; discriminate.
  - cbn in Hclr. congruence.
  - rewrite Hl in Hclr. cbn in Hclr. congruence.
  - rewrite Hl in Hclr. cbn in Hclr. congruence.
Qed.

Lemma step_sticky :
  forall e s,
    capture_lock s = true -> task_cancel_event s = true ->
    within_session e = true ->
    capture_lock (step e s) = true /\ task_cancel_event (step e s) = true.
Proof.
  intros [k wait | m] s Hl Hc Hw; cbn [step within_session] in *;
    apply negb_true_iff in Hw.
  - assert (Hlw : capture_lock (after_wait wait s) = true).
    { unfold after_wait. rewrite (do_moves_lock wait _ Hw). exact Hl. }
    split.
    + apply handle_keeps_lock; [exact Hlw | exact Hl].
    + apply handle_keeps_cancel_when_held; assumption.
  - rewrite (do_move_lock m s Hw), do_move_cancel. split; assumption.
Qed.

Lemma run_sticky :
  forall es s,
    capture_lock s = true -> task_cancel_event s = true ->
    forallb within_session es = true ->
    capture_lock (run es s) = true /\ task_cancel_event (run es s) = true.
Proof.
  unfold run. induction es as [| e es IH]; intros s Hl Hc Hw; cbn [fold_left].
  - split; assumption.
  - cbn [forallb] in Hw. apply andb_prop in Hw. destruct Hw as [He Hes].
    destruct (step_sticky e s Hl Hc He) as [Hl' Hc'].
    apply IH; assumption.
Qed.

(** A handler other than the cancel handler leaves a clear token clear. *)
Lemma handle_keeps_clear :
  forall k wait s,
    k <> KCancelTask ->
    task_cancel_event s = false ->
    task_cancel_event (handle k wait s) = false.
Proof.
  intros k wait s Hk Hc.
  pose proof (after_wait_cancel wait s) as Hw. rewrite Hc in Hw.
  unfold after_wait in Hw.
  destruct k; cbn [handle];
    unfold on_capture_hotkey, on_follow_up_hotkey, on_stop_speaking_hotkey,
      on_set_api_key_hotkey, on_next_detail_hotkey,
      on_previous_detail_hotkey, on_detail_hotkey, acquire.
  - destruct (capture_lock (do_moves wait (stop_current_speech s)));
      [exact Hw | reflexivity].
  - destruct (follow_up_listening_event s); [exact Hc |].
    destruct (capture_lock (do_moves wait (stop_current_speech s)));
      [exact Hw | reflexivity].
  - exact Hc.
  - contradiction Hk. reflexivity.
  - exact Hc.
  - destruct (capture_lock (do_moves wait (stop_current_speech s))); exact Hw.
  - destruct (capture_lock (do_moves wait (stop_current_speech s))); exact Hw.
Qed.

(** Without a press of the cancel hot-key a clear token stays clear. *)
Lemma run_keeps_clear :
  forall es s,
    existsb is_cancel_press es = false ->
    task_cancel_event s = false ->
    task_cancel_event (run es s) = false.
Proof.
  unfold run. induction es as [| e es IH]; intros s Hes Hc; cbn [fold_left].
  - exact Hc.
  - cbn [existsb] in Hes. apply orb_false_elim in Hes. destruct Hes as [He Hes].
    apply IH; [exact Hes |].
    destruct e as [k wait | m]; cbn [step].
    + apply handle_keeps_clear; [| exact Hc].
      intros ->. discriminate He.
    + rewrite do_move_cancel. exact Hc.
Qed.

(** What the first statement of the capture and follow-up bodies does
    with the token it reads. *)
Lemma first_poll :
  forall s,
    snd (stop_if_cancelled None s)
    = if task_cancel_event s then Returned else Next tt.
Proof.
  intros s. unfold stop_if_cancelled, cancelled, bind, get.
  destruct (task_cancel_event s); reflexivity.
Qed.

(** C2, as the code has it.  While a session holds the gate, a set
    cancellation token stays set through every hot-key and every thread
    move up to the end of that session; no thread move ever changes the
    token, and a handler clears a set token only when it admits a capture
    or follow-up task, the gate being free.  Every admission of a capture
    or follow-up task clears the token before the thread is started.  An
    admission of a navigation task leaves the token as it was.  A clear
    token stays clear through every sequence of events without a press of
    the cancel hot-key, so the first poll of the admitted body, whenever
    the thread gets to it, reads clear if no cancel press came between;
    after a cancel press it reads set, and the body returns at once. *)
Theorem cancellation_sticky_until_admission :
  (forall es s,
      capture_lock s = true -> task_cancel_event s = true ->
      forallb within_session es = true ->
      capture_lock (run es s) = true /\ task_cancel_event (run es s) = true)
  /\ (forall m s, task_cancel_event (do_move m s) = task_cancel_event s)
  /\ (forall k wait s,
        task_cancel_event s = true ->
        task_cancel_event (handle k wait s) = false ->
        (k = KCapture \/ k = KFollowUp)
        /\ attempts_admission k s = true
        /\ capture_lock (after_wait wait s) = false)
  /\ (forall k wait s,
        k = KCapture \/ k = KFollowUp ->
        attempts_admission k s = true ->
        capture_lock (after_wait wait s) = false ->
        task_cancel_event (handle k wait s) = false
        /\ snd (stop_if_cancelled None (handle k wait s)) = Next tt
        /\ exists t, threads (handle k wait s)
                     = (threads (after_wait wait s) ++ [t])%list)
  /\ (forall k wait s,
        k = KNextDetail \/ k = KPreviousDetail ->
        task_cancel_event (handle k wait s) = task_cancel_event s)
  /\ (forall es s,
        task_cancel_event s = false ->
        existsb is_cancel_press es = false ->
        task_cancel_event (run es s) = false)
  /\ (forall k wait es s,
        k = KCapture \/ k = KFollowUp ->
        attempts_admission k s = true ->
        capture_lock (after_wait wait s) = false ->
        existsb is_cancel_press es = false ->
        snd (stop_if_cancelled None (run es (handle k wait s))) = Next tt)
  /\ (forall wait es s,
        capture_lock s = true ->
        forallb within_session es = true ->
        let s' := run es (handle KCancelTask wait s) in
        task_cancel_event s' = true
        /\ snd (stop_if_cancelled None s') = Returned
        /\ threads (handle KCancelTask wait s) = threads s).
Proof.
  split; [exact run_sticky |].
  split; [exact do_move_cancel |].
  split; [exact cancel_cleared_only_on_admission |].
  split.
  { intros k wait s Hk Ha Hl. unfold after_wait in *.
    assert (Hclr : task_cancel_event (handle k wait s) = false
                   /\ exists t, threads (handle k wait s)
                                = (threads (do_moves wait (stop_current_speech s)) ++ [t])%list).
    { destruct Hk as [Hk | Hk]; subst k; cbn [handle attempts_admission] in *;
        unfold on_capture_hotkey, on_follow_up_hotkey, acquire.
      - rewrite Hl. cbn [negb]. split; [reflexivity |]. eexists. reflexivity.
      - apply negb_true_iff in Ha. rewrite Ha, Hl. cbn [negb].
        split; [reflexivity |]. eexists. reflexivity. }
    destruct Hclr as [Hclr Hth]. split; [exact Hclr |]. split; [| exact Hth].
    unfold stop_if_cancelled, cancelled, bind, get. rewrite Hclr. reflexivity. }
  split.
  - intros k wait s Hk. rewrite <- (after_wait_cancel wait s). unfold after_wait.
    destruct Hk as [Hk | Hk]; subst k; cbn [handle];
      unfold on_next_detail_hotkey, on_previous_detail_hotkey, on_detail_hotkey, acquire;
      destruct (capture_lock (do_moves wait (stop_current_speech s))); reflexivity.
  - split; [intros es s Hc Hes; apply run_keeps_clear; assumption |].
    split.
    + intros k wait es s Hk Ha Hl Hes.
      rewrite first_poll, run_keeps_clear; [reflexivity | exact Hes |].
      unfold after_wait in Hl.
      destruct Hk as [Hk | Hk]; subst k; cbn [handle attempts_admission] in *;
        unfold on_capture_hotkey, on_follow_up_hotkey, acquire.
      * rewrite Hl. reflexivity.
      * apply negb_true_iff in Ha. rewrite Ha, Hl. reflexivity.
    + intros wait es s Hl Hin. cbv zeta.
      assert (Hset : task_cancel_event (handle KCancelTask wait s) = true).
      { cbn [handle]. unfold on_cancel_task_hotkey.
        destruct (active_task_name s); reflexivity. }
      assert (Hth : threads (handle KCancelTask wait s) = threads s).
      { cbn [handle]. unfold on_cancel_task_hotkey.
        destruct (active_task_name s); reflexivity. }
      assert (Hlock : capture_lock (handle KCancelTask wait s) = true).
      { cbn [handle]. unfold on_cancel_task_hotkey.
        destruct (active_task_name s); exact Hl. }
      destruct (run_sticky es _ Hlock Hset Hin) as [_ Hc].
      split; [exact Hc |]. split; [| exact Hth].
      rewrite first_poll, Hc. reflexivity.
Qed.

Lemma cancellation_sticky_until_admission_witness :
  task_cancel_event
    (run [Key KStopSpeaking []; Move BeginListening; Key KNextDetail []]
         (handle KCancelTask [] (handle KFollowUp [] (init (Some "key"))))) = true.
Proof.
  exact (proj2 (proj1 cancellation_sticky_until_admission
                  [Key KStopSpeaking []; Move BeginListening; Key KNextDetail []]
                  (handle KCancelTask [] (handle KFollowUp [] (init (Some "key"))))
                  eq_refl eq_refl eq_refl)).
Defined.

(** The cancel hot-key pressed right after the capture hot-key, before
    the new thread has run its first statement: the capture session is
    the running one, and its first poll reads the token set. *)
Lemma cancel_press_before_first_poll :
  let s := run [Key KCapture []; Key KCancelTask []] (init (Some "key")) in
  sessions s = [CaptureTask]
  /\ capture_lock s = true
  /\ snd (stop_if_cancelled None s) = Returned.
Proof.
  vm_compute. repeat split; reflexivity.
Qed.

(** C2 as stated fails for navigation.  A capture task is canceled and
    ends; the next-detail hot-key is then admitted, and its session starts
    with the cancellation token still set. *)
Lemma navigation_admission_keeps_cancel_token :
  let s := run [Key KCapture []; Key KCancelTask []; Move Exit; Key KNextDetail []]
               (init (Some "key")) in
  sessions s = [NavigateTask 1]
  /\ capture_lock s = true
  /\ task_cancel_event s = true.
Proof.
  vm_compute. repeat split; reflexivity.
Qed.
(* Stop-speech *)

(** A narration call made while suppression is set changes nothing but
    the log line that records the suppression. *)
Lemma say_while_suppressed :
  forall env text interrupt repeat s,
    Speech.stop_event (speech s) = true ->
    do_move (Say env text interrupt repeat) s
    = set_speech (Speech.emit (Speech.LogInfo Speech.Suppressed) (speech s)) s.
Proof.
  intros env text interrupt repeat s H. cbn [do_move].
  unfold Speech.speak. rewrite H. reflexivity.
Qed.

(** With suppression clear and a working wave backend, a narration call
    renders its text. *)
Lemma say_when_clear :
  forall text interrupt s,
    Speech.stop_event (speech s) = false ->
    narrated (do_move (Say (fun _ => Speech.all_ok) text interrupt 1) s)
    = (narrated s ++ [text])%list.
Proof.
  intros text interrupt s H. unfold narrated. cbn [do_move speech set_speech].
  destruct (speech s) as [stop ap lg]. cbn [Speech.stop_event] in H. subst stop.
  unfold Speech.speak. cbn [Speech.stop_event Speech.active_proc].
  change (Z.to_nat (Z.max 1 1)) with 1%nat.
  destruct ap as [p |]; [destruct interrupt |];
    (rewrite SpeechProofs.speak_loop_one_ok; [| reflexivity]);
    cbn [Speech.log Speech.emit]; rewrite ?SpeechProofs.spoken_app; cbn;
    rewrite ?app_nil_r; reflexivity.
Qed.

(** An admitted session request, and the set-api-key hot-key, clear the
    suppression signal. *)
Lemma admission_clears_suppression :
  forall k wait s,
    (attempts_admission k s = true /\ capture_lock (after_wait wait s) = false)
    \/ k = KSetApiKey ->
    Speech.stop_event (speech (handle k wait s)) = false.
Proof.
  intros k wait s [[Ha Hl] | Hk].
  - unfold after_wait in Hl.
    destruct k; cbn [attempts_admission requests_session] in Ha; try discriminate;
      cbn [handle];
      unfold on_capture_hotkey, on_follow_up_hotkey, on_next_detail_hotkey,
        on_previous_detail_hotkey, on_detail_hotkey, acquire.
    + rewrite Hl. reflexivity.
    + apply negb_true_iff in Ha. rewrite Ha, Hl. reflexivity.
    + rewrite Hl. reflexivity.
    + rewrite Hl. reflexivity.
  - subst k. reflexivity.
Qed.

(** C5, as the code has it.  The stop-speech hot-key sets the suppression
    signal and leaves the cancellation token, the gate, the threads, the
    task name, the follow-up signals and the detail cursor untouched.  The
    signal is not cleared by speak: every narration call made while it is
    set renders nothing, enters no backend and leaves it set.  It is
    cleared when a capture, follow-up or navigation request is admitted
    and when the set-api-key hot-key is handled; a narration call made
    with the signal clear and a working backend renders its text. *)
Theorem stop_speech_orthogonal_until_next_trigger :
  (forall wait s,
      let s1 := handle KStopSpeaking wait s in
      Speech.stop_event (speech s1) = true
      /\ task_cancel_event s1 = task_cancel_event s
      /\ capture_lock s1 = capture_lock s
      /\ threads s1 = threads s
      /\ active_task_name s1 = active_task_name s
      /\ follow_up_listening_event s1 = follow_up_listening_event s
      /\ follow_up_submit_event s1 = follow_up_submit_event s
      /\ cursor s1 = cursor s)
  /\ (forall env text interrupt repeat s,
        Speech.stop_event (speech s) = true ->
        let s1 := do_move (Say env text interrupt repeat) s in
        Speech.stop_event (speech s1) = true
        /\ narrated s1 = narrated s
        /\ Speech.calls (Speech.log (speech s1)) = Speech.calls (Speech.log (speech s)))
  /\ (forall k wait s,
        (attempts_admission k s = true /\ capture_lock (after_wait wait s) = false)
        \/ k = KSetApiKey ->
        Speech.stop_event (speech (handle k wait s)) = false)
  /\ (forall text interrupt s,
        Speech.stop_event (speech s) = false ->
        narrated (do_move (Say (fun _ => Speech.all_ok) text interrupt 1) s)
        = (narrated s ++ [text])%list).
Proof.
  split; [| split; [| split]].
  - intros wait s. cbv zeta. repeat split.
    cbn [handle]. unfold on_stop_speaking_hotkey, stop_current_speech.
    cbn [speech out set_speech]. unfold Speech.stop_current_speech.
    cbn [Speech.active_proc Speech.set_stop].
    destruct (Speech.active_proc (speech s)); reflexivity.
  - intros env text interrupt repeat s H. cbv zeta.
    rewrite (say_while_suppressed env text interrupt repeat s H).
    unfold narrated. cbn [speech set_speech Speech.stop_event Speech.log Speech.emit].
    rewrite SpeechProofs.spoken_app, SpeechProofs.calls_app. cbn.
    rewrite !app_nil_r. repeat split. exact H.
  - exact admission_clears_suppression.
  - exact say_when_clear.
Qed.

Lemma stop_speech_orthogonal_until_next_trigger_witness :
  narrated (do_move (Say (fun _ => Speech.all_ok) "Detail 1 of 3. First part." false 1)
              (handle KNextDetail [] (handle KStopSpeaking [] (init (Some "key")))))
  = ["Detail 1 of 3. First part."].
Proof.
  exact (proj2 (proj2 (proj2 stop_speech_orthogonal_until_next_trigger))
           "Detail 1 of 3. First part." false
           (handle KNextDetail [] (handle KStopSpeaking [] (init (Some "key"))))
           (proj1 (proj2 (proj2 stop_speech_orthogonal_until_next_trigger))
              KNextDetail [] (handle KStopSpeaking [] (init (Some "key")))
              (or_introl (conj eq_refl eq_refl)))).
Defined.

(** C5 as stated fails: the signal does not clear when the next speak
    begins.  (1) After stop-speech, a narration call renders nothing and
    the signal is still set after it.  (2) Stop-speech pressed while the
    capture task waits for the model silences the whole summary: the task
    is not canceled and loads the three sections, yet none of its three
    narration calls is rendered, and the signal is still set when the task
    ends. *)
Lemma speak_after_stop_speech_is_silent :
  let s := handle KStopSpeaking [] (handle KCapture [] (init (Some "key"))) in
  let s1 := do_move (Say (fun _ => Speech.all_ok) "Summary is ready." true 1) s in
  let s2 := fst (run_thread CaptureTask (stop_pressed_during_query three_sentences)
                   (handle KCapture [] (init (Some "key")))) in
  (narrated s1 = []
   /\ Speech.calls (Speech.log (speech s1)) = []
   /\ Speech.stop_event (speech s1) = true)
  /\ (narrated s2 = []
      /\ Speech.stop_event (speech s2) = true
      /\ task_cancel_event s2 = false
      /\ Cursor.description_sections (cursor s2)
         = ["First part."; "Second part."; "Third part."]).
Proof.
  vm_compute. repeat split; reflexivity.
Qed.
End Orchestration.

(* ------------------------------------------------------------------ *)
(** ** Transcription watchdog *)

Module TranscribeProofs.
Import Transcribe.
Local Open Scope string_scope.
Local Open Scope Z_scope.

Lemma reached_later :
  forall t now later, now <= later -> reached t now = true -> reached t later = true.
Proof.
  intros [x |] now later Hle H; cbn [reached] in *; [| discriminate].
  apply Z.leb_le in H. apply Z.leb_le. lia.
Qed.

Section Watchdog.
Variable e : env.
Variable deadline : Z.

(** A finished polling loop ended at the first poll that [stops], at the
    clock reading of that poll, with the report of the branch taken. *)
Lemma poll_loop_first_stop :
  forall fuel k r,
    poll_loop fuel k e deadline (clock e k) = Finished r ->
    (k <= polls r)%nat
    /\ (polls r < k + fuel)%nat
    /\ ended_at r = clock e (polls r)
    /\ stops e deadline (ended_at r) = true
    /\ (forall j, (k <= j)%nat -> (j < polls r)%nat ->
                  stops e deadline (clock e j) = false)
    /\ (reached (exit_at e) (ended_at r) = true ->
        r = after_exit e (ended_at r) (polls r))
    /\ (reached (exit_at e) (ended_at r) = false ->
        r = mkReport None true (ended_at r) (polls r)
              (Some (if reached (cancel_at e) (ended_at r) then Canceled
                     else if reached (submit_at e) (ended_at r) then Submitted
                          else TimedOut))).
Proof.
  induction fuel as [| fuel IH]; intros k r Hrun; [discriminate |].
  cbn [poll_loop] in Hrun. unfold stops.
  destruct (reached (exit_at e) (clock e k)) eqn:Hexit.
  { injection Hrun as <-.
    assert (Hend : ended_at (after_exit e (clock e k) k) = clock e k
                   /\ polls (after_exit e (clock e k) k) = k).
    { unfold after_exit.
      destruct (reached (submit_at e) (clock e k));
        [| destruct (negb (returncode e =? 0))]; split; reflexivity. }
    destruct Hend as [He Hp]. rewrite He, Hp, Hexit.
    split; [lia |]. split; [lia |]. split; [reflexivity |].
    split; [reflexivity |]. split; [intros j H1 H2; lia |].
    split; [reflexivity | discriminate]. }
  destruct (reached (cancel_at e) (clock e k)) eqn:Hcancel.
  { injection Hrun as <-. cbn [ended_at polls]. rewrite Hexit, Hcancel.
    split; [lia |]. split; [lia |]. split; [reflexivity |].
    split; [reflexivity |]. split; [intros j H1 H2; lia |].
    split; [discriminate | reflexivity]. }
  destruct (reached (submit_at e) (clock e k)) eqn:Hsubmit.
  { injection Hrun as <-. cbn [ended_at polls]. rewrite Hexit, Hcancel, Hsubmit.
    split; [lia |]. split; [lia |]. split; [reflexivity |].
    split; [reflexivity |]. split; [intros j H1 H2; lia |].
    split; [discriminate | reflexivity]. }
  destruct (deadline <? clock e k) eqn:Hlate.
  { injection Hrun as <-. cbn [ended_at polls].
    rewrite Hexit, Hcancel, Hsubmit, Hlate.
    split; [lia |]. split; [lia |]. split; [reflexivity |].
    split; [reflexivity |]. split; [intros j H1 H2; lia |].
    split; [discriminate | reflexivity]. }
  change (clock e k + sleep_ms e k) with (clock e (S k)) in Hrun.
  destruct (IH (S k) r Hrun) as [Hk [Hp [He [Hstop [Hfirst Hrest]]]]].
  split; [lia |]. split; [lia |]. split; [exact He |].
  split; [exact Hstop |]. split; [| exact Hrest].
  intros j H1 H2. destruct (Nat.eq_dec j k) as [-> | Hne].
  - rewrite Hexit, Hcancel, Hsubmit, Hlate. reflexivity.
  - apply Hfirst; lia.
Qed.

(** The loop ends when some poll [stops]. *)
Lemma poll_loop_total :
  forall fuel k n,
    stops e deadline (clock e n) = true ->
    (k <= n)%nat -> (n - k < fuel)%nat ->
    exists r, poll_loop fuel k e deadline (clock e k) = Finished r.
Proof.
  induction fuel as [| fuel IH]; intros k n Hn Hk Hfuel; [lia |].
  cbn [poll_loop].
  destruct (reached (exit_at e) (clock e k)) eqn:Hexit; [eexists; reflexivity |].
  destruct (reached (cancel_at e) (clock e k)) eqn:Hcancel; [eexists; reflexivity |].
  destruct (reached (submit_at e) (clock e k)) eqn:Hsubmit; [eexists; reflexivity |].
  destruct (deadline <? clock e k) eqn:Hlate; [eexists; reflexivity |].
  assert (Hne : n <> k).
  { intros ->. unfold stops in Hn.
    rewrite Hexit, Hcancel, Hsubmit, Hlate in Hn. discriminate. }
  change (clock e k + sleep_ms e k) with (clock e (S k)).
  apply (IH (S k) n Hn); lia.
Qed.

(** More fuel does not change a finished loop. *)
Lemma poll_loop_fuel :
  forall fuel k now r,
    poll_loop fuel k e deadline now = Finished r ->
    forall fuel', (fuel <= fuel')%nat ->
                  poll_loop fuel' k e deadline now = Finished r.
Proof.
  induction fuel as [| fuel IH]; intros k now r Hrun fuel' Hle; [discriminate |].
  destruct fuel' as [| fuel']; [lia |].
  cbn [poll_loop] in *.
  destruct (reached (exit_at e) now); [exact Hrun |].
  destruct (reached (cancel_at e) now); [exact Hrun |].
  destruct (reached (submit_at e) now); [exact Hrun |].
  destruct (deadline <? now); [exact Hrun |].
  apply (IH _ _ _ Hrun). lia.
Qed.

Hypothesis sleeps : forall k, 50 <= sleep_ms e k.

Lemma clock_step : forall j k, (j <= k)%nat -> clock e j + 50 * Z.of_nat (k - j) <= clock e k.
Proof.
  intros j k Hle. induction k as [| k IH].
  - assert (j = 0)%nat as -> by lia. cbn. lia.
  - destruct (Nat.eq_dec j (S k)) as [-> | Hne].
    + rewrite Nat.sub_diag. lia.
    + cbn [clock]. pose proof (sleeps k) as Hs.
      assert (Hjk : (j <= k)%nat) by lia. specialize (IH Hjk).
      replace (S k - j)%nat with (S (k - j)) by lia. lia.
Qed.

Lemma clock_monotone : forall j k, (j <= k)%nat -> clock e j <= clock e k.
Proof. intros j k Hle. pose proof (clock_step j k Hle). lia. Qed.
End Watchdog.

(** With sleeps of at least 50 ms the clock is past the deadline at poll
    number deadline/50 + 1. *)
Lemma enough_polls_suffice :
  forall timeout e,
    (forall k, 50 <= sleep_ms e k) ->
    exists n, enough_polls timeout = S n
              /\ deadline_seconds timeout * 1000 < clock e n.
Proof.
  intros timeout e Hs. unfold enough_polls.
  assert (Hd : 12 <= deadline_seconds timeout) by (unfold deadline_seconds; lia).
  set (d := deadline_seconds timeout * 1000) in *.
  assert (H0 : 0 <= d / 50) by (apply Z.div_pos; lia).
  exists (Z.to_nat (d / 50) + 1)%nat. split; [lia |].
  pose proof (clock_step e Hs 0 (Z.to_nat (d / 50) + 1) ltac:(lia)) as Hc.
  cbn [clock] in Hc. rewrite Nat.sub_0_r, Nat2Z.inj_add, Z2Nat.id in Hc by exact H0.
  pose proof (Z.mul_succ_div_gt d 50 ltac:(lia)) as Hdiv.
  change (Z.of_nat 1) with 1 in Hc. lia.
Qed.

(** C10, as the code has it.  The deadline of an attempt is
    max(timeout_seconds + 5, 12) seconds after the launch, and it is
    looked at only when the loop polls.  Whatever the fuel, a finished
    attempt ended at the first poll at which the process has exited, a
    signal reads set or the clock reads past the deadline, at the clock
    reading of that poll; if the process has exited by then the attempt
    goes on to the output, otherwise it has terminated the process and
    returns None.  The attempt returns as soon as one poll finds the clock
    past the deadline.  When every sleep lasts at least its 50 ms, that
    happens within deadline/50 + 2 polls: a process still running at a
    poll past the deadline has been terminated by then, with None
    returned; a hanging process nobody interrupts is ended by the
    watchdog at the first poll past the deadline, one sleep after a poll
    that was still within it. *)
Theorem transcription_watchdog :
  forall timeout e,
    let deadline := deadline_seconds timeout * 1000 in
    deadline_seconds timeout = Z.max (timeout + 5) 12
    /\ (launch_raises e = true ->
        forall fuel,
          transcribe_from_microphone fuel timeout e
          = Finished (mkReport None false 0 0 (Some LaunchError)))
    /\ (launch_raises e = false ->
        forall fuel r,
          transcribe_from_microphone fuel timeout e = Finished r ->
          (polls r < fuel)%nat
          /\ ended_at r = clock e (polls r)
          /\ stops e deadline (ended_at r) = true
          /\ (forall j, (j < polls r)%nat -> stops e deadline (clock e j) = false)
          /\ (reached (exit_at e) (ended_at r) = true ->
              r = after_exit e (ended_at r) (polls r))
          /\ (reached (exit_at e) (ended_at r) = false ->
              result r = None /\ terminated r = true
              /\ logged r
                 = Some (if reached (cancel_at e) (ended_at r) then Canceled
                         else if reached (submit_at e) (ended_at r) then Submitted
                              else TimedOut))
          /\ (logged r = Some TimedOut ->
              deadline < ended_at r /\ result r = None /\ terminated r = true))
    /\ (launch_raises e = false ->
        forall n, deadline < clock e n ->
                  exists r,
                    transcribe_from_microphone (S n) timeout e = Finished r
                    /\ (polls r <= n)%nat)
    /\ ((forall k, 50 <= sleep_ms e k) ->
        exists r,
          (forall fuel, (enough_polls timeout <= fuel)%nat ->
                        transcribe_from_microphone fuel timeout e = Finished r)
          /\ (polls r < enough_polls timeout)%nat
          /\ (launch_raises e = false ->
              forall n, deadline < clock e n ->
                        reached (exit_at e) (clock e n) = false ->
                        result r = None /\ terminated r = true
                        /\ ended_at r <= clock e n)
          /\ (launch_raises e = false ->
              exit_at e = None -> cancel_at e = None -> submit_at e = None ->
              result r = None /\ terminated r = true
              /\ logged r = Some TimedOut
              /\ exists j, polls r = S j
                           /\ clock e j <= deadline
                           /\ deadline < ended_at r
                           /\ ended_at r = clock e j + sleep_ms e j)).
Proof.
  intros timeout e deadline.
  split; [reflexivity |].
  split.
  { intros Hl fuel. unfold transcribe_from_microphone. rewrite Hl. reflexivity. }
  assert (Hpinned :
            launch_raises e = false ->
            forall fuel r,
              transcribe_from_microphone fuel timeout e = Finished r ->
              (polls r < fuel)%nat
              /\ ended_at r = clock e (polls r)
              /\ stops e deadline (ended_at r) = true
              /\ (forall j, (j < polls r)%nat -> stops e deadline (clock e j) = false)
              /\ (reached (exit_at e) (ended_at r) = true ->
                  r = after_exit e (ended_at r) (polls r))
              /\ (reached (exit_at e) (ended_at r) = false ->
                  result r = None /\ terminated r = true
                  /\ logged r
                     = Some (if reached (cancel_at e) (ended_at r) then Canceled
                             else if reached (submit_at e) (ended_at r) then Submitted
                                  else TimedOut))
              /\ (logged r = Some TimedOut ->
                  deadline < ended_at r /\ result r = None /\ terminated r = true)).
  { intros Hl fuel r Hrun. unfold transcribe_from_microphone in Hrun.
    rewrite Hl in Hrun. fold deadline in Hrun.
    change 0 with (clock e 0) in Hrun.
    destruct (poll_loop_first_stop e deadline fuel 0 r Hrun)
      as [_ [Hp [He [Hstop [Hfirst [Hexit Hterm]]]]]].
    split; [exact Hp |]. split; [exact He |]. split; [exact Hstop |].
    split; [intros j Hj; apply Hfirst; [lia | exact Hj] |].
    split; [exact Hexit |].
    assert (Hrunning : reached (exit_at e) (ended_at r) = false ->
                       result r = None /\ terminated r = true
                       /\ logged r
                          = Some (if reached (cancel_at e) (ended_at r) then Canceled
                                  else if reached (submit_at e) (ended_at r)
                                       then Submitted else TimedOut)).
    { intros Hx. rewrite (Hterm Hx). cbn [result terminated logged ended_at].
      repeat split; reflexivity. }
    split; [exact Hrunning |].
    intros Htimed.
    destruct (reached (exit_at e) (ended_at r)) eqn:Hx.
    - exfalso. rewrite (Hexit eq_refl) in Htimed. unfold after_exit in Htimed.
      destruct (reached (submit_at e) (ended_at r));
        [| destruct (negb (returncode e =? 0))]; discriminate.
    - destruct (Hrunning eq_refl) as [Hres [Hter Hlog]].
      split; [| split; assumption].
      rewrite Htimed in Hlog. unfold stops in Hstop. rewrite Hx in Hstop.
      destruct (reached (cancel_at e) (ended_at r)); [discriminate |].
      destruct (reached (submit_at e) (ended_at r)); [discriminate |].
      cbn [orb] in Hstop. apply Z.ltb_lt. exact Hstop. }
  split; [exact Hpinned |].
  assert (Htotal :
            launch_raises e = false ->
            forall n, deadline < clock e n ->
                      exists r,
                        transcribe_from_microphone (S n) timeout e = Finished r
                        /\ (polls r <= n)%nat).
  { intros Hl n Hn.
    assert (Hstop : stops e deadline (clock e n) = true).
    { unfold stops. apply Z.ltb_lt in Hn. rewrite Hn. apply orb_true_r. }
    destruct (poll_loop_total e deadline (S n) 0 n Hstop ltac:(lia) ltac:(lia))
      as [r Hrun].
    assert (Hrun' : transcribe_from_microphone (S n) timeout e = Finished r).
    { unfold transcribe_from_microphone. rewrite Hl. exact Hrun. }
    exists r. split; [exact Hrun' |].
    destruct (Hpinned Hl _ _ Hrun') as [_ [_ [_ [Hfirst _]]]].
    destruct (Nat.le_gt_cases (polls r) n) as [Hle | Hgt]; [exact Hle |].
    rewrite (Hfirst n Hgt) in Hstop. discriminate. }
  split; [exact Htotal |].
  intros Hs.
  destruct (enough_polls_suffice timeout e Hs) as [n [Hfuel Hn]].
  fold deadline in Hn.
  destruct (launch_raises e) eqn:Hl.
  { exists (mkReport None false 0 0 (Some LaunchError)).
    split.
    { intros fuel _. unfold transcribe_from_microphone. rewrite Hl. reflexivity. }
    cbn [polls]. split; [lia |]. split; discriminate. }
  destruct (Htotal eq_refl n Hn) as [r [Hrun Hp]].
  destruct (Hpinned eq_refl _ _ Hrun) as [_ [He [Hstop [Hfirst [_ [Hrunning _]]]]]].
  exists r.
  split.
  { intros fuel Hle. unfold transcribe_from_microphone in *. rewrite Hl in *.
    apply (poll_loop_fuel e _ _ _ _ _ Hrun). lia. }
  split; [lia |].
  split.
  { intros _ m Hm Hx.
    assert (Hstopm : stops e deadline (clock e m) = true).
    { unfold stops. apply Z.ltb_lt in Hm. rewrite Hm. apply orb_true_r. }
    assert (Hpm : (polls r <= m)%nat).
    { destruct (Nat.le_gt_cases (polls r) m) as [Hle | Hgt]; [exact Hle |].
      rewrite (Hfirst m Hgt) in Hstopm. discriminate. }
    pose proof (clock_monotone e Hs _ _ Hpm) as Hmono. rewrite <- He in Hmono.
    assert (Hx' : reached (exit_at e) (ended_at r) = false).
    { destruct (reached (exit_at e) (ended_at r)) eqn:Hr; [| reflexivity].
      rewrite (reached_later _ _ _ Hmono Hr) in Hx. discriminate. }
    destruct (Hrunning Hx') as [Hres [Hter _]].
    split; [exact Hres |]. split; [exact Hter | exact Hmono]. }
  intros _ Hx Hc Hsub.
  assert (Hx' : reached (exit_at e) (ended_at r) = false) by (rewrite Hx; reflexivity).
  destruct (Hrunning Hx') as [Hres [Hter Hlog]].
  rewrite Hc, Hsub in Hlog. cbn [reached] in Hlog.
  split; [exact Hres |]. split; [exact Hter |]. split; [exact Hlog |].
  unfold stops in Hstop. rewrite Hx, Hc, Hsub in Hstop. cbn [reached orb] in Hstop.
  apply Z.ltb_lt in Hstop.
  assert (Hd : 12 <= deadline_seconds timeout) by (unfold deadline_seconds; lia).
  destruct (polls r) as [| j] eqn:Hpolls.
  { exfalso. rewrite He in Hstop. cbn [clock] in Hstop. unfold deadline in Hstop. lia. }
  exists j. split; [reflexivity |].
  assert (Hj : stops e deadline (clock e j) = false) by (apply Hfirst; lia).
  unfold stops in Hj. apply orb_false_elim in Hj. destruct Hj as [_ Hj].
  apply Z.ltb_ge in Hj.
  split; [exact Hj |]. split; [exact Hstop |].
  rewrite He. reflexivity.
Qed.

Lemma transcription_watchdog_witness :
  exists r,
    transcribe_from_microphone (enough_polls 3) 3 hanging = Finished r
    /\ result r = None
    /\ terminated r = true
    /\ logged r = Some TimedOut.
Proof.
  destruct (proj2 (proj2 (proj2 (proj2 (transcription_watchdog 3 hanging))))
              (fun _ => ltac:(cbn; lia)))
    as [r [Hrun [_ [_ Hhang]]]].
  destruct (Hhang eq_refl eq_refl eq_refl eq_refl) as [Hres [Hter [Hlog _]]].
  exists r. split; [apply Hrun; apply Nat.le_refl |].
  split; [exact Hres |]. split; [exact Hter | exact Hlog].
Defined.

(** C10 as stated fails between two polls.  With a timeout of 3 seconds
    the deadline is 12 seconds; a process that is still running at the
    deadline and exits 20 ms later, before the next poll looks at the
    clock, is not terminated, and the attempt returns its transcript. *)
Lemma exit_between_deadline_and_poll_is_accepted :
  deadline_seconds 3 * 1000 = 12000
  /\ reached (exit_at exits_after_deadline) 12000 = false
  /\ transcribe_from_microphone (enough_polls 3) 3 exits_after_deadline
     = Finished (mkReport (Some "what time is it") false 12050 241 None).
Proof.
  vm_compute. repeat split; reflexivity.
Qed.
End TranscribeProofs.

(* ------------------------------------------------------------------ *)
(** ** Dictation recorder *)

Module RecorderProofs.
Import Recorder.
Local Open Scope string_scope.
Local Open Scope Z_scope.

(** The loop with the cancellation token set at its head. *)
Lemma record_loop_cancelled :
  forall script max chunk chunks st,
    elapsed_ms st < max * 1000 ->
    task_cancel_event st = true ->
    record_loop script max chunk chunks st = (st, Returned None).
Proof.
  intros script max chunk chunks st Ht Hc.
  destruct script; cbn [record_loop];
    (destruct (Z.ltb_spec (elapsed_ms st) (max * 1000)); [| lia]);
    rewrite Hc; reflexivity.
Qed.

(** The loop with the submit signal set at its head and no cancellation. *)
Lemma record_loop_submitted :
  forall script max chunk chunks st,
    task_cancel_event st = false ->
    follow_up_submit_event st = true ->
    record_loop script max chunk chunks st = (st, Returned (finalize chunks)).
Proof.
  intros script max chunk chunks st Hc Hs.
  destruct script; cbn [record_loop];
    destruct (elapsed_ms st <? max * 1000); rewrite ?Hc, ?Hs; reflexivity.
Qed.

(** One attempt during which a signal is set, started with both signals
    clear and time left. *)
Lemma record_loop_attempt :
  forall a script max chunk chunks st,
    elapsed_ms st < max * 1000 ->
    task_cancel_event st = false ->
    follow_up_submit_event st = false ->
    let timeout := Z.max 1 (Z.min chunk (max - Z.quot (elapsed_ms st) 1000)) in
    let st' := run_attempt timeout a st in
    record_loop (a :: script) max chunk chunks st
    = if cancel_during a then (st', Returned None)
      else if submit_during a then
             (st', Returned (finalize (accumulate chunks (heard a))))
           else record_loop script max chunk (accumulate chunks (heard a)) st'.
Proof.
  intros a script max chunk chunks st Ht Hc Hs. cbv zeta.
  cbn [record_loop].
  destruct (Z.ltb_spec (elapsed_ms st) (max * 1000)); [| lia].
  rewrite Hc, Hs. cbn [run_attempt task_cancel_event follow_up_submit_event].
  rewrite Hc, Hs. cbn [orb].
  destruct (cancel_during a); [reflexivity |].
  destruct (submit_during a); reflexivity.
Qed.

(** Nothing heard: every attempt of the script is silent and the script
    covers the remaining time. *)
Lemma record_loop_silence :
  forall script max chunk st,
    forallb silent script = true ->
    task_cancel_event st = false ->
    follow_up_submit_event st = false ->
    max * 1000 <= elapsed_ms st + total_ms script ->
    exists st',
      record_loop script max chunk [] st = (st', Returned None)
      /\ task_cancel_event st' = false
      /\ max * 1000 <= elapsed_ms st'.
Proof.
  induction script as [| a script IH]; intros max chunk st Hsil Hc Hs Hlen.
  - cbn [total_ms fold_right] in Hlen. cbn [record_loop].
    destruct (Z.ltb_spec (elapsed_ms st) (max * 1000)); [lia |].
    exists st. repeat split; [exact Hc | lia].
  - cbn [forallb] in Hsil. apply andb_prop in Hsil. destruct Hsil as [Ha Hrest].
    unfold silent in Ha. destruct (heard a) eqn:Hh; [discriminate |].
    apply andb_prop in Ha. destruct Ha as [Ha Htook].
    apply andb_prop in Ha. destruct Ha as [Hca Hsa].
    apply negb_true_iff in Hca. apply negb_true_iff in Hsa.
    apply Z.leb_le in Htook.
    destruct (Z.ltb_spec (elapsed_ms st) (max * 1000)) as [Hleft | Hdone].
    + rewrite (record_loop_attempt a script max chunk [] st Hleft Hc Hs).
      rewrite Hca, Hsa, Hh. cbn [accumulate].
      apply IH.
      * exact Hrest.
      * cbn [run_attempt task_cancel_event]. rewrite Hc, Hca. reflexivity.
      * cbn [run_attempt follow_up_submit_event]. rewrite Hs, Hsa. reflexivity.
      * cbn [run_attempt elapsed_ms]. cbn [total_ms fold_right] in Hlen.
        fold (total_ms script) in Hlen. lia.
    + cbn [record_loop].
      destruct (Z.ltb_spec (elapsed_ms st) (max * 1000)); [lia |].
      exists st. repeat split; [exact Hc | lia].
Qed.

(** C6.  When the cancellation token is read set, at the head of the
    loop or right after an attempt, record aborts: it returns None at
    once, without a further attempt and whatever was heard so far, and
    leaves the token set, so that the caller, which reads the token
    first, reports the cancellation.  When every attempt hears nothing
    and the maximum duration elapses, record returns None with the token
    clear, and the caller reports that it did not understand.  The two
    outcomes are distinct results: they differ in the token. *)
Theorem dictation_cancel_returns_none :
  (forall script max chunk chunks st,
      elapsed_ms st < max * 1000 ->
      task_cancel_event st = true ->
      record_loop script max chunk chunks st = (st, Returned None)
      /\ caller_verdict (record_loop script max chunk chunks st) = Some SaysCanceled)
  /\ (forall a script max chunk chunks st,
        elapsed_ms st < max * 1000 ->
        task_cancel_event st = false ->
        follow_up_submit_event st = false ->
        cancel_during a = true ->
        let r := record_loop (a :: script) max chunk chunks st in
        snd r = Returned None
        /\ task_cancel_event (fst r) = true
        /\ timeouts (fst r)
           = (timeouts st
                ++ [Z.max 1 (Z.min chunk (max - Z.quot (elapsed_ms st) 1000))])%list
        /\ caller_verdict r = Some SaysCanceled)
  /\ (forall script max chunk st,
        forallb silent script = true ->
        max * 1000 <= total_ms script ->
        task_cancel_event st = false ->
        follow_up_submit_event st = false ->
        let r := record_follow_up_question script max chunk st in
        snd r = Returned None
        /\ task_cancel_event (fst r) = false
        /\ caller_verdict r = Some SaysNotUnderstood)
  /\ (forall canceled nothing_heard,
        caller_verdict canceled = Some SaysCanceled ->
        caller_verdict nothing_heard = Some SaysNotUnderstood ->
        task_cancel_event (fst canceled) = true
        /\ task_cancel_event (fst nothing_heard) = false
        /\ canceled <> nothing_heard).
Proof.
  split.
  { intros script max chunk chunks st Ht Hc.
    rewrite (record_loop_cancelled script max chunk chunks st Ht Hc).
    split; [reflexivity |]. unfold caller_verdict. cbn [fst snd].
    rewrite Hc. reflexivity. }
  split.
  { intros a script max chunk chunks st Ht Hc Hs Ha. cbv zeta.
    rewrite (record_loop_attempt a script max chunk chunks st Ht Hc Hs).
    rewrite Ha. unfold caller_verdict.
    cbn [fst snd run_attempt task_cancel_event timeouts].
    rewrite Ha, orb_true_r. repeat split; reflexivity. }
  split.
  { intros script max chunk st Hsil Hlen Hc Hs. cbv zeta.
    unfold record_follow_up_question. rewrite Hc, Hs.
    destruct (record_loop_silence script max chunk (mkState false false 0 (timeouts st))
                Hsil eq_refl eq_refl) as [st' [Heq [Hc' _]]].
    { cbn [elapsed_ms]. lia. }
    rewrite Heq. unfold caller_verdict. cbn [fst snd]. rewrite Hc'.
    repeat split; reflexivity. }
  intros canceled nothing_heard H1 H2.
  assert (Hc1 : task_cancel_event (fst canceled) = true).
  { unfold caller_verdict in H1. destruct (snd canceled) as [t |]; [| discriminate].
    destruct (task_cancel_event (fst canceled)); [reflexivity |].
    destruct t as [t |]; [destruct (PyStr.truthy t) |]; discriminate. }
  assert (Hc2 : task_cancel_event (fst nothing_heard) = false).
  { unfold caller_verdict in H2. destruct (snd nothing_heard) as [t |]; [| discriminate].
    destruct (task_cancel_event (fst nothing_heard)); [discriminate | reflexivity]. }
  split; [exact Hc1 |]. split; [exact Hc2 |].
  intros Heq. rewrite Heq, Hc2 in Hc1. discriminate.
Qed.

Lemma dictation_cancel_returns_none_witness :
  let r := record_loop [mkAttempt (Some "what is") 1000 true true] 30 3 [] start in
  snd r = Returned None
  /\ task_cancel_event (fst r) = true
  /\ timeouts (fst r) = [3]
  /\ caller_verdict r = Some SaysCanceled.
Proof.
  exact (proj1 (proj2 dictation_cancel_returns_none)
           (mkAttempt (Some "what is") 1000 true true) [] 30 3 [] start
           eq_refl eq_refl eq_refl eq_refl).
Defined.

(** C7, as the code has it.  With at least one accumulated chunk, when the
    submit signal is read set while the cancellation token is clear, at the
    head of the loop or right after an attempt, the loop stops: no further
    attempt is made, whatever time is left, and record returns the
    accumulated chunks joined with single spaces.  When the cancellation
    token is set as well, record returns None. *)
Theorem dictation_early_submit :
  (forall script max chunk chunks st,
      chunks <> [] ->
      task_cancel_event st = false ->
      follow_up_submit_event st = true ->
      record_loop script max chunk chunks st
      = (st, Returned (Some (PyStr.join_spaces chunks))))
  /\ (forall a script max chunk chunks st,
        chunks <> [] ->
        elapsed_ms st < max * 1000 ->
        task_cancel_event st = false ->
        follow_up_submit_event st = false ->
        cancel_during a = false ->
        submit_during a = true ->
        let r := record_loop (a :: script) max chunk chunks st in
        snd r = Returned (Some (PyStr.join_spaces (accumulate chunks (heard a))))
        /\ timeouts (fst r)
           = (timeouts st
                ++ [Z.max 1 (Z.min chunk (max - Z.quot (elapsed_ms st) 1000))])%list
        /\ (heard a = None -> snd r = Returned (Some (PyStr.join_spaces chunks))))
  /\ (forall script max chunk chunks st,
        elapsed_ms st < max * 1000 ->
        task_cancel_event st = true ->
        follow_up_submit_event st = true ->
        record_loop script max chunk chunks st = (st, Returned None)).
Proof.
  split.
  { intros script max chunk chunks st Hne Hc Hs.
    rewrite (record_loop_submitted script max chunk chunks st Hc Hs).
    destruct chunks; [contradiction | reflexivity]. }
  split.
  { intros a script max chunk chunks st Hne Ht Hc Hs Hca Hsa. cbv zeta.
    rewrite (record_loop_attempt a script max chunk chunks st Ht Hc Hs).
    rewrite Hca, Hsa. cbn [fst snd run_attempt timeouts].
    assert (Hacc : accumulate chunks (heard a) <> []).
    { unfold accumulate. destruct (heard a) as [c |]; [| exact Hne].
      destruct (PyStr.truthy c); [| exact Hne].
      destruct (PyStr.truthy (PyStr.strip c)); [| exact Hne].
      destruct chunks; discriminate. }
    split.
    - destruct (accumulate chunks (heard a)); [contradiction | reflexivity].
    - split; [reflexivity |]. intros Hh. rewrite Hh. cbn [accumulate].
      destruct chunks; [contradiction | reflexivity]. }
  intros script max chunk chunks st Ht Hc _.
  apply record_loop_cancelled; assumption.
Qed.

Lemma dictation_early_submit_witness :
  record_loop [says "never asked" 3000] 30 3 ["what is"; "on screen"]
              (mkState false true 6000 [3; 3])
  = (mkState false true 6000 [3; 3], Returned (Some "what is on screen")).
Proof.
  exact (proj1 dictation_early_submit [says "never asked" 3000] 30 3
           ["what is"; "on screen"] (mkState false true 6000 [3; 3])
           ltac:(discriminate) eq_refl eq_refl).
Defined.

(** C7 as stated fails when the submit signal is set by the cancel
    hot-key, which sets the cancellation token too: with one chunk
    accumulated, record returns None and not the chunk. *)
Lemma submit_with_cancel_returns_nothing :
  let pressed := App.on_cancel_task_hotkey (App.init (Some "key")) in
  let r := record_follow_up_question
             [says "hello" 3000; mkAttempt None 100 true true] 30 3 start in
  App.follow_up_submit_event pressed = true
  /\ App.task_cancel_event pressed = true
  /\ follow_up_submit_event (fst r) = true
  /\ snd r = Returned None
  /\ snd r <> Returned (Some "hello").
Proof.
  vm_compute. repeat split; try reflexivity. discriminate.
Qed.
End RecorderProofs.

(* ------------------------------------------------------------------ *)
(** ** Normalized text, stored sections and summary *)

Module TextProofs.
Import PyStr Text Shape.
Local Open Scope string_scope.
Local Open Scope Z_scope.

Lemma lstrip_head :
  forall s c r, lstrip s = String c r -> isspace c = false.
Proof.
  induction s as [| a s IH]; intros c r H; cbn [lstrip] in H; [discriminate |].
  destruct (isspace a) eqn:Ha.
  - eapply IH. exact H.
  - injection H as <- _. exact Ha.
Qed.

Lemma rstrip_idempotent : forall s, rstrip (rstrip s) = rstrip s.
Proof.
  induction s as [| c s IH]; cbn [rstrip]; [reflexivity |].
  destruct (rstrip s) as [| b r] eqn:Hr.
  - destruct (isspace c) eqn:Hc; cbn [rstrip]; [reflexivity |].
    rewrite Hc. reflexivity.
  - cbn [rstrip]. cbn [rstrip] in IH. rewrite IH. reflexivity.
Qed.

Lemma rstrip_keeps_head :
  forall c s, isspace c = false -> exists r, rstrip (String c s) = String c r.
Proof.
  intros c s Hc. cbn [rstrip]. destruct (rstrip s).
  - rewrite Hc. eexists. reflexivity.
  - eexists. reflexivity.
Qed.

Lemma lstrip_of_stripped : forall s, lstrip (strip s) = strip s.
Proof.
  intros s. unfold strip. destruct (lstrip s) as [| c r] eqn:Hl; [reflexivity |].
  pose proof (lstrip_head s c r Hl) as Hc.
  destruct (rstrip_keeps_head c r Hc) as [r' Hr]. rewrite Hr.
  cbn [lstrip]. rewrite Hc. reflexivity.
Qed.

(** [strip] removes all leading and trailing whitespace: stripping again
    changes nothing. *)
Lemma strip_idempotent : forall s, strip (strip s) = strip s.
Proof.
  intros s. unfold strip at 1. rewrite lstrip_of_stripped.
  unfold strip. apply rstrip_idempotent.
Qed.

Lemma all_chars_weaken :
  forall (p q : ascii -> bool) s,
    (forall c, p c = true -> q c = true) ->
    all_chars p s = true -> all_chars q s = true.
Proof.
  intros p q s Hpq. induction s as [| c s IH]; cbn [all_chars]; [reflexivity |].
  intros H. apply andb_prop in H. destruct H as [Hc Hs].
  rewrite (Hpq c Hc), (IH Hs). reflexivity.
Qed.

Lemma all_chars_lstrip :
  forall p s, all_chars p s = true -> all_chars p (lstrip s) = true.
Proof.
  intros p. induction s as [| c s IH]; cbn [lstrip all_chars]; [reflexivity |].
  intros H. destruct (isspace c); [| exact H].
  apply andb_prop in H. apply IH. apply H.
Qed.

Lemma all_chars_rstrip :
  forall p s, all_chars p s = true -> all_chars p (rstrip s) = true.
Proof.
  intros p. induction s as [| c s IH]; cbn [rstrip all_chars]; [reflexivity |].
  intros H. apply andb_prop in H. destruct H as [Hc Hs]. specialize (IH Hs).
  destruct (rstrip s) as [| b r].
  - destruct (isspace c); cbn [all_chars]; [reflexivity |]. rewrite Hc. reflexivity.
  - cbn [all_chars] in *. rewrite Hc, IH. reflexivity.
Qed.

Lemma all_chars_sub_runs :
  forall (p q : ascii -> bool) s inrun,
    q " "%char = true ->
    all_chars (fun c => p c || q c) s = true ->
    all_chars q (sub_runs p inrun s) = true.
Proof.
  intros p q s. induction s as [| c s IH]; intros inrun Hq H;
    cbn [sub_runs all_chars] in *; [reflexivity |].
  apply andb_prop in H. destruct H as [Hc Hs].
  destruct (p c) eqn:Hp.
  - destruct inrun; cbn [all_chars]; rewrite ?Hq; apply IH; assumption.
  - cbn [orb] in Hc. cbn [all_chars]. rewrite Hc. apply IH; assumption.
Qed.

Lemma all_chars_true : forall s, all_chars (fun _ => true) s = true.
Proof. induction s as [| c s IH]; cbn [all_chars]; [reflexivity | exact IH]. Qed.

Lemma collapsed_single_spaced :
  forall s inrun,
    single_spaced (sub_runs isspace inrun s) = true
    /\ (inrun = true -> starts_with_blank (sub_runs isspace inrun s) = false).
Proof.
  induction s as [| c s IH]; intros inrun; cbn [sub_runs].
  - split; reflexivity.
  - destruct (isspace c) eqn:Hc.
    + destruct inrun.
      * apply IH.
      * destruct (IH true) as [H1 H2]. split; [| discriminate].
        cbn [single_spaced]. rewrite (H2 eq_refl), H1. reflexivity.
    + assert (Hb : Ascii.eqb c " "%char = false).
      { destruct (Ascii.eqb_spec c " "%char) as [-> |]; [| reflexivity].
        vm_compute in Hc. discriminate. }
      destruct (IH false) as [H1 _]. split.
      * cbn [single_spaced]. rewrite Hb, H1. reflexivity.
      * intros _. cbn [starts_with_blank]. exact Hb.
Qed.

Lemma single_spaced_tail :
  forall c s, single_spaced (String c s) = true -> single_spaced s = true.
Proof.
  intros c s H. cbn [single_spaced] in H. apply andb_prop in H. apply H.
Qed.

Lemma single_spaced_lstrip :
  forall s, single_spaced s = true -> single_spaced (lstrip s) = true.
Proof.
  induction s as [| c s IH]; cbn [lstrip]; intros H; [reflexivity |].
  destruct (isspace c); [| exact H].
  apply IH. eapply single_spaced_tail. exact H.
Qed.

Lemma rstrip_starts_with_blank :
  forall s, starts_with_blank (rstrip s) = true -> starts_with_blank s = true.
Proof.
  intros [| c s]; cbn [rstrip starts_with_blank]; [discriminate |].
  destruct (rstrip s).
  - destruct (isspace c); cbn [starts_with_blank]; [discriminate | auto].
  - cbn [starts_with_blank]. auto.
Qed.

Lemma single_spaced_rstrip :
  forall s, single_spaced s = true -> single_spaced (rstrip s) = true.
Proof.
  induction s as [| c s IH]; intros H; [reflexivity |].
  cbn [single_spaced] in H. apply andb_prop in H. destruct H as [Hc Hs].
  specialize (IH Hs). cbn [rstrip].
  destruct (rstrip s) as [| b r] eqn:Hr.
  - destruct (isspace c); [reflexivity |].
    cbn [single_spaced starts_with_blank]. rewrite andb_false_r. reflexivity.
  - change (single_spaced (String c (String b r)) = true).
    cbn [single_spaced starts_with_blank]. cbn [single_spaced] in IH. rewrite IH.
    rewrite andb_true_r.
    destruct (Ascii.eqb c " "%char) eqn:Hcb; [| reflexivity]. cbn [andb negb] in *.
    destruct (Ascii.eqb b " "%char) eqn:Hbb; [| reflexivity].
    assert (Hsb : starts_with_blank s = true).
    { apply rstrip_starts_with_blank. rewrite Hr. exact Hbb. }
    rewrite Hsb in Hc. discriminate.
Qed.

(** The text handed to the speech pipeline holds no markup character and
    no whitespace but single blanks between words. *)
Theorem normalized_text_is_clean :
  forall text,
    all_chars speakable (normalize_for_speech text) = true
    /\ single_spaced (normalize_for_speech text) = true
    /\ strip (normalize_for_speech text) = normalize_for_speech text.
Proof.
  intros text. unfold normalize_for_speech.
  split; [| split].
  - apply all_chars_rstrip, all_chars_lstrip.
    apply all_chars_sub_runs; [reflexivity |].
    apply (all_chars_weaken (fun c => negb (is_markup c))).
    + intros c Hc. unfold speakable. rewrite Hc. cbn [andb].
      destruct (isspace c); reflexivity.
    + apply all_chars_sub_runs; [reflexivity |].
      apply (all_chars_weaken (fun _ => true)); [| apply all_chars_true].
      intros c _. destruct (is_markup c); reflexivity.
  - apply single_spaced_rstrip, single_spaced_lstrip.
    apply collapsed_single_spaced.
  - apply strip_idempotent.
Qed.

Lemma sentence_parts_shape :
  forall n p, In p (sentence_parts n) -> truthy p = true /\ strip p = p.
Proof.
  intros n p H. unfold sentence_parts in H.
  apply in_map_iff in H. destruct H as [q [<- Hq]].
  apply filter_In in Hq. destruct Hq as [_ Hq].
  split; [exact Hq | apply strip_idempotent].
Qed.

(** Every stored detail section is a non-empty string without leading or
    trailing whitespace, and at least one section is stored, whatever the
    model returned. *)
Theorem stored_sections_are_nonempty :
  forall description c,
    let sections := Cursor.description_sections
                      (Cursor.store_description_details description c) in
    sections <> []
    /\ forall p, In p sections -> p <> "" /\ strip p = p.
Proof.
  intros description c. cbv zeta. unfold Cursor.store_description_details.
  cbn [Cursor.description_sections].
  destruct (sentence_parts (normalize_for_speech description)) as [| x l] eqn:Hp.
  - split; [discriminate |]. intros p [<- | []].
    unfold str_or. destruct (truthy (normalize_for_speech description)) eqn:Ht.
    + split.
      * intros E. rewrite E in Ht. discriminate.
      * unfold normalize_for_speech. apply strip_idempotent.
    + split; [discriminate | reflexivity].
  - split; [discriminate |]. intros p Hin. rewrite <- Hp in Hin.
    destruct (sentence_parts_shape _ p Hin) as [Ht Hs].
    split; [| exact Hs]. intros E. rewrite E in Ht. discriminate.
Qed.

(** The narrated summary is the first two stored detail sections joined
    by a blank whenever the normalized description is not empty; for an
    empty one the summary is "No description returned." while the single
    stored section reads "No details available.". *)
Theorem summary_is_first_two_sections :
  forall description c,
    let sections := Cursor.description_sections
                      (Cursor.store_description_details description c) in
    (normalize_for_speech description <> "" ->
       build_summary description = join_spaces (firstn 2 sections))
    /\ (normalize_for_speech description = "" ->
          build_summary description = "No description returned."
          /\ sections = ["No details available."]).
Proof.
  intros description c. cbv zeta.
  unfold build_summary, Cursor.store_description_details.
  cbn [Cursor.description_sections].
  destruct (sentence_parts (normalize_for_speech description)) as [| x l] eqn:Hp.
  - split.
    + intros Hne. unfold str_or.
      destruct (normalize_for_speech description); [contradiction | reflexivity].
    + intros He. rewrite He. split; reflexivity.
  - split; [reflexivity |].
    intros He. rewrite He in Hp. vm_compute in Hp. discriminate.
Qed.

Lemma summary_is_first_two_sections_witness :
  build_summary "A. B. C."
  = join_spaces (firstn 2 (Cursor.description_sections
                             (Cursor.store_description_details "A. B. C." Cursor.init))).
Proof.
  exact (proj1 (summary_is_first_two_sections "A. B. C." Cursor.init)
           ltac:(vm_compute; discriminate)).
Defined.
End TextProofs.

(* ------------------------------------------------------------------ *)
(** ** Sequences of navigation steps *)

Module CursorSteps.
Import PyStr Cursor CursorProofs.
Local Open Scope string_scope.
Local Open Scope Z_scope.

Lemma navigate_detail_index :
  forall step c,
    description_sections c <> [] -> wf c ->
    fst (navigate_detail step c)
    = mkCursor (description_sections c)
               (next_index step (len c) (current_detail_index c)).
Proof.
  intros step c Hne Hwf.
  destruct (navigate_detail_loaded step c Hne Hwf) as [d [_ Heq]].
  rewrite Heq. reflexivity.
Qed.

Lemma forward_steps :
  forall k secs i,
    secs <> [] -> 0 <= i <= Z.of_nat (List.length secs) - 1 ->
    navigate_many (repeat 1 k) (mkCursor secs i)
    = mkCursor secs (Z.min (i + Z.of_nat k) (Z.of_nat (List.length secs) - 1)).
Proof.
  induction k as [| k IH]; intros secs i Hne Hi.
  - cbn [repeat navigate_many]. f_equal. lia.
  - cbn [repeat navigate_many].
    rewrite navigate_detail_index; [| exact Hne | unfold wf, len; cbn [description_sections current_detail_index]; lia].
    unfold len. cbn [description_sections current_detail_index].
    rewrite next_index_forward by lia.
    rewrite IH by (try exact Hne; lia). f_equal. lia.
Qed.

Lemma backward_steps :
  forall k secs i,
    secs <> [] -> 0 <= i <= Z.of_nat (List.length secs) - 1 ->
    navigate_many (repeat (-1) k) (mkCursor secs i)
    = mkCursor secs (Z.max (i - Z.of_nat k) 0).
Proof.
  induction k as [| k IH]; intros secs i Hne Hi.
  - cbn [repeat navigate_many]. f_equal. lia.
  - cbn [repeat navigate_many].
    rewrite navigate_detail_index; [| exact Hne | unfold wf, len; cbn [description_sections current_detail_index]; lia].
    unfold len. cbn [description_sections current_detail_index].
    rewrite next_index_backward by lia.
    rewrite IH by (try exact Hne; lia). f_equal. lia.
Qed.

(** After a load of n sections, k+1 presses of next-detail select section
    min(k, n-1) and k+1 presses of previous-detail select section
    max(n-1-k, 0) (sections counted from 0); the sections themselves are
    never changed by navigation. *)
Theorem repeated_steps_from_load :
  forall description c k,
    let loaded := store_description_details description c in
    let n := len loaded in
    navigate_many (repeat 1 (S k)) loaded
    = mkCursor (description_sections loaded) (Z.min (Z.of_nat k) (n - 1))
    /\ navigate_many (repeat (-1) (S k)) loaded
       = mkCursor (description_sections loaded) (Z.max (n - 1 - Z.of_nat k) 0).
Proof.
  intros description c k. cbv zeta.
  destruct (store_loaded description c) as [Hidx Hne].
  set (loaded := store_description_details description c) in *.
  assert (Hwf : wf loaded) by (unfold wf; rewrite Hidx; pose proof (len_pos loaded Hne); lia).
  pose proof (len_pos loaded Hne) as Hpos.
  cbn [repeat navigate_many].
  rewrite !navigate_detail_index by assumption. rewrite Hidx.
  destruct (next_index_first (len loaded)) as [Hf Hb]. rewrite Hf, Hb.
  unfold len in *.
  rewrite forward_steps by (try exact Hne; lia).
  rewrite backward_steps by (try exact Hne; lia).
  split; f_equal; lia.
Qed.

(** Away from the two ends, a step forward followed by a step backward,
    or the reverse, returns to the section that was selected. *)
Theorem step_there_and_back :
  forall c,
    description_sections c <> [] -> wf c ->
    (0 <= current_detail_index c < len c - 1 ->
       navigate_many [1; -1] c = c)
    /\ (0 < current_detail_index c <= len c - 1 ->
          navigate_many [-1; 1] c = c).
Proof.
  intros [secs i] Hne Hwf. unfold wf, len in *.
  cbn [description_sections current_detail_index] in *.
  split; intros Hi.
  - cbn [navigate_many].
    rewrite (navigate_detail_index 1 (mkCursor secs i))
      by (try exact Hne; unfold wf, len; cbn [description_sections current_detail_index]; lia).
    unfold len. cbn [description_sections current_detail_index].
    rewrite next_index_forward by lia.
    rewrite navigate_detail_index
      by (try exact Hne; unfold wf, len; cbn [description_sections current_detail_index]; lia).
    unfold len. cbn [description_sections current_detail_index].
    rewrite next_index_backward by lia. f_equal. lia.
  - cbn [navigate_many].
    rewrite (navigate_detail_index (-1) (mkCursor secs i))
      by (try exact Hne; unfold wf, len; cbn [description_sections current_detail_index]; lia).
    unfold len. cbn [description_sections current_detail_index].
    rewrite next_index_backward by lia.
    rewrite navigate_detail_index
      by (try exact Hne; unfold wf, len; cbn [description_sections current_detail_index]; lia).
    unfold len. cbn [description_sections current_detail_index].
    rewrite next_index_forward by lia. f_equal. lia.
Qed.

Lemma step_there_and_back_witness :
  navigate_many [1; -1] (mkCursor ["a"; "b"; "c"] 1) = mkCursor ["a"; "b"; "c"] 1.
Proof.
  apply (step_there_and_back (mkCursor ["a"; "b"; "c"] 1)).
  - discriminate.
  - unfold wf, len. simpl. lia.
  - unfold len. simpl. lia.
Defined.
End CursorSteps.

(* ------------------------------------------------------------------ *)
(** ** More on the speech pipeline *)

Module SpeechRuns.
Import Speech SpeechProofs.
Local Open Scope string_scope.
Local Open Scope Z_scope.

(** Iterations in which the wave backend works. *)
Lemma speak_loop_all_ok :
  forall n i text st,
    stop_event st = false ->
    exists st',
      speak_loop n i (fun _ => all_ok) text st = (st', Ok tt)
      /\ stop_event st' = false
      /\ active_proc st' = active_proc st
      /\ calls (log st') = (calls (log st) ++ repeat WaveFile n)%list
      /\ spoken (log st') = (spoken (log st) ++ repeat text n)%list.
Proof.
  induction n as [| n IH]; intros i text st Hst.
  - exists st. cbn [speak_loop repeat]. rewrite !app_nil_r. repeat split. exact Hst.
  - destruct st as [stop ap lg]. cbn [stop_event] in Hst. subst stop.
    cbn [speak_loop stop_event]. unfold speak_via_wave_file, interfere.
    cbn [all_ok wave wave_rc proc_rc synth proc_result stop_during_proc play_raises
         stop_during_play emit stop_event log active_proc Z.eqb negb].
    match goal with
    | |- exists st', speak_loop n (S i) _ text ?s = _ /\ _ =>
        destruct (IH (S i) text s eq_refl) as [st' [Hrun [Hs [Ha [Hc Hsp]]]]]
    end.
    exists st'. split; [exact Hrun |]. split; [exact Hs |].
    split; [exact Ha |].
    cbn [log active_proc emit] in *. rewrite Hc, Hsp.
    rewrite !calls_app, !spoken_app. cbn [calls spoken flat_map app].
    rewrite ?app_nil_r, <- ?app_assoc. cbn [app repeat]. split; reflexivity.
Qed.

(** With working backends and no stop request, speak renders the text
    max(1, repeat) times through the wave backend alone: a repeat count
    of zero or less still speaks once, and no other backend is entered. *)
Theorem speak_repeats_at_least_once :
  forall text interrupt repeat_count st,
    stop_event st = false ->
    let n := Z.to_nat (Z.max 1 repeat_count) in
    let r := speak (fun _ => all_ok) text interrupt repeat_count st in
    snd r = Ok tt
    /\ (1 <= n)%nat
    /\ calls (log (fst r)) = (calls (log st) ++ List.repeat WaveFile n)%list
    /\ spoken (log (fst r)) = (spoken (log st) ++ List.repeat text n)%list
    /\ stop_event (fst r) = false.
Proof.
  intros text interrupt repeat_count st Hst. cbv zeta. unfold speak. rewrite Hst.
  set (st1 := match active_proc st with
              | Some p => if interrupt then emit (Terminated p) st else st
              | None => st
              end).
  assert (H1 : stop_event st1 = false /\ calls (log st1) = calls (log st)
               /\ spoken (log st1) = spoken (log st)).
  { unfold st1. destruct (active_proc st); [destruct interrupt |];
      cbn [emit stop_event log]; rewrite ?calls_app, ?spoken_app; cbn;
      rewrite ?app_nil_r; auto. }
  destruct H1 as [Hs1 [Hc1 Hsp1]].
  destruct (speak_loop_all_ok (Z.to_nat (Z.max 1 repeat_count)) 0 text st1 Hs1)
    as [st' [Hrun [Hs [_ [Hc Hsp]]]]].
  rewrite Hrun. cbn [fst snd]. rewrite Hc, Hsp, Hc1, Hsp1.
  repeat split; try assumption. lia.
Qed.

Lemma speak_repeats_at_least_once_witness :
  spoken (log (fst (speak (fun _ => all_ok) "hello" false 0 init))) = ["hello"].
Proof.
  exact (proj1 (proj2 (proj2 (proj2
           (speak_repeats_at_least_once "hello" false 0 init eq_refl))))).
Defined.

(** When in every iteration the three process backends end with a
    non-zero return code, no stop request arrives and the in-process
    engine works, speak enters the four backends in priority order in
    each of its max(1, repeat) iterations, the engine renders the text
    once per iteration, and the call returns normally. *)
Theorem speak_falls_back_on_exit_codes :
  forall env text repeat_count st,
    stop_event st = false ->
    active_proc st = None ->
    (forall j, fails_by_exit_codes (env j) = true) ->
    let n := Z.to_nat (Z.max 1 repeat_count) in
    let r := speak env text false repeat_count st in
    snd r = Ok tt
    /\ calls (log (fst r)) = (calls (log st) ++ List.concat (List.repeat priority_order n))%list
    /\ spoken (log (fst r)) = (spoken (log st) ++ List.repeat text n)%list.
Proof.
  intros env text repeat_count st Hst Hap Hall. cbv zeta. unfold speak.
  rewrite Hst, Hap.
  destruct (fallback_by_exit_codes (Z.to_nat (Z.max 1 repeat_count)) 0 env text st Hst Hall)
    as [st' [Hrun [Hc Hsp]]].
  rewrite Hrun. cbn [fst snd]. repeat split; assumption.
Qed.

Lemma speak_falls_back_on_exit_codes_witness :
  calls (log (fst (speak (fun _ => mkIter (wave_rc 1) (proc_rc 2) (proc_rc 3) false)
                     "hello" false 2 init)))
  = (priority_order ++ priority_order)%list.
Proof.
  exact (proj1 (proj2 (speak_falls_back_on_exit_codes
                         (fun _ => mkIter (wave_rc 1) (proc_rc 2) (proc_rc 3) false)
                         "hello" 2 init eq_refl eq_refl (fun _ => eq_refl)))).
Defined.

End SpeechRuns.

(* ------------------------------------------------------------------ *)
(** ** What a transcription attempt and a recording can return *)

Module DictationResults.
Import Transcribe Recorder.
Local Open Scope string_scope.
Local Open Scope Z_scope.

Lemma poll_loop_transcript :
  forall fuel k e deadline now r t,
    poll_loop fuel k e deadline now = Finished r ->
    result r = Some t ->
    returncode e = 0
    /\ t = PyStr.strip (stdout_text e)
    /\ t <> ""
    /\ terminated r = false
    /\ logged r = None
    /\ reached (exit_at e) (ended_at r) = true
    /\ reached (submit_at e) (ended_at r) = false.
Proof.
  induction fuel as [| fuel IH]; intros k e deadline now r t Hrun Hres; [discriminate |].
  cbn [poll_loop] in Hrun.
  destruct (reached (exit_at e) now) eqn:Hexit.
  - injection Hrun as <-. unfold after_exit in *.
    destruct (reached (submit_at e) now) eqn:Hsub; [discriminate |].
    destruct (returncode e =? 0) eqn:Hrc; cbn [negb] in *; [| discriminate].
    destruct (PyStr.truthy (PyStr.strip (stdout_text e))) eqn:Ht;
      cbn [result terminated logged ended_at] in *; [| discriminate].
    injection Hres as <-. apply Z.eqb_eq in Hrc.
    repeat split; try assumption.
    intros E. rewrite E in Ht. discriminate.
  - destruct (reached (cancel_at e) now); [injection Hrun as <-; discriminate |].
    destruct (reached (submit_at e) now); [injection Hrun as <-; discriminate |].
    destruct (deadline <? now); [injection Hrun as <-; discriminate |].
    eapply IH; eassumption.
Qed.

(** A transcription attempt returns text only when the recognizer process
    was launched, exited on its own with return code 0 and the submit
    signal was not set at that moment; the text is the stripped standard
    output and is never empty.  An attempt that terminated its process
    (cancel, submit, watchdog), or whose process failed, returns None. *)
Theorem transcript_only_from_clean_exit :
  forall fuel timeout e r t,
    transcribe_from_microphone fuel timeout e = Finished r ->
    result r = Some t ->
    launch_raises e = false
    /\ returncode e = 0
    /\ t = PyStr.strip (stdout_text e)
    /\ t <> ""
    /\ terminated r = false
    /\ logged r = None
    /\ reached (exit_at e) (ended_at r) = true
    /\ reached (submit_at e) (ended_at r) = false.
Proof.
  intros fuel timeout e r t Hrun Hres. unfold transcribe_from_microphone in Hrun.
  destruct (launch_raises e) eqn:Hl.
  - injection Hrun as <-. discriminate.
  - split; [reflexivity |]. eapply poll_loop_transcript; eassumption.
Qed.

Lemma transcript_only_from_clean_exit_witness :
  PyStr.strip "  what time is it  " <> "".
Proof.
  exact (proj1 (proj2 (proj2 (proj2
           (transcript_only_from_clean_exit 10 3
              (mkEnv false (Some 120) 0 "  what time is it  " None None (fun _ => 50))
              (mkReport (Some "what time is it") false 150 3 None)
              (PyStr.strip "  what time is it  ") eq_refl eq_refl))))).
Defined.

Lemma record_loop_timeouts :
  forall script max chunk chunks st,
    Forall (fun t => 1 <= t <= Z.max 1 chunk) (timeouts st) ->
    Forall (fun t => 1 <= t <= Z.max 1 chunk) (timeouts (fst (record_loop script max chunk chunks st)))
    /\ (List.length (timeouts (fst (record_loop script max chunk chunks st)))
        <= List.length (timeouts st) + List.length script)%nat.
Proof.
  induction script as [| a script IH]; intros max chunk chunks st H.
  - cbn [record_loop].
    destruct (elapsed_ms st <? max * 1000);
      [destruct (task_cancel_event st); [| destruct (follow_up_submit_event st)] |];
      cbn [fst List.length]; split; try exact H; lia.
  - cbn [record_loop].
    destruct (elapsed_ms st <? max * 1000); [| cbn [fst]; split; [exact H | lia]].
    destruct (task_cancel_event st) eqn:Hc; [cbn [fst]; split; [exact H | lia] |].
    destruct (follow_up_submit_event st) eqn:Hs; [cbn [fst]; split; [exact H | lia] |].
    set (timeout := Z.max 1 (Z.min chunk (max - Z.quot (elapsed_ms st) 1000))).
    assert (H' : Forall (fun t => 1 <= t <= Z.max 1 chunk) (timeouts (run_attempt timeout a st))).
    { cbn [run_attempt timeouts]. apply Forall_app. split; [exact H |].
      constructor; [| constructor]. unfold timeout. lia. }
    assert (Hlen : List.length (timeouts (run_attempt timeout a st))
                   = S (List.length (timeouts st))).
    { cbn [run_attempt timeouts]. rewrite length_app. cbn [List.length]. lia. }
    destruct (task_cancel_event (run_attempt timeout a st));
      [cbn [fst List.length]; split; [exact H' | lia] |].
    destruct (follow_up_submit_event (run_attempt timeout a st));
      [cbn [fst List.length]; split; [exact H' | lia] |].
    destruct (IH max chunk (accumulate chunks (heard a)) (run_attempt timeout a st) H')
      as [IH1 IH2].
    split; [exact IH1 |]. cbn [List.length]. lia.
Qed.

(** Every timeout the recording loop hands to the recognizer lies between
    one second and max(1, chunk_seconds), however little recording time is
    left, and the loop makes no more attempts than the recognizer
    answers. *)
Theorem recorder_timeouts_are_clamped :
  forall script max chunk st,
    let final := fst (record_follow_up_question script max chunk
                        (mkState (task_cancel_event st) (follow_up_submit_event st)
                                 (elapsed_ms st) [])) in
    Forall (fun t => 1 <= t <= Z.max 1 chunk) (timeouts final)
    /\ (List.length (timeouts final) <= List.length script)%nat.
Proof.
  intros script max chunk st. cbv zeta. unfold record_follow_up_question.
  cbn [task_cancel_event follow_up_submit_event timeouts].
  apply (record_loop_timeouts script max chunk []
           (mkState (task_cancel_event st) (follow_up_submit_event st) 0 [])).
  constructor.
Qed.

Lemma join_spaces_truthy :
  forall chunks,
    chunks <> [] -> Forall (fun c => PyStr.truthy c = true) chunks ->
    PyStr.truthy (PyStr.join_spaces chunks) = true.
Proof.
  intros [| x l] Hne H; [contradiction |].
  apply Forall_inv in H. unfold PyStr.join_spaces. cbn [String.concat].
  destruct x as [| c x]; [discriminate |].
  destruct l; reflexivity.
Qed.

Lemma accumulate_truthy :
  forall chunks chunk,
    Forall (fun c => PyStr.truthy c = true) chunks ->
    Forall (fun c => PyStr.truthy c = true) (accumulate chunks chunk).
Proof.
  intros chunks [c |] H; cbn [accumulate]; [| exact H].
  destruct (PyStr.truthy c); [| exact H].
  destruct (PyStr.truthy (PyStr.strip c)) eqn:Ht; [| exact H].
  apply Forall_app. split; [exact H |]. constructor; [exact Ht | constructor].
Qed.

Lemma record_loop_result_truthy :
  forall script max chunk chunks st t,
    Forall (fun c => PyStr.truthy c = true) chunks ->
    snd (record_loop script max chunk chunks st) = Returned (Some t) ->
    PyStr.truthy t = true.
Proof.
  assert (Hfin : forall chunks t,
             Forall (fun c => PyStr.truthy c = true) chunks ->
             Returned (finalize chunks) = Returned (Some t) -> PyStr.truthy t = true).
  { intros chunks t H E. destruct chunks as [| x l]; [discriminate |].
    cbn [finalize] in E. injection E as <-.
    apply join_spaces_truthy; [discriminate | exact H]. }
  induction script as [| a script IH]; intros max chunk chunks st t H Hres.
  - cbn [record_loop] in Hres.
    destruct (elapsed_ms st <? max * 1000);
      [destruct (task_cancel_event st); [| destruct (follow_up_submit_event st)] |];
      cbn [snd] in Hres; try discriminate; eapply Hfin; eassumption.
  - cbn [record_loop] in Hres.
    destruct (elapsed_ms st <? max * 1000); [| eapply Hfin; eassumption].
    destruct (task_cancel_event st); [discriminate |].
    destruct (follow_up_submit_event st); [eapply Hfin; eassumption |].
    match type of Hres with
    | context [task_cancel_event ?s'] => destruct (task_cancel_event s'); [discriminate |]
    end.
    pose proof (accumulate_truthy chunks (heard a) H) as H'.
    match type of Hres with
    | context [follow_up_submit_event ?s'] =>
        destruct (follow_up_submit_event s'); [eapply Hfin; eassumption |]
    end.
    eapply IH; eassumption.
Qed.

(** A recording never returns an empty question: whenever
    _record_follow_up_question returns text, the text is non-empty;
    attempts that heard nothing or only whitespace contribute nothing. *)
Theorem recorded_question_is_never_empty :
  forall script max chunk st t,
    snd (record_follow_up_question script max chunk st) = Returned (Some t) ->
    t <> "".
Proof.
  intros script max chunk st t H. unfold record_follow_up_question in H.
  pose proof (record_loop_result_truthy _ _ _ [] _ t (Forall_nil _) H) as Ht.
  intros E. rewrite E in Ht. discriminate.
Qed.

Lemma recorded_question_is_never_empty_witness :
  "open the file" <> "".
Proof.
  exact (recorded_question_is_never_empty
           [says "  open " 3000; says "   " 3000; mkAttempt (Some "the file") 2000 false true]
           30 3 start "open the file" eq_refl).
Defined.
End DictationResults.

(* ------------------------------------------------------------------ *)
(** ** Coherence of task name, listening flag and sessions *)

Module CoherenceProofs.
Import App Tasks Invariants GateProofs.
Local Open Scope string_scope.
Local Open Scope Z_scope.

Lemma coherent_ext :
  forall s s',
    capture_lock s' = capture_lock s -> threads s' = threads s ->
    active_task_name s' = active_task_name s ->
    (follow_up_listening_event s' = true -> follow_up_listening_event s = true) ->
    coherent s -> coherent s'.
Proof.
  intros s s' Hl Ht Hn Hli [Hsf [Hname Hlis]]. split; [| split].
  - eapply single_flight_ext; eassumption.
  - unfold names_session, sessions in *. rewrite Hn, Ht. exact Hname.
  - unfold listening_in_follow_up, sessions in *. rewrite Ht. intros H. apply Hlis, Hli, H.
Qed.

(** With the gate free no session runs, no task is named and nobody
    listens. *)
Lemma coherent_idle :
  forall s, coherent s -> capture_lock s = false ->
    sessions s = [] /\ active_task_name s = None /\ follow_up_listening_event s = false.
Proof.
  intros s [Hsf [Hname Hlis]] Hl.
  pose proof (single_flight_free s Hsf Hl) as Hs.
  split; [exact Hs |]. split.
  - unfold names_session in Hname. rewrite Hs in Hname. exact Hname.
  - destruct (follow_up_listening_event s) eqn:E; [| reflexivity].
    rewrite (Hlis E) in Hs. discriminate.
Qed.

Lemma coherent_admit :
  forall w s' t,
    coherent w -> capture_lock w = false -> is_session t = true ->
    capture_lock s' = true -> threads s' = (threads w ++ [t])%list ->
    active_task_name s' = name_of t ->
    follow_up_listening_event s' = follow_up_listening_event w ->
    coherent s'.
Proof.
  intros w s' t Hc Hl Ht Hl' Hth Hn Hli.
  destruct (coherent_idle w Hc Hl) as [Hs [_ Hlw]].
  assert (Hsess : sessions s' = [t]).
  { unfold sessions. rewrite Hth, filter_app. cbn [filter]. rewrite Ht.
    fold (sessions w). rewrite Hs. reflexivity. }
  split; [| split].
  - left. split; [exact Hl' |]. exists t. exact Hsess.
  - unfold names_session. rewrite Hsess. exact Hn.
  - unfold listening_in_follow_up. rewrite Hli, Hlw. discriminate.
Qed.

Lemma do_move_coherent : forall m s, coherent s -> coherent (do_move m s).
Proof.
  intros m s Hc. destruct m; cbn [do_move].
  - destruct (session_thread s) as [t |] eqn:Hs; [| exact Hc].
    destruct t; try exact Hc.
    destruct Hc as [Hsf [Hname Hlis]]. split; [exact Hsf |]. split; [exact Hname |].
    intros _. rewrite session_thread_head in Hs.
    change (sessions (set_listening true (set_submit false s))) with (sessions s).
    destruct Hsf as [[_ [t Ht]] | [_ Hn]].
    + rewrite Ht in Hs. cbn in Hs. injection Hs as ->. exact Ht.
    + rewrite Hn in Hs. discriminate.
  - destruct (session_thread s) as [t |] eqn:Hs; [| exact Hc].
    destruct t; try exact Hc.
    eapply coherent_ext; [| | | | exact Hc]; try reflexivity. discriminate.
  - eapply coherent_ext; [| | | | exact Hc]; try reflexivity. auto.
  - destruct (session_thread s) as [t |] eqn:Hs; [| exact Hc].
    rewrite session_thread_head in Hs.
    destruct Hc as [Hsf [Hname Hlis]].
    destruct Hsf as [[Hl [t' Ht']] | [Hl Hn]]; [| rewrite Hn in Hs; discriminate].
    rewrite Ht' in Hs. cbn in Hs. injection Hs as Hs. subst t'.
    assert (Hsess : is_session t = true).
    { assert (Hin : In t (sessions s)) by (rewrite Ht'; left; reflexivity).
      apply filter_In in Hin. apply Hin. }
    assert (Hgone : sessions (set_threads (remove_first is_session (threads s))
                                (fst (task_finally t s))) = []).
    { unfold sessions. cbn [threads set_threads].
      rewrite sessions_remove_session. fold (sessions s). rewrite Ht'. reflexivity. }
    unfold names_session in Hname. rewrite Ht' in Hname.
    assert (Hlf : follow_up_listening_event s = true -> t = FollowUpTask).
    { intros E. specialize (Hlis E). rewrite Ht' in Hlis. congruence. }
    split; [| split].
    + right. split; [| exact Hgone].
      destruct t; try (cbn in Hsess; discriminate);
        unfold task_finally, release;
        cbn [capture_lock set_active_task set_submit set_listening];
        rewrite Hl; reflexivity.
    + unfold names_session. rewrite Hgone.
      destruct t; try (cbn in Hsess; discriminate);
        unfold task_finally, release;
        cbn [capture_lock set_active_task set_submit set_listening];
        rewrite Hl; cbn; try reflexivity. exact Hname.
    + unfold listening_in_follow_up. rewrite Hgone. intros E. exfalso. revert E.
      destruct t; try (cbn in Hsess; discriminate);
        unfold task_finally, release;
        cbn [capture_lock set_active_task set_submit set_listening];
        rewrite Hl; cbn; try discriminate;
        intros E; specialize (Hlf E); discriminate.
  - destruct Hc as [Hsf [Hname Hlis]].
    assert (Hs : sessions (set_threads
                             (remove_first (fun t => negb (is_session t)) (threads s)) s)
                 = sessions s).
    { unfold sessions. cbn [threads set_threads]. apply sessions_remove_helper. }
    split; [| split].
    + unfold single_flight. rewrite Hs. exact Hsf.
    + unfold names_session. rewrite Hs. exact Hname.
    + unfold listening_in_follow_up. rewrite Hs. exact Hlis.
Qed.

Lemma do_moves_coherent : forall ms s, coherent s -> coherent (do_moves ms s).
Proof.
  unfold do_moves. induction ms as [| m ms IH]; intros s H; cbn [fold_left].
  - exact H.
  - apply IH, do_move_coherent, H.
Qed.

Lemma after_wait_coherent : forall wait s, coherent s -> coherent (after_wait wait s).
Proof.
  intros wait s H. unfold after_wait. apply do_moves_coherent.
  eapply coherent_ext; [| | | | exact H]; try reflexivity. auto.
Qed.

Lemma handle_coherent : forall k wait s, coherent s -> coherent (handle k wait s).
Proof.
  intros k wait s H.
  pose proof (after_wait_coherent wait s H) as Hw. unfold after_wait in Hw.
  destruct k; cbn [handle].
  - unfold on_capture_hotkey, acquire.
    destruct (capture_lock (do_moves wait (stop_current_speech s))) eqn:Hl; cbn [negb].
    + eapply coherent_ext; [| | | | exact Hw]; try reflexivity. auto.
    + eapply (coherent_admit _ _ CaptureTask Hw Hl); reflexivity.
  - unfold on_follow_up_hotkey, acquire.
    destruct (follow_up_listening_event s).
    { eapply coherent_ext; [| | | | exact H]; try reflexivity. auto. }
    destruct (capture_lock (do_moves wait (stop_current_speech s))) eqn:Hl; cbn [negb].
    + eapply coherent_ext; [| | | | exact Hw]; try reflexivity. auto.
    + eapply (coherent_admit _ _ FollowUpTask Hw Hl); reflexivity.
  - eapply coherent_ext; [| | | | exact H]; try reflexivity. auto.
  - unfold on_cancel_task_hotkey.
    destruct (active_task_name s) eqn:Hn;
      (eapply coherent_ext; [| | | | exact H]; try reflexivity;
       try (cbn; symmetry; exact Hn); cbn; discriminate).
  - destruct H as [Hsf [Hname Hlis]].
    assert (Hs : sessions (on_set_api_key_hotkey s) = sessions s).
    { unfold on_set_api_key_hotkey. rewrite sessions_start_thread.
      cbn [is_session]. rewrite app_nil_r. reflexivity. }
    split; [| split].
    + unfold single_flight. rewrite Hs. exact Hsf.
    + unfold names_session. rewrite Hs. exact Hname.
    + unfold listening_in_follow_up. rewrite Hs. exact Hlis.
  - unfold on_next_detail_hotkey, on_detail_hotkey, acquire.
    destruct (capture_lock (do_moves wait (stop_current_speech s))) eqn:Hl; cbn [negb].
    + eapply coherent_ext; [| | | | exact Hw]; try reflexivity. auto.
    + destruct (coherent_idle _ Hw Hl) as [_ [Hn _]].
      eapply (coherent_admit _ _ (NavigateTask 1) Hw Hl); try reflexivity. exact Hn.
  - unfold on_previous_detail_hotkey, on_detail_hotkey, acquire.
    destruct (capture_lock (do_moves wait (stop_current_speech s))) eqn:Hl; cbn [negb].
    + eapply coherent_ext; [| | | | exact Hw]; try reflexivity. auto.
    + destruct (coherent_idle _ Hw Hl) as [_ [Hn _]].
      eapply (coherent_admit _ _ (NavigateTask (-1)) Hw Hl); try reflexivity. exact Hn.
Qed.

Lemma run_coherent : forall es s, coherent s -> coherent (run es s).
Proof.
  unfold run. induction es as [| e es IH]; intros s H; cbn [fold_left].
  - exact H.
  - apply IH. destruct e as [k wait | m]; cbn [step].
    + apply handle_coherent, H.
    + apply do_move_coherent, H.
Qed.

Lemma init_coherent : forall key, coherent (init key).
Proof.
  intros key. split; [apply init_single_flight |]. split.
  - reflexivity.
  - intros H. discriminate.
Qed.

(** In every state the process reaches, the listening flag is set only
    while the follow-up task holds the gate: a follow-up press that is
    taken as "send now" always finds the follow-up task running. *)
Theorem listening_only_while_follow_up_runs :
  forall key es,
    follow_up_listening_event (run es (init key)) = true ->
    sessions (run es (init key)) = [FollowUpTask]
    /\ capture_lock (run es (init key)) = true
    /\ active_task_name (run es (init key)) = Some "follow-up".
Proof.
  intros key es H.
  destruct (run_coherent es (init key) (init_coherent key)) as [Hsf [Hname Hlis]].
  specialize (Hlis H). split; [exact Hlis |]. split.
  - destruct Hsf as [[Hl _] | [_ Hn]]; [exact Hl | rewrite Hn in Hlis; discriminate].
  - unfold names_session in Hname. rewrite Hlis in Hname. exact Hname.
Qed.

Lemma listening_only_while_follow_up_runs_witness :
  sessions (run [Key KFollowUp []; Move BeginListening] (init (Some "key")))
  = [FollowUpTask].
Proof.
  exact (proj1 (listening_only_while_follow_up_runs (Some "key")
                  [Key KFollowUp []; Move BeginListening] eq_refl)).
Defined.

(** In every state the process reaches, the cancel hot-key reports the
    task that is running: "Capture task canceled" exactly while the
    capture task runs, "Follow-up task canceled" exactly while the
    follow-up task runs, and "No capture task was running" when the
    process is idle and also while a navigation task runs.  It starts and
    ends no thread and does not release the gate. *)
Theorem cancel_reports_the_running_task :
  forall key es wait,
    let s := run es (init key) in
    let s' := handle KCancelTask wait s in
    console s'
    = (console s ++ [CancelTranscription; CancelQuery; Print (cancel_notice (sessions s));
                     Beep [(460, 70); (390, 90); (320, 110)]])%list
    /\ threads s' = threads s
    /\ capture_lock s' = capture_lock s
    /\ task_cancel_event s' = true
    /\ follow_up_submit_event s' = true
    /\ follow_up_listening_event s' = false.
Proof.
  intros key es wait. cbv zeta.
  destruct (run_coherent es (init key) (init_coherent key)) as [Hsf [Hname _]].
  set (s := run es (init key)) in *.
  cbn [handle]. unfold on_cancel_task_hotkey.
  unfold names_session in Hname. rewrite Hname.
  assert (Hone : sessions s = [] \/ exists t, sessions s = [t] /\ is_session t = true).
  { destruct Hsf as [[_ [t Ht]] | [_ Hn]]; [right | left; exact Hn].
    exists t. split; [exact Ht |].
    assert (Hin : In t (sessions s)) by (rewrite Ht; left; reflexivity).
    apply filter_In in Hin. apply Hin. }
  destruct Hone as [Hn | [t [Ht Hsess]]].
  - rewrite Hn. cbn. rewrite <- !app_assoc. repeat split.
  - rewrite Ht. destruct t; try (cbn in Hsess; discriminate);
      cbn; rewrite <- !app_assoc; repeat split.
Qed.
End CoherenceProofs.

(* ------------------------------------------------------------------ *)
(** ** Task runs under cancellation and denied presses *)

Module TaskRuns.
Import App Tasks Invariants GateProofs TaskProofs.
Local Open Scope string_scope.
Local Open Scope Z_scope.

Lemma do_move_keeps_suppressed :
  forall m s,
    Speech.stop_event (speech s) = true ->
    Speech.stop_event (speech (do_move m s)) = true
    /\ narrated (do_move m s) = narrated s.
Proof.
  intros m s H. destruct m as [| | en tx it rp | |].
  - cbn [do_move].
    destruct (session_thread s) as [[| | |] |]; split; (exact H || reflexivity).
  - cbn [do_move].
    destruct (session_thread s) as [[| | |] |]; split; (exact H || reflexivity).
  - rewrite (Orchestration.say_while_suppressed en tx it rp s H).
    unfold narrated. cbn [speech set_speech Speech.emit Speech.stop_event Speech.log].
    rewrite SpeechProofs.spoken_app. cbn. rewrite app_nil_r. split; [exact H | reflexivity].
  - cbn [do_move].
    destruct (session_thread s) as [[| | |] |]; try (split; [exact H | reflexivity]);
      unfold task_finally, release;
      cbn [capture_lock set_active_task set_submit set_listening];
      destruct (capture_lock s); split; (exact H || reflexivity).
  - cbn [do_move]. split; [exact H | reflexivity].
Qed.

Lemma do_moves_keep_suppressed :
  forall ms s,
    Speech.stop_event (speech s) = true ->
    Speech.stop_event (speech (do_moves ms s)) = true
    /\ narrated (do_moves ms s) = narrated s.
Proof.
  unfold do_moves. induction ms as [| m ms IH]; intros s H; cbn [fold_left].
  - split; [exact H | reflexivity].
  - destruct (do_move_keeps_suppressed m s H) as [H1 H2].
    destruct (IH _ H1) as [H3 H4]. split; [exact H3 | congruence].
Qed.

Lemma stop_current_speech_sets :
  forall s,
    Speech.stop_event (speech (stop_current_speech s)) = true
    /\ narrated (stop_current_speech s) = narrated s.
Proof.
  intros s. unfold stop_current_speech, narrated. cbn [speech set_speech].
  unfold Speech.stop_current_speech. cbn [Speech.active_proc Speech.set_stop].
  destruct (Speech.active_proc (speech s));
    cbn [Speech.emit Speech.stop_event Speech.log Speech.set_stop];
    rewrite ?SpeechProofs.spoken_app; cbn; rewrite ?app_nil_r; split; reflexivity.
Qed.

(** A capture, follow-up or navigation press that is denied still
    silences the running task: the handler requests the stop before it
    tries the gate and, being denied, never clears the request, so the
    suppression signal is set when it returns and whatever the running
    task narrates next is not rendered. *)
Theorem denied_press_silences_narration :
  forall k wait s,
    attempts_admission k s = true ->
    capture_lock (after_wait wait s) = true ->
    Speech.stop_event (speech (handle k wait s)) = true
    /\ narrated (handle k wait s) = narrated s
    /\ forall env text interrupt repeat,
        narrated (do_move (Say env text interrupt repeat) (handle k wait s))
        = narrated s.
Proof.
  intros k wait s Hk Hl.
  destruct (Orchestration.denied_when_held k wait s Hk Hl) as [msg Heq].
  destruct (stop_current_speech_sets s) as [H1 H2].
  destruct (do_moves_keep_suppressed wait _ H1) as [H3 H4].
  fold (after_wait wait s) in H3, H4.
  assert (Hs : Speech.stop_event (speech (handle k wait s)) = true).
  { rewrite Heq. exact H3. }
  assert (Hn : narrated (handle k wait s) = narrated s).
  { rewrite Heq. unfold narrated in *. cbn [speech out]. congruence. }
  split; [exact Hs |]. split; [exact Hn |].
  intros env text interrupt repeat.
  destruct (do_move_keeps_suppressed (Say env text interrupt repeat) _ Hs) as [_ H5].
  congruence.
Qed.

Lemma denied_press_silences_narration_witness :
  narrated (do_move (Say (fun _ => Speech.all_ok) "Summary is ready." true 1)
              (handle KNextDetail [] (handle KCapture [] (init (Some "key")))))
  = narrated (handle KCapture [] (init (Some "key"))).
Proof.
  exact (proj2 (proj2 (denied_press_silences_narration KNextDetail []
                         (handle KCapture [] (init (Some "key"))) eq_refl eq_refl))
           (fun _ => Speech.all_ok) "Summary is ready." true 1).
Defined.

(** A capture or follow-up task that finds the cancellation token set
    when it starts does nothing but release the gate: it prints nothing,
    narrates nothing, asks for no key, takes no screenshot and leaves the
    detail cursor as it was. *)
Theorem canceled_before_start_does_nothing :
  forall t e s,
    t = CaptureTask \/ t = FollowUpTask ->
    capture_lock s = true ->
    task_cancel_event s = true ->
    let s' := fst (run_thread t e s) in
    snd (run_thread t e s) = Returned
    /\ console s' = console s
    /\ speech s' = speech s
    /\ cursor s' = cursor s
    /\ api_key s' = api_key s
    /\ capture_lock s' = false
    /\ active_task_name s' = None.
Proof.
  intros t e s Ht Hl Hc. cbv zeta.
  destruct Ht as [-> | ->]; unfold run_thread, try_finally; cbn [body];
    unfold capture_try, follow_up_try, stop_if_cancelled, cancelled, bind, get, return_;
    rewrite Hc; unfold task_finally, release;
    cbn [capture_lock set_active_task set_submit set_listening];
    rewrite Hl; repeat split.
Qed.

Lemma canceled_before_start_does_nothing_witness :
  console (fst (run_thread CaptureTask (quiet three_sentences)
                  (handle KCancelTask [] (handle KCapture [] (init (Some "key"))))))
  = console (handle KCancelTask [] (handle KCapture [] (init (Some "key")))).
Proof.
  exact (proj1 (proj2 (canceled_before_start_does_nothing CaptureTask
                         (quiet three_sentences)
                         (handle KCancelTask [] (handle KCapture [] (init (Some "key"))))
                         (or_introl eq_refl) eq_refl eq_refl))).
Defined.

(** However a follow-up task ends, its finally block leaves the listening
    flag and the submit signal clear and no task named, so that the next
    follow-up press is an admission request again; a capture task leaves
    no task named either. *)
Theorem session_end_resets_follow_up_signals :
  forall e s,
    (follow_up_listening_event (fst (run_thread FollowUpTask e s)) = false
     /\ follow_up_submit_event (fst (run_thread FollowUpTask e s)) = false
     /\ active_task_name (fst (run_thread FollowUpTask e s)) = None
     /\ attempts_admission KFollowUp (fst (run_thread FollowUpTask e s)) = true)
    /\ active_task_name (fst (run_thread CaptureTask e s)) = None.
Proof.
  intros e s. unfold run_thread, try_finally. cbn [body]. split.
  - destruct (follow_up_try e s) as [s1 c].
    unfold task_finally, release.
    cbn [capture_lock set_active_task set_submit set_listening].
    destruct (capture_lock s1); repeat split.
  - destruct (capture_try e s) as [s1 c].
    unfold task_finally, release. cbn [capture_lock set_active_task].
    destruct (capture_lock s1); reflexivity.
Qed.
End TaskRuns.

(* ------------------------------------------------------------------ *)
(** ** Cancellation while the model is queried *)

Module CancelDuringQuery.
Import App Tasks Invariants GateProofs TaskProofs.
Local Open Scope string_scope.
Local Open Scope Z_scope.

Lemma handle_cursor : forall k s, cursor (handle k [] s) = cursor s.
Proof.
  intros k s. destruct k; cbn [handle];
    unfold on_capture_hotkey, on_follow_up_hotkey, on_stop_speaking_hotkey,
      on_cancel_task_hotkey, on_set_api_key_hotkey, on_next_detail_hotkey,
      on_previous_detail_hotkey, on_detail_hotkey, acquire, do_moves;
    cbn [fold_left];
    repeat match goal with
           | |- context [if ?b then _ else _] => destruct b
           | |- context [match active_task_name ?x with _ => _ end] =>
               destruct (active_task_name x)
           end; reflexivity.
Qed.

Lemma presses_keep_cursor :
  forall ks s,
    held s ->
    held (fold_left press ks s) /\ cursor (fold_left press ks s) = cursor s.
Proof.
  induction ks as [| k ks IH]; intros s H; cbn [fold_left].
  - split; [exact H | reflexivity].
  - destruct (IH (press s k) (press_held s k H)) as [H1 H2].
    split; [exact H1 |]. rewrite H2. apply handle_cursor.
Qed.

(** Once the cancel hot-key has been handled, the keys handled after it
    while the session holds the gate leave the token set. *)
Lemma presses_keep_token :
  forall ks s,
    held s -> task_cancel_event s = true ->
    task_cancel_event (fold_left press ks s) = true.
Proof.
  induction ks as [| k ks IH]; intros s H Hc; cbn [fold_left]; [exact Hc |].
  apply IH; [apply press_held; exact H |].
  destruct H as [_ Hl]. unfold press.
  apply Orchestration.handle_keeps_cancel_when_held; [exact Hl | exact Hc].
Qed.

Lemma cancel_press_sets_token :
  forall ks s,
    held s -> In KCancelTask ks ->
    task_cancel_event (fold_left press ks s) = true.
Proof.
  induction ks as [| k ks IH]; intros s H Hin; [contradiction |].
  cbn [fold_left]. destruct Hin as [-> | Hin].
  - apply presses_keep_token; [apply press_held; exact H |].
    unfold press. cbn [handle]. unfold on_cancel_task_hotkey.
    destruct (active_task_name s); reflexivity.
  - apply IH; [apply press_held; exact H | exact Hin].
Qed.

Lemma quiet_ret : forall A (a : A), quiet_on_cursor (ret a).
Proof. intros A a s H. split; [exact H | reflexivity]. Qed.

Lemma quiet_return : forall A, quiet_on_cursor (@return_ A).
Proof. intros A s H. split; [exact H | reflexivity]. Qed.

Lemma quiet_raise : forall A x, quiet_on_cursor (@raise A x).
Proof. intros A x s H. split; [exact H | reflexivity]. Qed.

Lemma quiet_get : forall A (f : app -> A), quiet_on_cursor (get f).
Proof. intros A f s H. split; [exact H | reflexivity]. Qed.

Lemma quiet_bind :
  forall A B (m : M A) (f : A -> M B),
    quiet_on_cursor m -> (forall a, quiet_on_cursor (f a)) -> quiet_on_cursor (bind m f).
Proof.
  intros A B m f Hm Hf s H. unfold bind.
  destruct (Hm s H) as [H1 H2]. destruct (m s) as [s' [a | | x]]; cbn [fst] in *.
  - destruct (Hf a s' H1) as [H3 H4]. split; [exact H3 | congruence].
  - split; assumption.
  - split; assumption.
Qed.

Lemma quiet_modify :
  forall f : app -> app,
    (forall s, capture_lock (f s) = capture_lock s) ->
    (forall s, threads (f s) = threads s) ->
    (forall s, cursor (f s) = cursor s) ->
    quiet_on_cursor (modify f).
Proof.
  intros f Hl Ht Hc s H. unfold modify. cbn [fst]. split; [| apply Hc].
  eapply held_ext; [apply Hl | apply Ht | exact H].
Qed.

Lemma quiet_blocking : forall e k, quiet_on_cursor (blocking e k).
Proof.
  intros e k s H. unfold blocking, modify. cbn [fst]. apply presses_keep_cursor, H.
Qed.

Lemma quiet_say : forall e k text interrupt, quiet_on_cursor (say e k text interrupt).
Proof.
  intros e k text interrupt. unfold say. apply quiet_bind.
  - apply quiet_blocking.
  - intros _ s H.
    destruct (Speech.speak (voices e k) text interrupt 1 (speech s)) as [sp [u | x]];
      cbn [fst]; (split; [eapply held_ext; [| | exact H]; reflexivity | reflexivity]).
Qed.

Ltac quiet_step :=
  first
    [ apply quiet_say
    | apply quiet_blocking
    | apply quiet_ret
    | apply quiet_return
    | apply quiet_raise
    | apply quiet_get
    | apply quiet_modify; reflexivity
    | apply quiet_bind; [| intros ? ]
    | match goal with
      | |- quiet_on_cursor (if ?b then _ else _) => destruct b
      | |- quiet_on_cursor (match ?x with _ => _ end) => destruct x
      end ].

Lemma quiet_stop_if_cancelled : forall msg, quiet_on_cursor (stop_if_cancelled msg).
Proof.
  intros msg. unfold stop_if_cancelled, cancelled, print. repeat quiet_step.
Qed.

Lemma quiet_require_api_key : forall e k, quiet_on_cursor (require_api_key e k).
Proof.
  intros e k. unfold require_api_key, ensure_api_key_configured, print, beep.
  repeat quiet_step.
Qed.

Lemma quiet_capture_screenshot_bytes :
  forall e k, quiet_on_cursor (capture_screenshot_bytes e k).
Proof.
  intros e k. unfold capture_screenshot_bytes, print, beep. repeat quiet_step.
Qed.

(** The query and everything after it, when the cancel hot-key is handled
    while the query is in flight. *)
Lemma quiet_canceled_query :
  forall e (rest : string -> M unit),
    In KCancelTask (keys e 4) ->
    quiet_on_cursor
      (bind (query_screenshot e 4)
            (fun description =>
               bind (stop_if_cancelled (Some "Capture canceled."))
                    (fun _ => rest description))).
Proof.
  intros e rest Hin s H.
  destruct (presses_keep_cursor (keys e 4) s H) as [Hheld Hcur].
  pose proof (cancel_press_sets_token (keys e 4) s H Hin) as Htok.
  cbv beta iota delta [query_screenshot blocking modify cancelled get ret bind
                         stop_if_cancelled print return_].
  rewrite Htok.
  cbv beta iota delta [query_screenshot blocking modify cancelled get ret bind
                         stop_if_cancelled print return_ fst].
  split; [| exact Hcur].
  eapply held_ext; [| | exact Hheld]; reflexivity.
Qed.

(** The cancel hot-key pressed while the capture task waits for the
    model keeps the previous details: the task stores nothing, the detail
    sections and the selected index are those of before, and the gate is
    released. *)
Theorem cancel_during_query_keeps_old_details :
  forall e s,
    held s ->
    In KCancelTask (keys e 4) ->
    cursor (fst (run_thread CaptureTask e s)) = cursor s
    /\ capture_lock (fst (run_thread CaptureTask e s)) = false
    /\ sessions (fst (run_thread CaptureTask e s)) = [].
Proof.
  intros e s H Hin.
  assert (Hq : quiet_on_cursor (capture_try e)).
  { unfold capture_try.
    apply quiet_bind; [apply quiet_stop_if_cancelled | intros _].
    apply quiet_bind; [apply quiet_require_api_key | intros _].
    apply quiet_bind; [apply quiet_stop_if_cancelled | intros _].
    apply quiet_bind; [apply quiet_capture_screenshot_bytes | intros img].
    destruct (negb img); [apply quiet_return |].
    apply quiet_bind; [apply quiet_stop_if_cancelled | intros _].
    apply quiet_bind; [unfold beep; quiet_step | intros _].
    apply quiet_bind; [unfold print; quiet_step | intros _].
    apply (quiet_canceled_query e
             (fun description =>
                bind (print ("Gemini description: " ++ description)) _)).
    exact Hin. }
  destruct (run_thread_releases CaptureTask e s eq_refl H) as [Hrel [Hsess _]].
  split; [| split; assumption].
  destruct (Hq s H) as [[_ Hl] Hcur].
  unfold run_thread, try_finally. cbn [body].
  destruct (capture_try e s) as [s1 c]. cbn [fst] in *.
  unfold task_finally, release. cbn [capture_lock set_active_task].
  rewrite Hl. cbn [fst cursor set_threads set_lock set_active_task]. exact Hcur.
Qed.

Lemma cancel_during_query_keeps_old_details_witness :
  cursor (fst (run_thread CaptureTask
                 (mkEnv (Ok None) None three_sentences None
                        (fun k => if Nat.eqb k 4 then [KCancelTask] else [])
                        (fun _ _ => Speech.all_ok))
                 (handle KCapture [] (init (Some "key")))))
  = cursor (handle KCapture [] (init (Some "key"))).
Proof.
  apply cancel_during_query_keeps_old_details.
  - split; [| reflexivity]. left. split; [reflexivity |]. exists CaptureTask. reflexivity.
  - left. reflexivity.
Defined.
End CancelDuringQuery.

(* ------------------------------------------------------------------ *)
(** ** Stored credential *)

Module ConfigProofs.
Import Config.
Local Open Scope string_scope.

Lemma get_set_same : forall k v c, get (set k v c) k = Some v.
Proof.
  intros k v c. induction c as [| [k' v'] c IH]; cbn [set get].
  - rewrite String.eqb_refl. reflexivity.
  - destruct (String.eqb k k') eqn:E; cbn [get].
    + rewrite String.eqb_refl. reflexivity.
    + rewrite E. exact IH.
Qed.

Lemma get_set_other :
  forall k v c k', k <> k' -> get (set k v c) k' = get c k'.
Proof.
  intros k v c k' Hne. induction c as [| [k0 v0] c IH]; cbn [set get].
  - destruct (String.eqb_spec k' k) as [-> |]; [contradiction | reflexivity].
  - destruct (String.eqb_spec k k0) as [-> | Hk]; cbn [get].
    + destruct (String.eqb_spec k' k0) as [-> |]; [contradiction | reflexivity].
    + destruct (String.eqb k' k0); [reflexivity | exact IH].
Qed.

Lemma present_nonempty : forall t, t <> "" -> present (Some t) = true.
Proof. intros [| a t] H; [contradiction | reflexivity]. Qed.

(** The three fields after [set_api_key] or the migration wrote them. *)
Lemma fields_after_store :
  forall token key c,
    let c1 := set "encryption_key" key (set "encrypted_key" token (set "api_key" "" c)) in
    let c2 := set "api_key" "" (set "encryption_key" key (set "encrypted_key" token c)) in
    (get c1 "api_key" = Some "" /\ get c1 "encrypted_key" = Some token
     /\ get c1 "encryption_key" = Some key)
    /\ (get c2 "api_key" = Some "" /\ get c2 "encrypted_key" = Some token
        /\ get c2 "encryption_key" = Some key).
Proof.
  intros token key c. cbv zeta.
  repeat split;
    repeat first [ rewrite get_set_same; reflexivity
                 | rewrite get_set_other by discriminate ].
Qed.

(** Reading a dict whose token and key fields are filled. *)
Lemma get_api_key_stored :
  forall encrypt decrypt fresh w c disk token key,
    get c "encrypted_key" = Some token -> get c "encryption_key" = Some key ->
    token <> "" -> key <> "" ->
    get_api_key encrypt decrypt fresh w c disk
    = match decrypt key token with
      | Ok p => (c, disk, Ok (Some p))
      | Raise _ => (c, disk, Ok None)
      end.
Proof.
  intros encrypt decrypt fresh w c disk token key Ht Hk Hnt Hnk.
  unfold get_api_key, decrypt_api_key. rewrite Ht, Hk.
  rewrite (present_nonempty token Hnt), (present_nonempty key Hnk). reflexivity.
Qed.

(** A key accepted by set_api_key is read back by get_api_key: when the
    cipher decrypts what it encrypted under the generated key, storing a
    key and then reading the configuration returns the stripped key, the
    file holds the whole configuration that is in memory, and its
    plaintext field is empty. *)
Theorem stored_key_is_read_back :
  forall encrypt decrypt fresh api_key c disk,
    PyStr.strip api_key <> "" ->
    fresh <> "" ->
    encrypt fresh (PyStr.strip api_key) <> "" ->
    decrypt fresh (encrypt fresh (PyStr.strip api_key)) = Ok (PyStr.strip api_key) ->
    let stored := set_api_key encrypt fresh Written api_key c disk in
    let c1 := fst (fst stored) in
    let d1 := snd (fst stored) in
    snd stored = Some (PyStr.strip api_key)
    /\ d1 = Some (Whole c1)
    /\ get c1 "api_key" = Some ""
    /\ forall fresh' w,
        get_api_key encrypt decrypt fresh' w c1 d1
        = (c1, d1, Ok (Some (PyStr.strip api_key))).
Proof.
  intros encrypt decrypt fresh api_key c disk Hkey Hfresh Htok Hrt. cbv zeta.
  unfold set_api_key, encrypt_api_key, save_config.
  destruct (PyStr.truthy (PyStr.strip api_key)) eqn:Ht.
  2:{ destruct (PyStr.strip api_key); [contradiction | discriminate]. }
  cbn [negb fst snd].
  destruct (fields_after_store (encrypt fresh (PyStr.strip api_key)) fresh c)
    as [[Hp [He Hk]] _].
  split; [reflexivity |]. split; [reflexivity |]. split; [exact Hp |].
  intros fresh' w.
  rewrite (get_api_key_stored encrypt decrypt fresh' w _ _ _ _ He Hk Htok Hfresh).
  rewrite Hrt. reflexivity.
Qed.

Lemma stored_key_is_read_back_witness :
  snd (set_api_key toy_encrypt "k1" Written "  secret  " [] None) = Some "secret".
Proof.
  exact (proj1 (stored_key_is_read_back toy_encrypt toy_decrypt "k1" "  secret  " [] None
                  ltac:(vm_compute; discriminate) ltac:(discriminate)
                  ltac:(vm_compute; discriminate) eq_refl)).
Defined.

(** A plaintext key found in the configuration is migrated on first
    read: it is returned, the dict is rewritten with the token, the
    generated key and an empty plaintext field, the rewritten dict is
    saved, and every later read returns the same key without writing. *)
Theorem plaintext_key_is_migrated :
  forall encrypt decrypt fresh plain c disk,
    get c "api_key" = Some plain ->
    plain <> "" ->
    present (get c "encrypted_key") && present (get c "encryption_key") = false ->
    fresh <> "" ->
    encrypt fresh plain <> "" ->
    decrypt fresh (encrypt fresh plain) = Ok plain ->
    let first := get_api_key encrypt decrypt fresh Written c disk in
    let c1 := fst (fst first) in
    let d1 := snd (fst first) in
    snd first = Ok (Some plain)
    /\ get c1 "api_key" = Some ""
    /\ d1 = Some (Whole c1)
    /\ forall fresh' w,
        get_api_key encrypt decrypt fresh' w c1 d1 = (c1, d1, Ok (Some plain)).
Proof.
  intros encrypt decrypt fresh plain c disk Hp Hne Hold Hfresh Htok Hrt. cbv zeta.
  assert (Hfirst : get_api_key encrypt decrypt fresh Written c disk
                   = (set "api_key" ""
                        (set "encryption_key" fresh
                           (set "encrypted_key" (encrypt fresh plain) c)),
                      Some (Whole (set "api_key" ""
                                     (set "encryption_key" fresh
                                        (set "encrypted_key" (encrypt fresh plain) c)))),
                      Ok (Some plain))).
  { unfold get_api_key. rewrite Hold, Hp.
    rewrite (present_nonempty plain Hne).
    unfold encrypt_api_key, save_config, decrypt_api_key. cbn [value].
    rewrite Hrt. reflexivity. }
  rewrite Hfirst. cbn [fst snd].
  destruct (fields_after_store (encrypt fresh plain) fresh c) as [_ [Hpl [He Hk]]].
  split; [reflexivity |]. split; [exact Hpl |]. split; [reflexivity |].
  intros fresh' w.
  rewrite (get_api_key_stored encrypt decrypt fresh' w _ _ _ _ He Hk Htok Hfresh).
  rewrite Hrt. reflexivity.
Qed.

Lemma plaintext_key_is_migrated_witness :
  snd (get_api_key toy_encrypt toy_decrypt "k1" Written [("api_key", "secret")] None)
  = Ok (Some "secret").
Proof.
  exact (proj1 (plaintext_key_is_migrated toy_encrypt toy_decrypt "k1" "secret"
                  [("api_key", "secret")] None eq_refl ltac:(discriminate) eq_refl
                  ltac:(discriminate) ltac:(vm_compute; discriminate) eq_refl)).
Defined.

(** The plaintext key is never written to the file: whatever
    get_api_key and set_api_key write is the text of the configuration
    in memory, whole or cut short by a write that failed after the file
    was opened, and the plaintext field of that configuration is empty;
    otherwise the file is left as it was.  set_api_key returns the key
    only when the whole text was written. *)
Theorem plaintext_is_never_written :
  forall encrypt decrypt fresh w api_key c disk,
    (let r := get_api_key encrypt decrypt fresh w c disk in
     let c' := fst (fst r) in
     let d' := snd (fst r) in
     d' = disk
     \/ ((d' = Some (Whole c') \/ d' = Some (Torn c'))
         /\ get c' "api_key" = Some ""))
    /\ (let r := set_api_key encrypt fresh w api_key c disk in
        let c' := fst (fst r) in
        let d' := snd (fst r) in
        (snd r = Some (PyStr.strip api_key)
         /\ d' = Some (Whole c') /\ get c' "api_key" = Some "")
        \/ (snd r = None
            /\ (d' = disk \/ (d' = Some (Torn c') /\ get c' "api_key" = Some "")))).
Proof.
  intros encrypt decrypt fresh w api_key c disk. split.
  - cbv zeta. unfold get_api_key, encrypt_api_key, decrypt_api_key, save_config.
    destruct (present (get c "encrypted_key") && present (get c "encryption_key")).
    + destruct (decrypt _ _); left; reflexivity.
    + destruct (present (get c "api_key")); [| left; reflexivity].
      destruct (fields_after_store (encrypt fresh (value (get c "api_key"))) fresh c)
        as [_ [Hpl _]].
      destruct w.
      * destruct (decrypt _ _); right;
          (split; [left; reflexivity | exact Hpl]).
      * left. reflexivity.
      * right. split; [right; reflexivity | exact Hpl].
  - cbv zeta. unfold set_api_key, encrypt_api_key, save_config.
    destruct (PyStr.truthy (PyStr.strip api_key)); cbn [negb];
      [| right; split; [reflexivity | left; reflexivity]].
    destruct (fields_after_store (encrypt fresh (PyStr.strip api_key)) fresh c)
      as [[Hpl _] _].
    destruct w.
    + left. split; [reflexivity |]. split; [reflexivity | exact Hpl].
    + right. split; [reflexivity |]. left. reflexivity.
    + right. split; [reflexivity |]. right. split; [reflexivity | exact Hpl].
Qed.
End ConfigProofs.

(* ------------------------------------------------------------------ *)
(** ** Model query, credential prompt and shutdown *)

Module CollaboratorProofs.
Import App Tasks.
Local Open Scope string_scope.
Local Open Scope Z_scope.

Lemma consume_result :
  forall cs cancel response,
    match Query.consume cs cancel response with
    | (cancel', None) => cancel' = true
    | (cancel', Some _) => cancel' = cancel /\ existsb snd cs = false
    end.
Proof.
  induction cs as [| [text pressed] cs IH]; intros cancel response;
    cbn [Query.consume existsb snd].
  - split; reflexivity.
  - destruct cancel, pressed; cbn [orb]; try reflexivity.
    specialize (IH false (response ++ Config.value text)).
    destruct (Query.consume cs false (response ++ Config.value text)) as [c [r |]];
      [| exact IH].
    exact IH.
Qed.

Lemma str_or_nonempty :
  forall a b, b <> "" -> PyStr.str_or a b <> "".
Proof.
  intros a b Hb. unfold PyStr.str_or. destruct a; [exact Hb | discriminate].
Qed.

(** query_screenshot always answers with a non-empty text and closes
    every client it created.  A call that finds the token set at entry
    creates no client and answers with the sentinel "Request canceled.".
    Once the client exists, a cancellation that comes in time for one of
    the reads made while streaming gives the sentinel, also when the
    stream then ends with an error.  When the client cannot be created
    the answer is the failure message whether or not cancellation was
    requested meanwhile: that path does not read the token again. *)
Theorem query_answer_is_never_empty :
  forall cancel e,
    let r := Query.query_screenshot cancel e in
    Query.answer r <> ""
    /\ Query.client_closed r = Query.client_created r
    /\ (cancel = true ->
        Query.answer r = Query.canceled /\ Query.client_created r = false)
    /\ (cancel = false -> Query.client_raises e = false ->
        Query.seen_in_stream e = true ->
        Query.answer r = Query.canceled /\ Query.cancel_after r = true)
    /\ (cancel = false -> Query.client_raises e = true ->
        Query.answer r = "Failed to initialise the Gemini client."
        /\ Query.client_created r = false
        /\ Query.cancel_after r = Query.cancel_at_client e || Query.cancel_at_return e).
Proof.
  intros cancel e. cbv zeta. unfold Query.query_screenshot, Query.seen_in_stream.
  destruct cancel.
  { cbn. repeat split; discriminate. }
  cbn [orb].
  destruct (Query.client_raises e).
  { cbn. repeat split; discriminate. }
  pose proof (consume_result (Query.chunks e) (Query.cancel_at_client e) "") as Hc.
  destruct (Query.consume (Query.chunks e) (Query.cancel_at_client e) "")
    as [c [response |]].
  - destruct Hc as [-> ->].
    destruct (Query.cancel_at_client e), (Query.stream_error e) as [exc |],
      (Query.cancel_at_end e);
      cbn [orb Query.answer Query.cancel_after Query.client_closed Query.client_created];
      repeat split; try discriminate; try reflexivity.
    apply str_or_nonempty. discriminate.
  - subst c. cbn. repeat split; discriminate.
Qed.

Lemma concat_empty_cons :
  forall x l, String.concat "" (x :: l) = x ++ String.concat "" l.
Proof.
  intros x l. cbn [String.concat]. destruct l; [| reflexivity].
  cbn [String.concat]. induction x as [| a x IH]; cbn; [reflexivity |].
  f_equal. exact IH.
Qed.

Lemma append_assoc_str : forall a b c : string, (a ++ b) ++ c = a ++ (b ++ c).
Proof.
  induction a as [| x a IH]; intros b c; cbn; [reflexivity |]. f_equal. apply IH.
Qed.

Lemma consume_undisturbed :
  forall cs response,
    existsb snd cs = false ->
    Query.consume cs false response
    = (false, Some (response ++ String.concat "" (map (fun c => Config.value (fst c)) cs))).
Proof.
  induction cs as [| [text pressed] cs IH]; intros response H.
  - cbn. f_equal. f_equal. induction response as [| a r IHr]; cbn; [reflexivity |].
    f_equal. exact IHr.
  - cbn [existsb snd] in H. apply orb_false_elim in H. destruct H as [Hp Hcs].
    subst pressed. cbn [Query.consume orb map fst].
    rewrite (IH _ Hcs). rewrite concat_empty_cons, append_assoc_str. reflexivity.
Qed.

(** When nobody cancels, the client can be created and the stream ends
    without an error, the answer is the streamed chunk texts joined in
    their order of arrival (chunks without text count as empty) and
    stripped, or "No description returned." when that is empty. *)
Theorem undisturbed_query_returns_the_stream :
  forall e,
    Query.undisturbed e = true ->
    Query.client_raises e = false ->
    Query.stream_error e = None ->
    Query.answer (Query.query_screenshot false e)
    = PyStr.str_or (PyStr.strip (Query.streamed e)) "No description returned."
    /\ Query.cancel_after (Query.query_screenshot false e) = false.
Proof.
  intros e Hu Hc He. unfold Query.undisturbed, Query.seen_in_stream in Hu.
  apply andb_prop in Hu. destruct Hu as [Hseen Hret].
  apply negb_true_iff in Hseen. apply negb_true_iff in Hret.
  apply orb_false_elim in Hseen. destruct Hseen as [Hseen Hend].
  apply orb_false_elim in Hseen. destruct Hseen as [Hclient Hp].
  unfold Query.query_screenshot. rewrite Hc, Hclient. cbn [orb].
  rewrite (consume_undisturbed _ "" Hp), He, Hend, Hret. cbn. split; reflexivity.
Qed.

Lemma undisturbed_query_returns_the_stream_witness :
  Query.answer
    (Query.query_screenshot false
       (Query.mkEnv false false
                    [(Some " A window. ", false); (None, false); (Some "A menu. ", false)]
                    None false false))
  = "A window. A menu.".
Proof.
  exact (proj1 (undisturbed_query_returns_the_stream
                  (Query.mkEnv false false
                     [(Some " A window. ", false); (None, false); (Some "A menu. ", false)]
                     None false false) eq_refl eq_refl eq_refl)).
Defined.

(** A key returned by prompt_for_api_key is never empty and carries no
    leading or trailing whitespace; and when the console answered, by
    getpass or by the input fallback, the dialog is not opened, blank
    answer or not. *)
Theorem prompted_key_is_clean :
  forall e,
    (forall k, fst (Prompt.prompt_for_api_key e) = Some k ->
               k <> "" /\ PyStr.strip k = k)
    /\ (forall r, Prompt.from_console e = Some r ->
                  Prompt.prompt_for_api_key e = (r, false)).
Proof.
  intros e.
  assert (Hclean : forall t k, Prompt.key_or_none (PyStr.strip t) = Some k ->
                               k <> "" /\ PyStr.strip k = k).
  { intros t k H. unfold Prompt.key_or_none in H.
    destruct (PyStr.truthy (PyStr.strip t)) eqn:Ht; [| discriminate].
    injection H as <-. split.
    - intros E. rewrite E in Ht. discriminate.
    - apply TextProofs.strip_idempotent. }
  split.
  - intros k. unfold Prompt.prompt_for_api_key, Prompt.from_console.
    destruct (Prompt.stdin_isatty e) as [[|] | x];
      [destruct (Prompt.getpass e) as [g | x];
       [| destruct (Prompt.input e) as [i | y]] | |];
      cbn [fst]; try (apply Hclean);
      (destruct (Prompt.dialog e) as [[d |] | z]; cbn [fst]; try discriminate;
       destruct (PyStr.truthy d); cbn [fst]; try discriminate; apply Hclean).
  - intros r H. unfold Prompt.prompt_for_api_key. rewrite H. reflexivity.
Qed.

Lemma prompted_key_is_clean_witness :
  PyStr.strip "AIzaKey" = "AIzaKey".
Proof.
  exact (proj2 (proj1 (prompted_key_is_clean
                         (Prompt.mkEnv (Ok true) (Raise OSError) (Ok "  AIzaKey ") (Ok None)))
                  "AIzaKey" eq_refl)).
Defined.

(** Shutdown with a farewell makes the farewell heard even after a
    stop-speech request: it clears the suppression signal just before
    speaking.  It sets the cancellation token and the submit signal,
    clears the listening flag and the task name, unhooks the hot-keys and
    leaves the gate and the threads alone; a second call does nothing. *)
Theorem shutdown_speaks_the_farewell :
  forall force_exit p,
    Shutdown.running p = true ->
    let r := Shutdown.stop true force_exit (fun _ => Speech.all_ok) p in
    let s' := Shutdown.state (fst r) in
    snd r = Ok tt
    /\ narrated s' = (narrated (Shutdown.state p) ++ [Shutdown.farewell])%list
    /\ task_cancel_event s' = true
    /\ follow_up_submit_event s' = true
    /\ follow_up_listening_event s' = false
    /\ active_task_name s' = None
    /\ capture_lock s' = capture_lock (Shutdown.state p)
    /\ threads s' = threads (Shutdown.state p)
    /\ Shutdown.running (fst r) = false
    /\ Shutdown.hotkeys_hooked (fst r) = false
    /\ Shutdown.exited (fst r) = force_exit
    /\ forall farewell_again force_again voice,
        Shutdown.stop farewell_again force_again voice (fst r) = (fst r, Ok tt).
Proof.
  intros force_exit [s run hooked ex] Hrun. cbn [Shutdown.running] in Hrun. subst run.
  cbv zeta. unfold Shutdown.stop. cbn [Shutdown.running Shutdown.state negb].
  set (s1 := clear_speech_stop_request _).
  assert (Hclear : Speech.stop_event (speech s1) = false) by reflexivity.
  assert (Hnarr : narrated s1 = narrated s).
  { unfold s1, narrated, clear_speech_stop_request, stop_current_speech.
    cbn [speech set_speech set_active_task out set_listening set_submit set_cancel].
    unfold Speech.clear_speech_stop_request, Speech.stop_current_speech.
    cbn [Speech.set_stop Speech.active_proc Speech.log].
    destruct (Speech.active_proc (speech s));
      cbn [Speech.emit Speech.log Speech.set_stop];
      rewrite ?SpeechProofs.spoken_app; cbn; rewrite ?app_nil_r; reflexivity. }
  pose proof (Orchestration.say_when_clear Shutdown.farewell false s1 Hclear) as Hsay.
  unfold narrated in Hsay, Hnarr. cbn [do_move speech set_speech] in Hsay.
  destruct (Speech.speak (fun _ => Speech.all_ok) Shutdown.farewell false 1 (speech s1))
    as [sp [u | x]] eqn:Hsp.
  - cbn [fst snd Shutdown.state Shutdown.running Shutdown.hotkeys_hooked Shutdown.exited].
    cbn [fst] in Hsay.
    split; [reflexivity |]. split.
    { unfold narrated. cbn [speech set_speech]. rewrite Hsay, Hnarr. reflexivity. }
    repeat split.
  - exfalso.
    (* with working backends speak returns normally *)
    unfold Speech.speak in Hsp. rewrite Hclear in Hsp.
    assert (Hok : forall st, Speech.stop_event st = false ->
                             snd (Speech.speak_loop 1 0 (fun _ => Speech.all_ok)
                                    Shutdown.farewell st) = Ok tt).
    { intros [stop ap lg] Hst. cbn [Speech.stop_event] in Hst. subst stop. reflexivity. }
    change (Z.to_nat (Z.max 1 1)) with 1%nat in Hsp.
    match type of Hsp with
    | Speech.speak_loop 1 0 _ _ ?st = _ =>
        assert (Hst : Speech.stop_event st = false)
          by (destruct (Speech.active_proc (speech s1)); assumption);
        specialize (Hok st Hst); rewrite Hsp in Hok; discriminate
    end.
Qed.

Lemma shutdown_speaks_the_farewell_witness :
  narrated (Shutdown.state
              (fst (Shutdown.stop true true (fun _ => Speech.all_ok)
                      (Shutdown.start (handle KStopSpeaking [] (init (Some "key")))))))
  = [Shutdown.farewell].
Proof.
  exact (proj1 (proj2 (shutdown_speaks_the_farewell true
                         (Shutdown.start (handle KStopSpeaking [] (init (Some "key"))))
                         eq_refl))).
Defined.
End CollaboratorProofs.
